(** * mem_remap: the offset tracker and the pixel shuffle of image_scrambler

    A shallow embedding of [offsetMemoryAddressing] (the undo log kept by
    [modifyBytes] and replayed by [removeMemoryAddress]) and of the pixel
    shuffle of [main] (Fisher-Yates permutation, forward application,
    reverse mapping), followed by the properties proved about them.

    Conventions.
    - Go's [int] and [int64] are modelled by [Z].  The offsets and indices
      of the tracker and of the pixel shuffle cannot wrap: each is below the
      length of a slice that was successfully allocated.  The byte-level
      scrambler computes with the bounds of an arbitrary [image.Image];
      there the differences and products that can leave the range of [int]
      are reduced by [wrap_int], and [make] and [image.NewRGBA] panic as the
      runtime and the library make them.
    - A [[]byte] is a [list byte]; the in-place update [mem[i] = v] returns
      the updated list, so every operation returns the buffer it leaves
      behind next to the [error] it reports ([None] is Go's [nil]).
    - [map[int64]byte] is a [gmap Z byte].  Go leaves the iteration order of
      [range] over a map unspecified, so [removeMemoryAddress] is run along
      an explicit enumeration of the map, and the theorems quantify over all
      enumerations. *)

From Stdlib Require Import ZArith Lia.
From Stdlib.Strings Require Import Byte.
From stdpp Require Import gmap list list_numbers fin_maps strings.

Local Open Scope Z_scope.

(** ** Data model *)

#[global] Instance byte_inhabited : Inhabited byte := populate x00.

(** The two errors built with [fmt.Errorf] in main.go. *)
Inductive error : Type :=
  | MemBlockEmpty                      (* "mem block is empty" *)
  | OffsetOutOfBounds (offset : Z).    (* "offset %d is out of bounds" *)

(** [type offsetMemoryAddressing struct { offsets map[int64]byte }] *)
Record offsetMemoryAddressing : Type := mkTracker { offsets : gmap Z byte }.

(** [&offsetMemoryAddressing{offsets: make(map[int64]byte)}] *)
Definition newTracker : offsetMemoryAddressing := mkTracker ∅.

(** The guard [offset < 0 || offset >= int64(len(mem))] shared by both
    methods. *)
Definition out_of_bounds (offset : Z) (mem : list byte) : bool :=
  (offset <? 0) || (offset >=? Z.of_nat (length mem)).

(** ** The tracker *)

(** [func (o *offsetMemoryAddressing) modifyBytes(mem []byte, offset int64,
    newValue byte) error] *)
Definition modifyBytes (o : offsetMemoryAddressing) (mem : list byte)
    (offset : Z) (newValue : byte)
  : offsetMemoryAddressing * list byte * option error :=
  if out_of_bounds offset mem then (o, mem, Some (OffsetOutOfBounds offset))
  else
    let o' :=
      match offsets o !! offset with
      | Some _ => o
      | None => mkTracker (<[offset := mem !!! Z.to_nat offset]> (offsets o))
      end in
    (o', <[Z.to_nat offset := newValue]> mem, None).

(** The body of [for offset, originalByte := range o.offsets { ... }], run
    along the entries in the order the iteration delivers them.  The loop
    returns at the first entry that is out of bounds, keeping the writes
    already made. *)
Fixpoint restore_entries (entries : list (Z * byte)) (mem : list byte)
  : list byte * option error :=
  match entries with
  | [] => (mem, None)
  | (offset, originalByte) :: rest =>
      if out_of_bounds offset mem then (mem, Some (OffsetOutOfBounds offset))
      else restore_entries rest (<[Z.to_nat offset := originalByte]> mem)
  end.

(** [func (o *offsetMemoryAddressing) removeMemoryAddress(mem []byte) error],
    where [order] is the enumeration of [o.offsets] met by [range]. *)
Definition removeMemoryAddress_in (order : list (Z * byte))
    (o : offsetMemoryAddressing) (mem : list byte)
  : offsetMemoryAddressing * list byte * option error :=
  if (length mem =? 0)%nat then (o, mem, Some MemBlockEmpty)
  else
    match restore_entries order mem with
    | (mem', Some e) => (o, mem', Some e)
    | (mem', None) => (mkTracker ∅, mem', None)
    end.

(** The enumerations [range o.offsets] may produce: every entry once. *)
Definition range_order (o : offsetMemoryAddressing) (order : list (Z * byte)) : Prop :=
  order ≡ₚ map_to_list (offsets o).

(** [removeMemoryAddress] as a relation: one outcome per enumeration. *)
Inductive removeMemoryAddress (o : offsetMemoryAddressing) (mem : list byte)
  : offsetMemoryAddressing * list byte * option error → Prop :=
  | removeMemoryAddress_run order :
      range_order o order →
      removeMemoryAddress o mem (removeMemoryAddress_in order o mem).

(** A sequence of [modifyBytes] calls on one buffer through one tracker;
    the errors of the calls are collected in call order. *)
Fixpoint modifyBytes_all (o : offsetMemoryAddressing) (mem : list byte)
    (writes : list (Z * byte))
  : offsetMemoryAddressing * list byte * list (option error) :=
  match writes with
  | [] => (o, mem, [])
  | (offset, newValue) :: rest =>
      let '(o1, mem1, e) := modifyBytes o mem offset newValue in
      let '(o2, mem2, es) := modifyBytes_all o1 mem1 rest in
      (o2, mem2, e :: es)
  end.

(** Trackers whose record was filled by [modifyBytes] alone, each call
    against some buffer of length at most [L]. *)
Inductive built_by_modifyBytes (L : nat) : offsetMemoryAddressing → Prop :=
  | built_new : built_by_modifyBytes L newTracker
  | built_modify o mem offset newValue :
      built_by_modifyBytes L o →
      (length mem ≤ L)%nat →
      built_by_modifyBytes L (modifyBytes o mem offset newValue).1.1.

(** ** Invariants of the tracker *)

(** An entry of the record that [removeMemoryAddress] accepts on a buffer
    of length [n]. *)
Definition entry_in_bounds (n : nat) (e : Z * byte) : Prop :=
  0 ≤ e.1 < Z.of_nat n.

(** Every recorded offset lies in [0, n). *)
Definition record_in_bounds (n : nat) (o : offsetMemoryAddressing) : Prop :=
  ∀ k, is_Some (offsets o !! k) → 0 ≤ k < Z.of_nat n.

(** The record of [o] explains how the buffer [mem] differs from [mem0],
    the buffer as it was when the record was empty: recorded offsets hold
    the byte [mem0] has there, and [mem] agrees with [mem0] elsewhere. *)
Definition tracks (mem0 : list byte) (o : offsetMemoryAddressing)
    (mem : list byte) : Prop :=
  length mem = length mem0 ∧
  (∀ k b, offsets o !! k = Some b →
          0 ≤ k < Z.of_nat (length mem0) ∧ mem0 !! Z.to_nat k = Some b) ∧
  (∀ i, offsets o !! Z.of_nat i = None → mem !! i = mem0 !! i).

(** ** Images

    [image.RGBA] restricted to what [main] uses.  [bounds] is the rectangle
    of a decoded JPEG, whose [Min] corner is the origin, so an image is its
    [Pix] slice with its width and height, and [Stride] is [4 * width]. *)
Record RGBAImage : Type := mkRGBA { Pix : list byte; Dx : Z; Dy : Z }.

(** [color.RGBA{R, G, B, A}] *)
Definition color : Type := (byte * byte * byte * byte)%type.

(** [image.NewRGBA(bounds)]: a zeroed pixel slice of [4 * w * h] bytes. *)
Definition NewRGBA (w h : Z) : RGBAImage :=
  mkRGBA (replicate (Z.to_nat (4 * w * h)) x00) w h.

(** [uint32(c)] of a byte, and the conversion [byte(v)] that keeps the low
    eight bits. *)
Definition uint32_of_byte (c : byte) : Z := Z.of_N (Byte.to_N c).

Definition byte_of (v : Z) : byte :=
  default x00 (Byte.of_N (Z.to_N (Z.land v 255))).

(** [func (p *RGBA) At(x, y int) color.Color]: the zero colour outside the
    rectangle, the four bytes at [PixOffset(x, y)] inside. *)
Definition At (p : RGBAImage) (x y : Z) : color :=
  if (0 <=? x) && (x <? Dx p) && (0 <=? y) && (y <? Dy p) then
    let i := y * (4 * Dx p) + x * 4 in
    (Pix p !!! Z.to_nat i, Pix p !!! Z.to_nat (i + 1),
     Pix p !!! Z.to_nat (i + 2), Pix p !!! Z.to_nat (i + 3))
  else (x00, x00, x00, x00).

(** [func (c RGBA) RGBA() (r, g, b, a uint32)]: each channel widened to
    sixteen bits by [r |= r << 8]. *)
Definition RGBA (c : color) : Z * Z * Z * Z :=
  let '(cr, cg, cb, ca) := c in
  let widen v := Z.lor (uint32_of_byte v) (Z.shiftl (uint32_of_byte v) 8) in
  (widen cr, widen cg, widen cb, widen ca).

Definition bytesPerPixel : Z := 4.

(** ** The pixel shuffle of [main] *)

(** An index expression [a[i]] on a slice of ints; [None] is the run-time
    panic on an index out of range. *)
Definition at_index (a : list Z) (i : Z) : option Z :=
  if (i <? 0) || (i >=? Z.of_nat (length a)) then None else a !! Z.to_nat i.

(** [a[i], a[j] = a[j], a[i]]: both operands are read, then [a[i]] and
    [a[j]] are assigned in that order. *)
Definition swap (a : list Z) (i j : Z) : option (list Z) :=
  vj ← at_index a j;
  vi ← at_index a i;
  Some (<[Z.to_nat j := vi]> (<[Z.to_nat i := vj]> a)).

Section generator.
(** The state of [math/rand]'s generator, and [rand.Intn(n)] as a function
    of that state returning the draw and the next state. *)
Context {rng : Type} (Intn : Z → rng → Z * rng).

(** [for i := totalPixels - 1; i > 0; i-- { j := rand.Intn(i + 1); swap }],
    by recursion on the loop variable [i]. *)
Fixpoint shuffle_from (i : nat) (indices : list Z) (s : rng)
  : option (list Z * rng) :=
  match i with
  | O => Some (indices, s)
  | S i' =>
      let '(j, s') := Intn (Z.of_nat i + 1) s in
      indices' ← swap indices (Z.of_nat i) j;
      shuffle_from i' indices' s'
  end.

(** [shuffledIndices]: [make([]int, totalPixels)] filled with [0..n-1],
    then shuffled.  [make] panics on a negative length.  [scrambleImage]
    builds its [indices] the same way, with [len(data)] for [totalPixels]. *)
Definition shuffledIndices (totalPixels : Z) (s : rng) : option (list Z * rng) :=
  if totalPixels <? 0 then None
  else shuffle_from (Z.to_nat (totalPixels - 1)) (seqZ 0 totalPixels) s.
End generator.

(** The four [modifyBytes] calls of one loop iteration, as the offsets and
    values they are given: the pixel of [src] at index [fromIdx] goes to the
    pixel slot [toIdx]. *)
Definition pixel_stores (src : RGBAImage) (width : Z) (fromIdx toIdx : Z)
  : list (Z * byte) :=
  let origX := Z.rem fromIdx width in
  let origY := Z.quot fromIdx width in
  let shuffledX := Z.rem toIdx width in
  let shuffledY := Z.quot toIdx width in
  let '(r, g, b, a) := RGBA (At src origX origY) in
  let scrambledOffset := (shuffledY * width + shuffledX) * bytesPerPixel in
  [ (scrambledOffset, byte_of (Z.shiftr r 8));
    (scrambledOffset + 1, byte_of (Z.shiftr g 8));
    (scrambledOffset + 2, byte_of (Z.shiftr b 8));
    (scrambledOffset + 3, byte_of (Z.shiftr a 8)) ].

(** One iteration of the loop at main.go:119 (and of its twin at
    main.go:196): the four calls in sequence, their errors dropped as the
    program drops them. *)
Definition move_pixel (src : RGBAImage) (width : Z)
    (st : offsetMemoryAddressing * list byte) (fromIdx toIdx : Z)
  : offsetMemoryAddressing * list byte :=
  let origX := Z.rem fromIdx width in
  let origY := Z.quot fromIdx width in
  let shuffledX := Z.rem toIdx width in
  let shuffledY := Z.quot toIdx width in
  let '(r, g, b, a) := RGBA (At src origX origY) in
  let scrambledOffset := (shuffledY * width + shuffledX) * bytesPerPixel in
  let '(tracker, pix) := st in
  let '(tracker, pix, _) := modifyBytes tracker pix scrambledOffset (byte_of (Z.shiftr r 8)) in
  let '(tracker, pix, _) := modifyBytes tracker pix (scrambledOffset + 1) (byte_of (Z.shiftr g 8)) in
  let '(tracker, pix, _) := modifyBytes tracker pix (scrambledOffset + 2) (byte_of (Z.shiftr b 8)) in
  let '(tracker, pix, _) := modifyBytes tracker pix (scrambledOffset + 3) (byte_of (Z.shiftr a 8)) in
  (tracker, pix).

(** [for idx, target := range mapping { ... }] from index [idx] on. *)
Fixpoint move_pixels_from (src : RGBAImage) (width : Z) (idx : Z)
    (mapping : list Z) (st : offsetMemoryAddressing * list byte)
  : offsetMemoryAddressing * list byte :=
  match mapping with
  | [] => st
  | target :: rest =>
      move_pixels_from src width (idx + 1) rest (move_pixel src width st idx target)
  end.

(** The whole loop, started on a fresh image and a fresh tracker:
    [scrambledImg] with [tracker] at main.go:110-138, [restoredImg] with
    [tracker2] at main.go:190-214. *)
Definition apply_shuffle (src : RGBAImage) (mapping : list Z)
  : offsetMemoryAddressing * RGBAImage :=
  let dst := NewRGBA (Dx src) (Dy src) in
  let '(tracker, pix) :=
    move_pixels_from src (Dx src) 0 mapping (newTracker, Pix dst) in
  (tracker, mkRGBA pix (Dx src) (Dy src)).

(** The offsets and values handed to [modifyBytes] over the whole loop, in
    call order. *)
Fixpoint shuffle_stores_from (src : RGBAImage) (width : Z) (idx : Z)
    (mapping : list Z) : list (Z * byte) :=
  match mapping with
  | [] => []
  | target :: rest =>
      pixel_stores src width idx target
      ++ shuffle_stores_from src width (idx + 1) rest
  end.

(** [reverseShuffle[shuffledIdx] = originalIdx] for every entry of
    [shuffledIndices]; [None] is the panic on an index out of range. *)
Fixpoint reverse_fill (originalIdx : Z) (shuffled : list Z) (reverse : list Z)
  : option (list Z) :=
  match shuffled with
  | [] => Some reverse
  | shuffledIdx :: rest =>
      if (shuffledIdx <? 0) || (shuffledIdx >=? Z.of_nat (length reverse)) then None
      else reverse_fill (originalIdx + 1) rest (<[Z.to_nat shuffledIdx := originalIdx]> reverse)
  end.

Definition reverseShuffle (totalPixels : Z) (shuffled : list Z) : option (list Z) :=
  if totalPixels <? 0 then None
  else reverse_fill 0 shuffled (replicate (Z.to_nat totalPixels) 0).

(** An image as [NewRGBA] lays it out. *)
Definition well_formed (img : RGBAImage) : Prop :=
  0 ≤ Dx img ∧ 0 ≤ Dy img ∧ Z.of_nat (length (Pix img)) = 4 * Dx img * Dy img.

(** The four byte offsets of pixel slot [v]. *)
Definition pixel_offsets (v : Z) : list Z :=
  [4 * v; 4 * v + 1; 4 * v + 2; 4 * v + 3].

(** The byte of [pix] at the Go index [i]. *)
Definition byte_at (pix : list byte) (i : Z) : byte := pix !!! Z.to_nat i.

(** [p] holds every integer of [0, N) exactly once. *)
Definition is_permutation (N : Z) (p : list Z) : Prop := p ≡ₚ seqZ 0 N.

(** ** The reports of [main]

    The loops of [main] that only read and print are modelled by the values
    they print; [None] is a run-time panic. *)

(** Go's [a % b] and [a / b] on ints: truncated towards zero, and a panic
    on a zero divisor. *)
Definition go_rem (a b : Z) : option Z :=
  if b =? 0 then None else Some (Z.rem a b).

Definition go_quot (a b : Z) : option Z :=
  if b =? 0 then None else Some (Z.quot a b).

(** One line of "Shuffle examples" (main.go:98-107): the coordinates of
    pixel [i], its red, green and blue bytes, and the coordinates it moves
    to. *)
Definition shuffle_example (originalImg : RGBAImage) (width : Z)
    (shuffled : list Z) (i : Z) : option (Z * Z * Z * Z * Z * Z * Z) :=
  origX ← go_rem i width;
  origY ← go_quot i width;
  shuffledIdx ← at_index shuffled i;
  shuffledX ← go_rem shuffledIdx width;
  shuffledY ← go_quot shuffledIdx width;
  let '(origR, origG, origB, _) := RGBA (At originalImg origX origY) in
  Some (origX, origY, Z.shiftr origR 8, Z.shiftr origG 8, Z.shiftr origB 8,
        shuffledX, shuffledY).

(** [for i := 0; i < 5; i++ { ... }] *)
Definition shuffle_examples (originalImg : RGBAImage) (width : Z)
    (shuffled : list Z) : option (list (Z * Z * Z * Z * Z * Z * Z)) :=
  mapM (shuffle_example originalImg width shuffled) (seqZ 0 5).

(** One line of "Verifying pixel values after shuffling" (main.go:156-169):
    the last component is [valuesMatch]. *)
Definition values_check (originalImg scrambledImg : RGBAImage) (width : Z)
    (shuffled : list Z) (i : Z) : option (Z * Z * Z * Z * Z * Z * bool) :=
  origX ← go_rem i width;
  origY ← go_quot i width;
  shuffledIdx ← at_index shuffled i;
  shuffledX ← go_rem shuffledIdx width;
  shuffledY ← go_quot shuffledIdx width;
  let '(origR, origG, origB, _) := RGBA (At originalImg origX origY) in
  let '(shuffledR, shuffledG, shuffledB, _) := RGBA (At scrambledImg shuffledX shuffledY) in
  let valuesMatch := (origR =? shuffledR) && (origG =? shuffledG) && (origB =? shuffledB) in
  Some (origX, origY, Z.shiftr origR 8, shuffledX, shuffledY, Z.shiftr shuffledR 8,
        valuesMatch).

(** [for i := 0; i < 3; i++ { ... }] *)
Definition values_checks (originalImg scrambledImg : RGBAImage) (width : Z)
    (shuffled : list Z) : option (list (Z * Z * Z * Z * Z * Z * bool)) :=
  mapM (values_check originalImg scrambledImg width shuffled) (seqZ 0 3).

(** The comparison made for pixel [i] in "Verifying restoration"
    (main.go:231-241): all four channels of the two images agree. *)
Definition pixel_matches (originalImg restoredImg : RGBAImage) (width : Z)
    (i : Z) : option bool :=
  x ← go_rem i width;
  y ← go_quot i width;
  let '(origR, origG, origB, origA) := RGBA (At originalImg x y) in
  let '(restoredR, restoredG, restoredB, restoredA) := RGBA (At restoredImg x y) in
  Some ((origR =? restoredR) && (origG =? restoredG)
        && (origB =? restoredB) && (origA =? restoredA)).

(** The counting loop over the pixel indices [idxs]. *)
Fixpoint count_matches_over (originalImg restoredImg : RGBAImage) (width : Z)
    (idxs : list Z) (matches : Z) : option Z :=
  match idxs with
  | [] => Some matches
  | i :: rest =>
      match pixel_matches originalImg restoredImg width i with
      | None => None
      | Some true => count_matches_over originalImg restoredImg width rest (matches + 1)
      | Some false => count_matches_over originalImg restoredImg width rest matches
      end
  end.

(** [matches := 0; for i := 0; i < totalPixels && i < 100; i++ { ... }] *)
Definition count_matches (originalImg restoredImg : RGBAImage)
    (width totalPixels : Z) : option Z :=
  count_matches_over originalImg restoredImg width
    (seqZ 0 (Z.min totalPixels 100)) 0.

(** [matches == 100]: whether "Perfect restoration achieved!" is printed
    rather than "Some pixels don't match". *)
Definition perfect_restoration (originalImg restoredImg : RGBAImage)
    (width totalPixels : Z) : option bool :=
  matches ← count_matches originalImg restoredImg width totalPixels;
  Some (matches =? 100).

(** A generator that replays a prepared list of draws. *)
Definition scripted_Intn (n : Z) (draws : list Z) : Z * list Z :=
  (hd 0 draws, tl draws).

(** [draws] is a script for the loop started at [i]: one draw per
    iteration, the draw of iteration [i] within [0, i]. *)
Fixpoint valid_draws (i : nat) (draws : list Z) : Prop :=
  match i, draws with
  | O, [] => True
  | S i', j :: rest => 0 ≤ j ≤ Z.of_nat i ∧ valid_draws i' rest
  | _, _ => False
  end.

(** ** The byte-level scrambler (main.go.random_pixel_value.txt)

    The second program works on the flat byte slice of an image.  Its
    tracker is the one above, word for word.  Its functions take the
    allocation limit [maxAlloc] of the runtime as a parameter. *)

(** [image.Rectangle], and [image.Rect], which swaps the corners where
    needed so that [Min] is not beyond [Max]. *)
Record Rectangle : Type := mkRectangle { MinX : Z; MinY : Z; MaxX : Z; MaxY : Z }.

Definition Rect (x0 y0 x1 y1 : Z) : Rectangle :=
  let '(x0, x1) := if x1 <? x0 then (x1, x0) else (x0, x1) in
  let '(y0, y1) := if y1 <? y0 then (y1, y0) else (y0, y1) in
  mkRectangle x0 y0 x1 y1.

(** Go's [int] has 64 bits on the platforms the program is built for: a
    result that leaves [-2^63, 2^63) wraps around. *)
Definition wrap_int (z : Z) : Z := (z + 2 ^ 63) mod 2 ^ 64 - 2 ^ 63.

(** [r.Dx()] and [r.Dy()], the differences of two [int]s. *)
Definition rect_Dx (r : Rectangle) : Z := wrap_int (MaxX r - MinX r).
Definition rect_Dy (r : Rectangle) : Z := wrap_int (MaxY r - MinY r).

(** Where [make([]T, n)] panics with "len out of range", for elements of
    [size] bytes: on a negative length, and on one whose bytes overflow a
    [uintptr] or exceed [maxAlloc], the most bytes the runtime gives to one
    allocation (a constant of the platform, [1 << 48] on linux/amd64; less
    where memory is short). *)
Definition make_panics (maxAlloc size n : Z) : bool :=
  (n <? 0) || (2 ^ 64 <=? size * n) || (maxAlloc <? size * n).

(** [make([]byte, n)] *)
Definition make_bytes (maxAlloc n : Z) : option (list byte) :=
  if make_panics maxAlloc 1 n then None else Some (replicate (Z.to_nat n) x00).

(** [mul3NonNeg] of package [image]: [x * y * z], or [-1] where an argument
    is negative or the product leaves the range of [int].  The two
    [bits.Mul64] steps have a high word exactly when the product so far
    reaches [2^64]; the conversion of the low word to [int] is negative
    from [2^63] on. *)
Definition mul3NonNeg (x y z : Z) : Z :=
  if (x <? 0) || (y <? 0) || (z <? 0) then -1
  else if 2 ^ 64 <=? x * y then -1
  else if 2 ^ 64 <=? x * y * z then -1
  else if 2 ^ 63 <=? x * y * z then -1
  else x * y * z.

(** [image.Image] as the program uses it: [Bounds()], and [At(x, y).RGBA()]
    as one function to the four 32-bit channels. *)
Record Image : Type := mkImage { Bounds : Rectangle; ColorAt : Z → Z → Z * Z * Z * Z }.

(** [Point{x, y}.In(r)] and [p.PixOffset(x, y)] for an [*image.RGBA] made by
    [image.NewRGBA(r)], whose [Stride] is [4 * r.Dx()]; [NewRGBA] returns
    only where this product and the offsets of the points of [r] are within
    the range of [int]. *)
Definition in_rect (r : Rectangle) (x y : Z) : bool :=
  (MinX r <=? x) && (x <? MaxX r) && (MinY r <=? y) && (y <? MaxY r).

Definition PixOffset (r : Rectangle) (x y : Z) : Z :=
  (y - MinY r) * (4 * rect_Dx r) + (x - MinX r) * 4.

(** The [Pix] of [image.NewRGBA(r)]: [make([]uint8, pixelBufferLength(4,
    r, "RGBA"))], where [pixelBufferLength] panics with "Rectangle has huge
    or negative dimensions" on a negative [mul3NonNeg(4, r.Dx(), r.Dy())]. *)
Definition NewRGBA_Pix (maxAlloc : Z) (r : Rectangle) : option (list byte) :=
  let totalLength := mul3NonNeg 4 (rect_Dx r) (rect_Dy r) in
  if totalLength <? 0 then None else make_bytes maxAlloc totalLength.

(** [func (p *RGBA) Set(x, y int, c color.Color)] for a [color.RGBA]
    argument, which [color.RGBAModel] leaves as it is: nothing outside the
    rectangle, the four bytes at [PixOffset] inside.  [pix] is the slice
    [NewRGBA] allocated for [r], which holds the offset of every point of
    [r]. *)
Definition RGBA_Set (r : Rectangle) (pix : list byte) (x y : Z) (c : color)
  : list byte :=
  if in_rect r x y then
    let i := PixOffset r x y in
    let '(cr, cg, cb, ca) := c in
    <[Z.to_nat (i + 3) := ca]>
      (<[Z.to_nat (i + 2) := cb]>
         (<[Z.to_nat (i + 1) := cg]> (<[Z.to_nat i := cr]> pix)))
  else pix.

(** [func (p *RGBA) At(x, y int) color.Color] on a general rectangle. *)
Definition RGBA_At (r : Rectangle) (pix : list byte) (x y : Z) : color :=
  if in_rect r x y then
    let i := PixOffset r x y in
    (byte_at pix i, byte_at pix (i + 1), byte_at pix (i + 2), byte_at pix (i + 3))
  else (x00, x00, x00, x00).

(** An [*image.RGBA] with rectangle [r] and pixel slice [pix], seen through
    the [image.Image] interface. *)
Definition RGBA_Image (r : Rectangle) (pix : list byte) : Image :=
  mkImage r (λ x y, RGBA (RGBA_At r pix x y)).

(** [for y := ...; y < ...; y++ { for x := ...; x < ...; x++ { body } }]
    over the columns [xs] and rows [ys], threading the state of the loop;
    [None] is a panic in the body. *)
Fixpoint for_each_x {St : Type} (body : St → Z → Z → option St) (y : Z)
    (xs : list Z) (st : St) : option St :=
  match xs with
  | [] => Some st
  | x :: rest => st' ← body st x y; for_each_x body y rest st'
  end.

Fixpoint for_each_y {St : Type} (body : St → Z → Z → option St)
    (xs ys : list Z) (st : St) : option St :=
  match ys with
  | [] => Some st
  | y :: rest => st' ← for_each_x body y xs st; for_each_y body xs rest st'
  end.

(** [data[i] = b] and [data[i]] on a byte slice, panicking out of range. *)
Definition store_byte (data : list byte) (i : Z) (b : byte) : option (list byte) :=
  if out_of_bounds i data then None else Some (<[Z.to_nat i := b]> data).

Definition load_byte (data : list byte) (i : Z) : option byte :=
  if out_of_bounds i data then None else data !! Z.to_nat i.

(** The body of the loops of [imageToBytes]; the state is [data] and
    [index].  A store panics at an [index] from [len(data)] on, which is
    reached before [index] could leave the range of [int]. *)
Definition imageToBytes_pixel (img : Image) (st : list byte * Z) (x y : Z)
  : option (list byte * Z) :=
  let '(data, index) := st in
  let '(r, g, b, a) := ColorAt img x y in
  data ← store_byte data index (byte_of (Z.shiftr r 8));
  data ← store_byte data (index + 1) (byte_of (Z.shiftr g 8));
  data ← store_byte data (index + 2) (byte_of (Z.shiftr b 8));
  data ← store_byte data (index + 3) (byte_of (Z.shiftr a 8));
  Some (data, index + 4).

(** [func imageToBytes(img image.Image) []byte]; the length
    [width*height*4] is a product of [int]s, and the loops run from the
    [Min] corner to the [Max] corner whatever that length is. *)
Definition imageToBytes (maxAlloc : Z) (img : Image) : option (list byte) :=
  let bounds := Bounds img in
  let width := rect_Dx bounds in
  let height := rect_Dy bounds in
  data ← make_bytes maxAlloc (wrap_int (wrap_int (width * height) * 4));
  st ← for_each_y (imageToBytes_pixel img)
         (seqZ (MinX bounds) (MaxX bounds - MinX bounds))
         (seqZ (MinY bounds) (MaxY bounds - MinY bounds))
         (data, 0);
  Some st.1.

(** The body of the loops of [bytesToImage]; the state is [img.Pix] and
    [index]. *)
Definition bytesToImage_pixel (rect : Rectangle) (data : list byte)
    (st : list byte * Z) (x y : Z) : option (list byte * Z) :=
  let '(pix, index) := st in
  r ← load_byte data index;
  g ← load_byte data (index + 1);
  b ← load_byte data (index + 2);
  a ← load_byte data (index + 3);
  Some (RGBA_Set rect pix x y (r, g, b, a), index + 4).

(** The [Pix] that [bytesToImage] leaves in the image it returns. *)
Definition bytesToImage_Pix (maxAlloc : Z) (data : list byte) (width height : Z)
  : option (list byte) :=
  let rect := Rect 0 0 width height in
  pix ← NewRGBA_Pix maxAlloc rect;
  st ← for_each_y (bytesToImage_pixel rect data)
         (seqZ 0 width) (seqZ 0 height) (pix, 0);
  Some st.1.

(** [func bytesToImage(data []byte, width, height int) image.Image] *)
Definition bytesToImage (maxAlloc : Z) (data : list byte) (width height : Z)
  : option Image :=
  pix ← bytesToImage_Pix maxAlloc data width height;
  Some (RGBA_Image (Rect 0 0 width height) pix).

(** [for i := 0; i < len(data); i++ { ... }] of [scrambleImage], from
    index [i] on, [pending] being [data[i:]]: the first failing
    [modifyBytes] ends the function with its error. *)
Fixpoint scramble_from (i : Z) (pending : list byte) (indices : list Z)
    (tracker : offsetMemoryAddressing) (scrambledData : list byte)
  : option (error + offsetMemoryAddressing * list byte) :=
  match pending with
  | [] => Some (inr (tracker, scrambledData))
  | b :: rest =>
      targetIdx ← at_index indices i;
      match modifyBytes tracker scrambledData targetIdx b with
      | (_, _, Some err) => Some (inl err)
      | (tracker', scrambledData', None) =>
          scramble_from (i + 1) rest indices tracker' scrambledData'
      end
  end.

(** [func scrambleImage(img image.Image) (image.Image,
    *offsetMemoryAddressing, error)], with the generator and its state made
    explicit.  [indices] is a [make([]int64, len(data))], eight bytes an
    element; [scrambledData] a [make([]byte, len(data))] that [copy] fills
    from [data]. *)
Definition scrambleImage {rng : Type} (maxAlloc : Z) (Intn : Z → rng → Z * rng)
    (img : Image) (s : rng)
  : option (error + Image * offsetMemoryAddressing) :=
  let bounds := Bounds img in
  let width := rect_Dx bounds in
  let height := rect_Dy bounds in
  data ← imageToBytes maxAlloc img;
  if make_panics maxAlloc 8 (Z.of_nat (length data)) then None
  else
    drawn ← shuffledIndices Intn (Z.of_nat (length data)) s;
    let indices := drawn.1 in
    if make_panics maxAlloc 1 (Z.of_nat (length data)) then None
    else
      let scrambledData := data in
      res ← scramble_from 0 data indices newTracker scrambledData;
      match res with
      | inl err => Some (inl err)
      | inr (tracker, scrambledData) =>
          scrambledImg ← bytesToImage maxAlloc scrambledData width height;
          Some (inr (scrambledImg, tracker))
      end.

(** [func recoverImage(scrambledImg image.Image, tracker
    *offsetMemoryAddressing) (image.Image, error)]; the tracker is returned
    as the call leaves it. *)
Definition recoverImage (maxAlloc : Z) (order : list (Z * byte))
    (scrambledImg : Image) (tracker : offsetMemoryAddressing)
  : option (offsetMemoryAddressing * (error + Image)) :=
  let bounds := Bounds scrambledImg in
  let width := rect_Dx bounds in
  let height := rect_Dy bounds in
  scrambledData ← imageToBytes maxAlloc scrambledImg;
  match removeMemoryAddress_in order tracker scrambledData with
  | (tracker', _, Some err) => Some (tracker', inl err)
  | (tracker', recovered, None) =>
      recoveredImg ← bytesToImage maxAlloc recovered width height;
      Some (tracker', inr recoveredImg)
  end.

(** The codecs [loadImage] and [saveImage] choose between. *)
Inductive codec : Type := JPEG | PNG.

(** The choice made by [loadImage] and [saveImage] alike: the last four
    bytes of a name longer than four bytes, compared with the cases of the
    [switch]; [None] is "unsupported image format". *)
Definition codec_of (filename : string) : option codec :=
  if (4 <? String.length filename)%nat then
    let ext := String.substring (String.length filename - 4) 4 filename in
    if String.eqb ext ".jpg" || String.eqb ext ".jpeg" then Some JPEG
    else if String.eqb ext ".png" then Some PNG
    else None
  else None.

(** The pixels of a loop over [xs] and [ys], in the order the loop visits
    them. *)
Definition pixel_coords (xs ys : list Z) : list (Z * Z) :=
  ys ≫= λ y, (λ x, (x, y)) <$> xs.

Fixpoint for_each_pixel {St : Type} (body : St → Z → Z → option St)
    (coords : list (Z * Z)) (st : St) : option St :=
  match coords with
  | [] => Some st
  | (x, y) :: rest => st' ← body st x y; for_each_pixel body rest st'
  end.

(** A rectangle whose [Min] is not beyond its [Max]. *)
Definition rect_well_formed (r : Rectangle) : Prop :=
  MinX r ≤ MaxX r ∧ MinY r ≤ MaxY r.

(** Bounds that [scrambleImage] has room for: spans that [image.NewRGBA]
    accepts, and a number of bytes whose [int64] indices, eight bytes each,
    [make] allocates. *)
Definition rect_fits (maxAlloc : Z) (r : Rectangle) : Prop :=
  MaxX r - MinX r < 2 ^ 62 ∧ MaxY r - MinY r < 2 ^ 63
  ∧ 8 * (4 * (MaxX r - MinX r) * (MaxY r - MinY r)) < 2 ^ 64
  ∧ 8 * (4 * (MaxX r - MinX r) * (MaxY r - MinY r)) ≤ maxAlloc.

(** The byte that [imageToBytes] stores for channel [k] of a colour. *)
Definition channel_byte (c : Z * Z * Z * Z) (k : Z) : byte :=
  let '(r, g, b, a) := c in
  byte_of (Z.shiftr (if k =? 0 then r else if k =? 1 then g
                     else if k =? 2 then b else a) 8).

(** A checkerboard of two colours, as an [image.Image]. *)
Definition demo_checker : Image :=
  mkImage (mkRectangle 0 0 2 2)
    (λ x y, if Z.even (x + y) then (65535, 0, 0, 65535) else (0, 0, 65535, 65535)).

(** A sample generator for the examples: a linear congruential step, the
    draw reduced into [0, n). *)
Definition lcg_Intn (n : Z) (s : Z) : Z * Z :=
  (s mod n, (s * 6364136223846793005 + 1442695040888963407) mod 2 ^ 64).

(** The example of the tracker's own [main]. *)
Definition demo_data : list byte := [x10; x20; x30; x40; x50].

(** A two-by-two image with distinct bytes. *)
Definition demo_image : RGBAImage :=
  mkRGBA [x01; x02; x03; x04; x11; x12; x13; x14;
          x21; x22; x23; x24; x31; x32; x33; x34] 2 2.

(** ** Examples *)

Example demo_modify :
  modifyBytes_all newTracker demo_data [(1, x99); (3, x77)]
  = (mkTracker (<[3 := x40]> (<[1 := x20]> ∅)), [x10; x99; x30; x77; x50], [None; None]).
Proof. reflexivity. Qed.

Example demo_restore :
  removeMemoryAddress_in [(3, x40); (1, x20)]
    (mkTracker (<[3 := x40]> (<[1 := x20]> ∅))) [x10; x99; x30; x77; x50]
  = (mkTracker ∅, demo_data, None).
Proof. reflexivity. Qed.

Example demo_shuffle :
  Pix (apply_shuffle demo_image [2; 0; 3; 1]).2
  = [x11; x12; x13; x14; x31; x32; x33; x34;
     x01; x02; x03; x04; x21; x22; x23; x24].
Proof. vm_compute. reflexivity. Qed.

Example demo_reverse : reverseShuffle 4 [2; 0; 3; 1] = Some [1; 3; 0; 2].
Proof. reflexivity. Qed.

Example demo_roundtrip :
  Pix (apply_shuffle (apply_shuffle demo_image [2; 0; 3; 1]).2 [1; 3; 0; 2]).2
  = Pix demo_image.
Proof. vm_compute. reflexivity. Qed.

Example demo_generate :
  fst <$> shuffledIndices lcg_Intn 5 42 = Some [0; 3; 4; 1; 2].
Proof. vm_compute. reflexivity. Qed.

(** ** Bounds checks and single writes *)

Lemma out_of_bounds_false offset mem :
  out_of_bounds offset mem = false ↔ 0 ≤ offset < Z.of_nat (length mem).
Proof. unfold out_of_bounds. rewrite orb_false_iff. lia. Qed.

Lemma out_of_bounds_true offset mem :
  out_of_bounds offset mem = true ↔ offset < 0 ∨ Z.of_nat (length mem) ≤ offset.
Proof. unfold out_of_bounds. rewrite orb_true_iff. lia. Qed.

Lemma modifyBytes_length o mem offset v :
  length (modifyBytes o mem offset v).1.2 = length mem.
Proof.
  unfold modifyBytes. destruct (out_of_bounds offset mem); simpl; [done|].
  apply length_insert.
Qed.


Lemma modifyBytes_record_new o mem offset v k :
  offsets o !! k = None →
  is_Some (offsets (modifyBytes o mem offset v).1.1 !! k) →
  k = offset ∧ 0 ≤ k < Z.of_nat (length mem) ∧
  offsets (modifyBytes o mem offset v).1.1 !! k = Some (mem !!! Z.to_nat k).
Proof.
  intros Hk. unfold modifyBytes.
  destruct (out_of_bounds offset mem) eqn:Hb; simpl.
  { rewrite Hk. by intros [? ?]. }
  apply out_of_bounds_false in Hb.
  destruct (offsets o !! offset) eqn:Ho; simpl.
  { rewrite Hk. by intros [? ?]. }
  destruct (decide (offset = k)) as [->|Hne].
  - rewrite lookup_insert_eq. auto.
  - rewrite lookup_insert_ne by done. rewrite Hk. by intros [? ?].
Qed.

Lemma modifyBytes_other o mem offset v i :
  Z.of_nat i ≠ offset →
  (modifyBytes o mem offset v).1.2 !! i = mem !! i.
Proof.
  intros Hne. unfold modifyBytes.
  destruct (out_of_bounds offset mem) eqn:Hb; simpl; [done|].
  apply out_of_bounds_false in Hb.
  apply list_lookup_insert_ne. lia.
Qed.

(** ** The restore loop *)

Lemma restore_entries_length entries mem :
  length (restore_entries entries mem).1 = length mem.
Proof.
  revert mem. induction entries as [|[k b] rest IH]; intros mem; simpl; [done|].
  destruct (out_of_bounds k mem); simpl; [done|].
  rewrite IH. apply length_insert.
Qed.

Lemma restore_entries_succeeds entries mem :
  Forall (entry_in_bounds (length mem)) entries →
  (restore_entries entries mem).2 = None.
Proof.
  revert mem. induction entries as [|[k b] rest IH]; intros mem Hall; simpl; [done|].
  apply Forall_cons in Hall as [Hk Hrest]. unfold entry_in_bounds in Hk. simpl in Hk.
  apply out_of_bounds_false in Hk as Hb. rewrite Hb.
  apply IH. by rewrite length_insert.
Qed.

Lemma restore_entries_untouched entries mem i :
  Z.of_nat i ∉ entries.*1 →
  (restore_entries entries mem).1 !! i = mem !! i.
Proof.
  revert mem. induction entries as [|[k b] rest IH]; intros mem Hnot; simpl; [done|].
  rewrite fmap_cons, not_elem_of_cons in Hnot. destruct Hnot as [Hne Hnot]. simpl in Hne.
  destruct (out_of_bounds k mem) eqn:Hb; simpl; [done|].
  apply out_of_bounds_false in Hb.
  rewrite IH by done. apply list_lookup_insert_ne. lia.
Qed.

Lemma restore_entries_recorded entries mem k b :
  NoDup entries.*1 →
  Forall (entry_in_bounds (length mem)) entries →
  (k, b) ∈ entries →
  (restore_entries entries mem).1 !! Z.to_nat k = Some b.
Proof.
  revert mem. induction entries as [|[k' b'] rest IH]; intros mem Hnd Hall Hin.
  { by apply elem_of_nil in Hin. }
  rewrite fmap_cons in Hnd. apply NoDup_cons in Hnd as [Hfresh Hnd].
  apply Forall_cons in Hall as [Hk Hrest]. unfold entry_in_bounds in Hk. simpl in *.
  apply out_of_bounds_false in Hk as Hb. rewrite Hb.
  apply elem_of_cons in Hin as [Heq|Hin].
  - inversion Heq; subst k' b'.
    rewrite restore_entries_untouched by (by rewrite Z2Nat.id by lia).
    apply list_lookup_insert_eq. lia.
  - apply IH; [done| by rewrite length_insert |done].
Qed.

(** Where the loop succeeds, the outcome of [removeMemoryAddress] is the
    emptied tracker with the buffer the loop leaves. *)
Lemma removeMemoryAddress_in_success order o mem :
  mem ≠ [] →
  Forall (entry_in_bounds (length mem)) order →
  removeMemoryAddress_in order o mem
  = (newTracker, (restore_entries order mem).1, None).
Proof.
  intros Hne Hall. unfold removeMemoryAddress_in.
  destruct mem as [|x mem]; [done|]. simpl length. simpl Nat.eqb. cbv iota.
  pose proof (restore_entries_succeeds order (x :: mem) Hall) as Hok.
  destruct (restore_entries order (x :: mem)) as [mem' e]. simpl in Hok. by subst e.
Qed.

Lemma range_order_NoDup o order : range_order o order → NoDup order.*1.
Proof.
  unfold range_order. intros ->. apply NoDup_fst_map_to_list.
Qed.

Lemma range_order_elem o order k b :
  range_order o order → (k, b) ∈ order ↔ offsets o !! k = Some b.
Proof.
  unfold range_order. intros ->. apply elem_of_map_to_list.
Qed.

Lemma range_order_key o order k :
  range_order o order → k ∈ order.*1 ↔ is_Some (offsets o !! k).
Proof.
  intros Hord. rewrite list_elem_of_fmap. split.
  - intros [[k' b] [-> Hin]]. exists b. by apply (range_order_elem o order).
  - intros [b Hb]. exists (k, b). split; [done|]. by apply (range_order_elem o order).
Qed.

Lemma range_order_in_bounds n o order :
  record_in_bounds n o → range_order o order →
  Forall (entry_in_bounds n) order.
Proof.
  intros Hrec Hord. apply Forall_forall. intros [k b] Hin.
  apply Hrec. exists b. by apply (range_order_elem o order).
Qed.

(** ** Sequences of writes *)

Lemma modifyBytes_all_app o mem ws1 ws2 :
  modifyBytes_all o mem (ws1 ++ ws2)
  = let '(o1, mem1, es1) := modifyBytes_all o mem ws1 in
    let '(o2, mem2, es2) := modifyBytes_all o1 mem1 ws2 in
    (o2, mem2, es1 ++ es2).
Proof.
  revert o mem. induction ws1 as [|[k v] ws1 IH]; intros o mem; simpl.
  { by destruct (modifyBytes_all o mem ws2) as [[??]?]. }
  destruct (modifyBytes o mem k v) as [[o1 mem1] e].
  rewrite IH.
  destruct (modifyBytes_all o1 mem1 ws1) as [[o2 mem2] es].
  by destruct (modifyBytes_all o2 mem2 ws2) as [[??]?].
Qed.

Lemma modifyBytes_all_length o mem ws :
  length (modifyBytes_all o mem ws).1.2 = length mem.
Proof.
  revert o mem. induction ws as [|[k v] ws IH]; intros o mem; simpl; [done|].
  pose proof (modifyBytes_length o mem k v) as Hlen.
  destruct (modifyBytes o mem k v) as [[o1 mem1] e]. simpl in Hlen.
  specialize (IH o1 mem1).
  destruct (modifyBytes_all o1 mem1 ws) as [[o2 mem2] es]. simpl in *. congruence.
Qed.


Lemma modifyBytes_all_other o mem ws i :
  Z.of_nat i ∉ ws.*1 →
  (modifyBytes_all o mem ws).1.2 !! i = mem !! i.
Proof.
  revert o mem. induction ws as [|[k v] ws IH]; intros o mem Hnot; simpl; [done|].
  rewrite fmap_cons, not_elem_of_cons in Hnot. destruct Hnot as [Hne Hnot]. simpl in Hne.
  pose proof (modifyBytes_other o mem k v i Hne) as Hsame.
  destruct (modifyBytes o mem k v) as [[o1 mem1] e]. simpl in Hsame.
  specialize (IH o1 mem1 Hnot).
  destruct (modifyBytes_all o1 mem1 ws) as [[o2 mem2] es]. simpl in *. congruence.
Qed.


Lemma record_in_bounds_modifyBytes n o mem offset v :
  (length mem ≤ n)%nat → record_in_bounds n o →
  record_in_bounds n (modifyBytes o mem offset v).1.1.
Proof.
  intros Hlen Hrec k Hsome.
  destruct (offsets o !! k) as [b|] eqn:Hk.
  - apply Hrec. by rewrite Hk.
  - apply modifyBytes_record_new in Hsome as (_ & Hb & _); [|done]. lia.
Qed.


(** ** The tracking invariant *)

Lemma tracks_new mem0 : tracks mem0 newTracker mem0.
Proof.
  split; [done|]. split; [|done].
  intros k b. simpl. by rewrite lookup_empty.
Qed.

Lemma tracks_modifyBytes mem0 o mem offset v :
  tracks mem0 o mem →
  tracks mem0 (modifyBytes o mem offset v).1.1 (modifyBytes o mem offset v).1.2.
Proof.
  intros (Hlen & Hrec & Hrest). unfold modifyBytes.
  destruct (out_of_bounds offset mem) eqn:Hb; simpl; [done|].
  apply out_of_bounds_false in Hb.
  destruct (offsets o !! offset) as [b0|] eqn:Ho; simpl.
  - split; [by rewrite length_insert|]. split; [done|].
    intros i Hi. rewrite list_lookup_insert_ne; [by apply Hrest|].
    intros Heq. rewrite <- Heq, Z2Nat.id in Hi by lia. congruence.
  - split; [by rewrite length_insert|]. split.
    + intros k b. simpl. destruct (decide (offset = k)) as [->|Hne].
      * rewrite lookup_insert_eq. intros [= <-]. split; [lia|].
        rewrite <- Hrest by (by rewrite Z2Nat.id by lia).
        apply list_lookup_lookup_total_lt. lia.
      * rewrite lookup_insert_ne by done. apply Hrec.
    + intros i Hi. simpl in Hi. destruct (decide (offset = Z.of_nat i)) as [->|Hne].
      * by rewrite lookup_insert_eq in Hi.
      * rewrite lookup_insert_ne in Hi by done.
        rewrite list_lookup_insert_ne by lia. by apply Hrest.
Qed.

Lemma tracks_modifyBytes_all mem0 o mem ws :
  tracks mem0 o mem →
  tracks mem0 (modifyBytes_all o mem ws).1.1 (modifyBytes_all o mem ws).1.2.
Proof.
  revert o mem. induction ws as [|[k v] ws IH]; intros o mem Htr; simpl; [done|].
  pose proof (tracks_modifyBytes mem0 o mem k v Htr) as H1.
  destruct (modifyBytes o mem k v) as [[o1 mem1] e]. simpl in H1.
  specialize (IH o1 mem1 H1).
  by destruct (modifyBytes_all o1 mem1 ws) as [[o2 mem2] es].
Qed.

Lemma tracks_record_in_bounds mem0 o mem :
  tracks mem0 o mem → record_in_bounds (length mem) o.
Proof.
  intros (Hlen & Hrec & _) k [b Hb]. rewrite Hlen. by apply (Hrec k b).
Qed.

(** Replaying a record that tracks [mem0] gives [mem0] back, whatever the
    order of the replay. *)
Lemma tracks_restore mem0 o mem order :
  tracks mem0 o mem → range_order o order →
  (restore_entries order mem).1 = mem0.
Proof.
  intros Htr Hord.
  pose proof (tracks_record_in_bounds _ _ _ Htr) as Hbounds.
  pose proof (range_order_in_bounds _ _ _ Hbounds Hord) as Hall.
  destruct Htr as (Hlen & Hrec & Hrest).
  apply list_eq. intros i.
  destruct (offsets o !! Z.of_nat i) as [b|] eqn:Hi.
  - destruct (Hrec _ _ Hi) as [_ Hm0]. rewrite Nat2Z.id in Hm0. rewrite Hm0.
    rewrite <- (Nat2Z.id i) at 1.
    apply restore_entries_recorded; [by eapply range_order_NoDup|done|].
    by apply (range_order_elem o order).
  - rewrite restore_entries_untouched; [by apply Hrest|].
    rewrite (range_order_key o order) by done. rewrite Hi. by intros [? ?].
Qed.

Lemma restore_entries_permutation l1 l2 mem :
  l1 ≡ₚ l2 → NoDup l1.*1 →
  Forall (entry_in_bounds (length mem)) l1 →
  restore_entries l1 mem = restore_entries l2 mem.
Proof.
  intros Hperm Hnd Hall.
  assert (NoDup l2.*1) as Hnd2 by (by rewrite <- Hperm).
  assert (Forall (entry_in_bounds (length mem)) l2) as Hall2 by (by rewrite <- Hperm).
  pose proof (restore_entries_succeeds l1 mem Hall) as E1.
  pose proof (restore_entries_succeeds l2 mem Hall2) as E2.
  assert ((restore_entries l1 mem).1 = (restore_entries l2 mem).1) as Hbuf.
  { apply list_eq. intros i.
    destruct (decide (Z.of_nat i ∈ l1.*1)) as [Hin|Hnot].
    - apply list_elem_of_fmap in Hin as [[k b] [Hk Hin]]. simpl in Hk. subst k.
      rewrite <- (Nat2Z.id i).
      rewrite (restore_entries_recorded l1 mem _ b) by done.
      rewrite (restore_entries_recorded l2 mem _ b); [done..|by rewrite <- Hperm].
    - rewrite !restore_entries_untouched; [done| by rewrite <- Hperm |done]. }
  destruct (restore_entries l1 mem), (restore_entries l2 mem). simpl in *. congruence.
Qed.

(** [removeMemoryAddress] always has an outcome, and when the record is
    within the bounds of the buffer the outcome does not depend on the order
    in which [range] visits the map. *)
Lemma removeMemoryAddress_total o mem : ∃ res, removeMemoryAddress o mem res.
Proof.
  exists (removeMemoryAddress_in (map_to_list (offsets o)) o mem).
  constructor. unfold range_order. reflexivity.
Qed.

Lemma removeMemoryAddress_deterministic o mem res1 res2 :
  record_in_bounds (length mem) o →
  removeMemoryAddress o mem res1 → removeMemoryAddress o mem res2 →
  res1 = res2.
Proof.
  intros Hrec [order1 H1] [order2 H2]. unfold removeMemoryAddress_in.
  rewrite (restore_entries_permutation order1 order2 mem); [done|..].
  - unfold range_order in *. by rewrite H1, H2.
  - by eapply range_order_NoDup.
  - by eapply range_order_in_bounds.
Qed.

Lemma built_record_in_bounds L o :
  built_by_modifyBytes L o → record_in_bounds L o.
Proof.
  induction 1 as [|o m offset v _ IH Hlen].
  - intros k [b Hb]. simpl in Hb. by rewrite lookup_empty in Hb.
  - by apply record_in_bounds_modifyBytes.
Qed.

Lemma restore_entries_succeeds_inv entries mem :
  (restore_entries entries mem).2 = None →
  Forall (entry_in_bounds (length mem)) entries.
Proof.
  revert mem. induction entries as [|[k b] rest IH]; intros mem; simpl; [done|].
  destruct (out_of_bounds k mem) eqn:Hb; simpl; [done|].
  intros He. apply out_of_bounds_false in Hb. constructor; [done|].
  specialize (IH _ He). by rewrite length_insert in IH.
Qed.

Lemma restore_entries_each entries mem i :
  (restore_entries entries mem).1 !! i = mem !! i
  ∨ ∃ b, (Z.of_nat i, b) ∈ entries ∧ (restore_entries entries mem).1 !! i = Some b.
Proof.
  revert mem. induction entries as [|[k b] rest IH]; intros mem; simpl; [by left|].
  destruct (out_of_bounds k mem) eqn:Hb; simpl; [by left|].
  apply out_of_bounds_false in Hb.
  destruct (IH (<[Z.to_nat k := b]> mem)) as [Hsame|(b' & Hin & Hb')].
  - destruct (decide (Z.to_nat k = i)) as [<-|Hne].
    + right. exists b. rewrite Z2Nat.id by lia. split; [apply list_elem_of_here|].
      rewrite Hsame. apply list_lookup_insert_eq. lia.
    + left. rewrite Hsame. by apply list_lookup_insert_ne.
  - right. exists b'. split; [by apply list_elem_of_further|done].
Qed.

(** ** Properties of the tracker *)

(** C1, as it holds: for every non-empty buffer and every sequence of
    successful [modifyBytes] calls made through a tracker that starts with
    an empty record, [removeMemoryAddress] on that buffer succeeds in every
    iteration order, returns the buffer to the state it had before the first
    tracked write, and leaves the record empty. *)
Theorem restore_after_writes mem0 writes o1 mem1 errs order :
  mem0 ≠ [] →
  modifyBytes_all newTracker mem0 writes = (o1, mem1, errs) →
  Forall (λ e, e = None) errs →
  range_order o1 order →
  removeMemoryAddress_in order o1 mem1 = (newTracker, mem0, None).
Proof.
  intros Hne Hrun _ Hord.
  pose proof (tracks_modifyBytes_all mem0 newTracker mem0 writes (tracks_new mem0)) as Htr.
  rewrite Hrun in Htr. simpl in Htr.
  rewrite removeMemoryAddress_in_success.
  - by rewrite (tracks_restore mem0 o1 mem1 order).
  - destruct Htr as (Hlen & _). intros ->. by destruct mem0.
  - eapply range_order_in_bounds; [|done]. by eapply tracks_record_in_bounds.
Qed.

Lemma restore_after_writes_witness :
  removeMemoryAddress_in
    (map_to_list (<[3 := x40]> (<[1 := x20]> (∅ : gmap Z byte))))
    (mkTracker (<[3 := x40]> (<[1 := x20]> ∅))) [x10; x99; x30; x77; x50]
  = (newTracker, demo_data, None).
Proof.
  apply (restore_after_writes demo_data [(1, x99); (3, x77)] _ _ [None; None]).
  - discriminate.
  - reflexivity.
  - repeat constructor.
  - unfold range_order. reflexivity.
Defined.

(** C1 as stated fails on the empty buffer: no write can succeed there, the
    empty sequence of writes is vacuously successful, and
    [removeMemoryAddress] then reports "mem block is empty". *)
Lemma restore_after_writes_empty_buffer :
  ¬ (∀ mem0 writes o1 mem1 errs order,
       modifyBytes_all newTracker mem0 writes = (o1, mem1, errs) →
       Forall (λ e, e = None) errs →
       range_order o1 order →
       removeMemoryAddress_in order o1 mem1 = (newTracker, mem0, None)).
Proof.
  intros H.
  specialize (H [] [] newTracker [] [] [] eq_refl (Forall_nil_2 _)).
  assert (range_order newTracker []) as Hord by (unfold range_order; simpl; by rewrite map_to_list_empty).
  specialize (H Hord). discriminate H.
Qed.




(** C6: [modifyBytes] with [offset < 0] or [offset >= len(mem)] returns the
    out-of-bounds error and leaves both the buffer and the record as they
    were. *)
Theorem modifyBytes_out_of_bounds o mem offset newValue :
  offset < 0 ∨ Z.of_nat (length mem) ≤ offset →
  modifyBytes o mem offset newValue = (o, mem, Some (OffsetOutOfBounds offset)).
Proof.
  intros Hout. unfold modifyBytes.
  by apply out_of_bounds_true in Hout as ->.
Qed.

Lemma modifyBytes_out_of_bounds_witness :
  modifyBytes newTracker demo_data 5 xff
  = (newTracker, demo_data, Some (OffsetOutOfBounds 5)).
Proof. apply modifyBytes_out_of_bounds. right. simpl. lia. Defined.

(** C7: for recorded pairs with distinct offsets, all within the bounds of
    the buffer, [removeMemoryAddress] has the same outcome, final buffer
    included, whatever the order in which the pairs are replayed. *)
Theorem restore_order_irrelevant o mem (order1 order2 : list (Z * byte)) :
  order1 ≡ₚ order2 →
  NoDup order1.*1 →
  Forall (entry_in_bounds (length mem)) order1 →
  removeMemoryAddress_in order1 o mem = removeMemoryAddress_in order2 o mem.
Proof.
  intros Hperm Hnd Hall. unfold removeMemoryAddress_in.
  by rewrite (restore_entries_permutation order1 order2 mem).
Qed.

Lemma restore_order_irrelevant_witness :
  removeMemoryAddress_in [(1, x20); (3, x40)] newTracker [x10; x99; x30; x77; x50]
  = removeMemoryAddress_in [(3, x40); (1, x20)] newTracker [x10; x99; x30; x77; x50].
Proof.
  apply restore_order_irrelevant.
  - apply perm_swap.
  - simpl. apply NoDup_cons. split; [|apply NoDup_singleton].
    rewrite list_elem_of_singleton. discriminate.
  - repeat constructor; simpl; lia.
Defined.

(** C8: on a zero-length buffer [removeMemoryAddress] returns the
    empty-buffer error, whatever the record holds, and leaves the record as
    it was. *)
Theorem restore_empty_buffer order o :
  removeMemoryAddress_in order o [] = (o, [], Some MemBlockEmpty).
Proof. reflexivity. Qed.

(** C9: a record filled only by [modifyBytes] against buffers of length at
    most [L] holds only offsets in [0, L), each checked against the buffer
    when it was inserted; so [removeMemoryAddress] on a non-empty buffer of
    length at least [L] never meets an out-of-bounds entry and succeeds, in
    every iteration order. *)
Theorem built_record_restores L o mem order :
  built_by_modifyBytes L o →
  mem ≠ [] →
  (L ≤ length mem)%nat →
  range_order o order →
  record_in_bounds L o ∧
  ∃ mem', removeMemoryAddress_in order o mem = (newTracker, mem', None).
Proof.
  intros Hbuilt Hne HL Hord.
  pose proof (built_record_in_bounds L o Hbuilt) as Hrec.
  split; [done|]. eexists. apply removeMemoryAddress_in_success; [done|].
  eapply range_order_in_bounds; [|done].
  intros k Hk. specialize (Hrec k Hk). lia.
Qed.

Lemma built_record_restores_witness :
  record_in_bounds 5
    (modifyBytes (modifyBytes newTracker demo_data 1 x99).1.1
       [x10; x99; x30; x40; x50] 3 x77).1.1 ∧
  ∃ mem',
    removeMemoryAddress_in
      (map_to_list (offsets (modifyBytes (modifyBytes newTracker demo_data 1 x99).1.1
                               [x10; x99; x30; x40; x50] 3 x77).1.1))
      (modifyBytes (modifyBytes newTracker demo_data 1 x99).1.1
         [x10; x99; x30; x40; x50] 3 x77).1.1
      [x00; x99; x00; x77; x00; x00]
    = (newTracker, mem', None).
Proof.
  apply built_record_restores.
  - apply built_modify; [apply built_modify; [apply built_new|]|]; simpl; lia.
  - discriminate.
  - simpl. lia.
  - unfold range_order. reflexivity.
Defined.

(** C10: when [removeMemoryAddress] returns an error, whichever of the two,
    the record is exactly what it was before the call; the buffer is
    whatever the loop had written up to the failing entry. *)
Theorem restore_error_keeps_record order o mem o' mem' e :
  removeMemoryAddress_in order o mem = (o', mem', Some e) →
  o' = o.
Proof.
  unfold removeMemoryAddress_in. intros Hrun.
  destruct (length mem =? 0)%nat.
  - by inversion Hrun.
  - destruct (restore_entries order mem) as [m [e'|]]; by inversion Hrun.
Qed.

(** A record made on a five-byte buffer is replayed on a three-byte one:
    offset 1 is restored, offset 4 stops the loop, and the record stays. *)
Lemma restore_error_keeps_record_witness :
  removeMemoryAddress_in [(1, x20); (4, x50)]
    (mkTracker (<[4 := x50]> (<[1 := x20]> ∅))) [xaa; xbb; xcc]
  = (mkTracker (<[4 := x50]> (<[1 := x20]> ∅)), [xaa; x20; xcc],
     Some (OffsetOutOfBounds 4))
  ∧ mkTracker (<[4 := x50]> (<[1 := x20]> ∅)) = mkTracker (<[4 := x50]> (<[1 := x20]> ∅)).
Proof.
  split; [reflexivity|].
  apply (restore_error_keeps_record [(1, x20); (4, x50)] _ [xaa; xbb; xcc]
           _ [xaa; x20; xcc] (OffsetOutOfBounds 4)).
  reflexivity.
Defined.

(** ** The shuffle *)

Lemma at_index_Some a i v :
  at_index a i = Some v ↔ (0 ≤ i < Z.of_nat (length a)) ∧ a !! Z.to_nat i = Some v.
Proof.
  unfold at_index. destruct (_ || _) eqn:Hb.
  - apply orb_true_iff in Hb. split; [done|]. lia.
  - apply orb_false_iff in Hb. split; [|tauto]. intros ?. split; [lia|done].
Qed.

Lemma swap_is_Some a i j :
  0 ≤ i < Z.of_nat (length a) → 0 ≤ j < Z.of_nat (length a) →
  is_Some (swap a i j).
Proof.
  intros Hi Hj. unfold swap.
  destruct (lookup_lt_is_Some_2 a (Z.to_nat i)) as [vi Hvi]; [lia|].
  destruct (lookup_lt_is_Some_2 a (Z.to_nat j)) as [vj Hvj]; [lia|].
  assert (at_index a i = Some vi) as -> by (by apply at_index_Some).
  assert (at_index a j = Some vj) as -> by (by apply at_index_Some).
  simpl. eauto.
Qed.

(** A swap exchanges two entries and so keeps the multiset of entries. *)
Lemma swap_Permutation a i j a' : swap a i j = Some a' → a' ≡ₚ a.
Proof.
  unfold swap. intros Hswap.
  destruct (at_index a j) as [vj|] eqn:Hj; [|done].
  destruct (at_index a i) as [vi|] eqn:Hi; [|done].
  simpl in Hswap. injection Hswap as <-.
  apply at_index_Some in Hi as [Hib Hi]. apply at_index_Some in Hj as [Hjb Hj].
  set (ni := Z.to_nat i) in *. set (nj := Z.to_nat j) in *.
  assert (ni < length a)%nat as Hni by lia.
  assert (nj < length a)%nat as Hnj by lia.
  apply Permutation_inj. split; [by rewrite !length_insert|].
  exists (λ n, if decide (n = nj) then ni else if decide (n = ni) then nj else n).
  split.
  - intros n m. repeat case_decide; congruence.
  - intros n. repeat case_decide; subst.
    + rewrite list_lookup_insert_eq by (by rewrite length_insert). done.
    + rewrite list_lookup_insert_ne by done.
      rewrite list_lookup_insert_eq by done. done.
    + by rewrite !list_lookup_insert_ne by done.
Qed.

Section shuffle_facts.
Context {rng : Type} (Intn : Z → rng → Z * rng).
(** [rand.Intn(n)] returns a value in [0, n) for positive [n]. *)
Hypothesis Intn_range : ∀ n s, 0 < n → 0 ≤ (Intn n s).1 < n.

Lemma shuffle_from_Permutation i indices s :
  (i = 0 ∨ i < length indices)%nat →
  ∃ p s', shuffle_from Intn i indices s = Some (p, s') ∧ p ≡ₚ indices.
Proof.
  revert indices s. induction i as [|i IH]; intros indices s Hi.
  { exists indices, s. done. }
  destruct Hi as [Hi|Hi]; [done|].
  cbn [shuffle_from].
  pose proof (Intn_range (Z.of_nat (S i) + 1) s ltac:(lia)) as Hj.
  destruct (Intn (Z.of_nat (S i) + 1) s) as [j s1]. simpl in Hj.
  destruct (swap_is_Some indices (Z.of_nat (S i)) j) as [a' Ha']; [lia|lia|].
  rewrite Ha'. simpl.
  pose proof (swap_Permutation _ _ _ _ Ha') as Hperm.
  destruct (IH a' s1) as (p & s' & Hrun & Hp).
  { right. rewrite (Permutation_length Hperm). lia. }
  exists p, s'. split; [done|]. by rewrite Hp.
Qed.
End shuffle_facts.

(** C3: for every [N ≥ 0] and every generator whose [Intn(n)] draws from
    [0, n), the Fisher-Yates loop over [0..N-1] runs to completion and its
    result is a permutation of [0, N): it has no duplicates and holds
    exactly the integers of that range ([N = 0] gives the empty slice). *)
Theorem shuffledIndices_permutation {rng : Type} (Intn : Z → rng → Z * rng) N s :
  (∀ n s, 0 < n → 0 ≤ (Intn n s).1 < n) →
  0 ≤ N →
  ∃ p s', shuffledIndices Intn N s = Some (p, s')
          ∧ p ≡ₚ seqZ 0 N
          ∧ NoDup p
          ∧ (∀ x, x ∈ p ↔ 0 ≤ x < N)
          ∧ (N = 0 → p = []).
Proof.
  intros Hrange HN. unfold shuffledIndices.
  assert ((N <? 0) = false) as -> by lia.
  destruct (shuffle_from_Permutation Intn Hrange (Z.to_nat (N - 1)) (seqZ 0 N) s)
    as (p & s' & Hrun & Hp).
  { rewrite length_seqZ. lia. }
  exists p, s'. split; [done|]. split; [done|]. split; [|split].
  - rewrite Hp. apply NoDup_seqZ.
  - intros x. rewrite Hp, elem_of_seqZ. lia.
  - intros ->. apply Permutation_nil_r. by rewrite Hp.
Qed.

Lemma shuffledIndices_permutation_witness :
  ∃ p s', shuffledIndices lcg_Intn 5 42 = Some (p, s')
          ∧ p ≡ₚ seqZ 0 5
          ∧ NoDup p
          ∧ (∀ x, x ∈ p ↔ 0 ≤ x < 5)
          ∧ (5 = 0 → p = []).
Proof.
  apply (shuffledIndices_permutation lcg_Intn 5 42).
  - intros n s Hn. simpl. apply Z.mod_pos_bound. lia.
  - lia.
Defined.

(** ** Moving pixels *)

(** [byte(r >> 8)] undoes the widening done by [RGBA()]. *)
Lemma byte_of_widen c :
  byte_of (Z.shiftr (Z.lor (uint32_of_byte c) (Z.shiftl (uint32_of_byte c) 8)) 8) = c.
Proof. destruct c; vm_compute; reflexivity. Qed.

Lemma pixel_stores_spec src fromIdx toIdx :
  well_formed src →
  0 ≤ fromIdx < Dx src * Dy src →
  0 ≤ toIdx < Dx src * Dy src →
  pixel_stores src (Dx src) fromIdx toIdx
  = [ (4 * toIdx, byte_at (Pix src) (4 * fromIdx));
      (4 * toIdx + 1, byte_at (Pix src) (4 * fromIdx + 1));
      (4 * toIdx + 2, byte_at (Pix src) (4 * fromIdx + 2));
      (4 * toIdx + 3, byte_at (Pix src) (4 * fromIdx + 3)) ].
Proof.
  intros (Hw & Hh & Hlen) Hf Ht. unfold pixel_stores, bytesPerPixel.
  set (w := Dx src) in *. set (h := Dy src) in *.
  assert (0 < w) as Hwpos by nia.
  rewrite !Z.rem_mod_nonneg, !Z.quot_div_nonneg by lia.
  pose proof (Z.mod_pos_bound fromIdx w Hwpos) as Hx.
  pose proof (Z.div_mod fromIdx w ltac:(lia)) as Hdm.
  pose proof (Z.div_mod toIdx w ltac:(lia)) as Hdm'.
  assert (0 ≤ fromIdx / w < h) as Hy.
  { split; [apply Z.div_pos; lia|]. apply Z.div_lt_upper_bound; lia. }
  unfold At. fold w h.
  assert ((0 <=? fromIdx `mod` w) && (fromIdx `mod` w <? w)
          && (0 <=? fromIdx / w) && (fromIdx / w <? h) = true) as ->.
  { rewrite !andb_true_iff. lia. }
  cbn [RGBA]. rewrite !byte_of_widen. unfold byte_at.
  replace (fromIdx / w * (4 * w) + fromIdx `mod` w * 4) with (4 * fromIdx) by lia.
  replace ((toIdx / w * w + toIdx `mod` w) * 4) with (4 * toIdx) by lia.
  reflexivity.
Qed.

Lemma move_pixel_stores src w o pix fromIdx toIdx :
  move_pixel src w (o, pix) fromIdx toIdx
  = (modifyBytes_all o pix (pixel_stores src w fromIdx toIdx)).1.
Proof.
  unfold move_pixel, pixel_stores.
  destruct (RGBA _) as [[[r g] b] a]. cbn [modifyBytes_all].
  repeat (destruct (modifyBytes _ _ _ _) as [[? ?] ?]). reflexivity.
Qed.

Lemma move_pixels_from_stores src w idx mapping o pix :
  move_pixels_from src w idx mapping (o, pix)
  = (modifyBytes_all o pix (shuffle_stores_from src w idx mapping)).1.
Proof.
  revert idx o pix. induction mapping as [|v rest IH]; intros idx o pix; [done|].
  cbn [move_pixels_from shuffle_stores_from].
  rewrite modifyBytes_all_app, move_pixel_stores.
  destruct (modifyBytes_all o pix (pixel_stores src w idx v)) as [[o1 pix1] es1].
  cbn [fst]. rewrite IH.
  by destruct (modifyBytes_all o1 pix1 _) as [[o2 pix2] es2].
Qed.

(** Writes that are all in bounds succeed, and they leave the buffer that
    replaying them as a record would leave. *)
Lemma modifyBytes_all_in_bounds o mem ws :
  Forall (entry_in_bounds (length mem)) ws →
  (modifyBytes_all o mem ws).1.2 = (restore_entries ws mem).1
  ∧ Forall (λ e, e = None) (modifyBytes_all o mem ws).2.
Proof.
  revert o mem. induction ws as [|[k v] ws IH]; intros o mem Hall; simpl; [done|].
  apply Forall_cons in Hall as [Hk Hrest]. unfold entry_in_bounds in Hk. simpl in Hk.
  apply out_of_bounds_false in Hk as Hb. unfold modifyBytes. rewrite Hb.
  set (o1 := match offsets o !! k with Some _ => o | None => _ end).
  specialize (IH o1 (<[Z.to_nat k := v]> mem)).
  rewrite length_insert in IH. specialize (IH Hrest).
  destruct (modifyBytes_all o1 _ ws) as [[o2 mem2] es]. simpl in *.
  destruct IH as [Heq Hes]. split; [done|]. by constructor.
Qed.

Lemma seqZ_pixel_offsets (n : nat) :
  seqZ 0 (Z.of_nat n) ≫= pixel_offsets = seqZ 0 (4 * Z.of_nat n).
Proof.
  induction n as [|n IH]; [done|].
  rewrite Nat2Z.inj_succ, <- Z.add_1_r.
  rewrite seqZ_app by lia. rewrite bind_app, IH.
  replace (4 * (Z.of_nat n + 1)) with (4 * Z.of_nat n + 4) by lia.
  rewrite (seqZ_app 0 (4 * Z.of_nat n) 4) by lia. f_equal.
  rewrite !Z.add_0_l. change (seqZ (Z.of_nat n) 1) with [Z.of_nat n].
  cbn [mbind list_bind app]. unfold pixel_offsets.
  rewrite (seqZ_cons _ 4), (seqZ_cons _ (Z.pred 4)), (seqZ_cons _ (Z.pred (Z.pred 4))),
    (seqZ_cons _ (Z.pred (Z.pred (Z.pred 4)))) by lia.
  rewrite seqZ_nil by lia. rewrite app_nil_r. repeat f_equal; lia.
Qed.

Section stores.
Context (src : RGBAImage) (Hwf : well_formed src).
Let N := Dx src * Dy src.

Lemma shuffle_stores_offsets idx mapping :
  0 ≤ idx → idx + Z.of_nat (length mapping) ≤ N →
  Forall (λ v, 0 ≤ v < N) mapping →
  (shuffle_stores_from src (Dx src) idx mapping).*1 = mapping ≫= pixel_offsets.
Proof.
  revert idx. induction mapping as [|v rest IH]; intros idx Hidx Hlen Hall; [done|].
  apply Forall_cons in Hall as [Hv Hall]. simpl in Hlen.
  cbn [shuffle_stores_from]. rewrite fmap_app, IH by (done || lia).
  rewrite pixel_stores_spec by (done || (unfold N in *; lia)).
  reflexivity.
Qed.

Lemma shuffle_stores_elem idx mapping n v k :
  0 ≤ idx → idx + Z.of_nat (length mapping) ≤ N →
  Forall (λ v, 0 ≤ v < N) mapping →
  mapping !! n = Some v → 0 ≤ k < 4 →
  (4 * v + k, byte_at (Pix src) (4 * (idx + Z.of_nat n) + k))
  ∈ shuffle_stores_from src (Dx src) idx mapping.
Proof.
  revert idx n. induction mapping as [|v' rest IH]; intros idx n Hidx Hlen Hall Hn Hk; [done|].
  apply Forall_cons in Hall as [Hv Hall]. simpl in Hlen.
  cbn [shuffle_stores_from]. apply elem_of_app.
  destruct n as [|n]; simpl in Hn.
  - injection Hn as ->. left.
    rewrite pixel_stores_spec by (done || (unfold N in *; lia)).
    rewrite Z.add_0_r.
    assert (k = 0 ∨ k = 1 ∨ k = 2 ∨ k = 3) as Hcase by lia.
    destruct Hcase as [-> | [-> | [-> | ->]]]; rewrite ?Z.add_0_r;
      repeat ((by left) || right).
  - right. replace (idx + Z.of_nat (S n)) with ((idx + 1) + Z.of_nat n) by lia.
    apply IH; (done || lia).
Qed.
End stores.

Lemma is_permutation_elem N p x : is_permutation N p → x ∈ p ↔ 0 ≤ x < N.
Proof. unfold is_permutation. intros ->. rewrite elem_of_seqZ. lia. Qed.

Lemma is_permutation_length N p : is_permutation N p → length p = Z.to_nat N.
Proof. unfold is_permutation. intros ->. apply length_seqZ. Qed.

Lemma is_permutation_NoDup N p : is_permutation N p → NoDup p.
Proof. unfold is_permutation. intros ->. apply NoDup_seqZ. Qed.

Lemma is_permutation_Forall N p : is_permutation N p → Forall (λ v, 0 ≤ v < N) p.
Proof.
  intros Hp. apply Forall_forall. intros x. by rewrite (is_permutation_elem N p).
Qed.

(** Every slot below [N] is the target of some index. *)
Lemma is_permutation_onto N p v :
  is_permutation N p → 0 ≤ v < N → ∃ n, p !! n = Some v.
Proof.
  intros Hp Hv. apply list_elem_of_lookup. by apply (is_permutation_elem N p).
Qed.

Lemma is_permutation_lookup N p (n : nat) :
  is_permutation N p → Z.of_nat n < N → ∃ v, p !! n = Some v ∧ 0 ≤ v < N.
Proof.
  intros Hp Hn.
  destruct (lookup_lt_is_Some_2 p n) as [v Hv].
  { rewrite (is_permutation_length N p) by done. lia. }
  exists v. split; [done|]. apply (is_permutation_elem N p); [done|].
  by eapply list_elem_of_lookup_2.
Qed.

Section pass.
Context (src : RGBAImage) (Hwf : well_formed src).
Context (mapping : list Z) (Hperm : is_permutation (Dx src * Dy src) mapping).
Let N := Dx src * Dy src.
Let stores := shuffle_stores_from src (Dx src) 0 mapping.
Let blank := Pix (NewRGBA (Dx src) (Dy src)).

Lemma pass_N_nonneg : 0 ≤ N.
Proof. destruct Hwf as (? & ? & _). unfold N. nia. Qed.

Lemma pass_blank_length : Z.of_nat (length blank) = 4 * N.
Proof.
  pose proof pass_N_nonneg. unfold blank, NewRGBA, N in *. simpl.
  rewrite length_replicate. lia.
Qed.

(** The loop writes every byte offset of the output exactly once. *)
Lemma pass_offsets : stores.*1 ≡ₚ seqZ 0 (4 * N).
Proof.
  pose proof pass_N_nonneg as HN.
  unfold stores. rewrite shuffle_stores_offsets.
  - rewrite Hperm. fold N. rewrite <- (Z2Nat.id N) by done.
    by rewrite seqZ_pixel_offsets.
  - done.
  - lia.
  - rewrite (is_permutation_length _ _ Hperm). fold N. lia.
  - by apply is_permutation_Forall.
Qed.

Lemma pass_in_bounds : Forall (entry_in_bounds (length blank)) stores.
Proof.
  apply Forall_forall. intros [k b] Hin. unfold entry_in_bounds. simpl.
  rewrite pass_blank_length.
  assert (k ∈ stores.*1) as Hk.
  { apply list_elem_of_fmap. by exists (k, b). }
  rewrite pass_offsets, elem_of_seqZ in Hk. lia.
Qed.

Lemma pass_run :
  apply_shuffle src mapping
  = ((modifyBytes_all newTracker blank stores).1.1,
     mkRGBA (restore_entries stores blank).1 (Dx src) (Dy src)).
Proof.
  unfold apply_shuffle. rewrite move_pixels_from_stores. fold stores blank.
  destruct (modifyBytes_all_in_bounds newTracker blank stores pass_in_bounds) as [Hbuf _].
  destruct (modifyBytes_all newTracker blank stores) as [[o pix] es].
  simpl in *. by subst pix.
Qed.

Lemma pass_well_formed : well_formed (apply_shuffle src mapping).2.
Proof.
  rewrite pass_run. destruct Hwf as (Hw & Hh & Hlen).
  split; [done|]. split; [done|]. simpl.
  rewrite restore_entries_length, pass_blank_length. unfold N. lia.
Qed.

Lemma pass_dims :
  Dx (apply_shuffle src mapping).2 = Dx src ∧ Dy (apply_shuffle src mapping).2 = Dy src.
Proof. by rewrite pass_run. Qed.

(** The bytes of pixel [n] of the source are the bytes of pixel
    [mapping[n]] of the output. *)
Lemma pass_lookup (n : nat) v k :
  mapping !! n = Some v → 0 ≤ k < 4 →
  Pix (apply_shuffle src mapping).2 !! Z.to_nat (4 * v + k)
  = Pix src !! Z.to_nat (4 * Z.of_nat n + k).
Proof.
  intros Hn Hk. rewrite pass_run. simpl.
  pose proof pass_N_nonneg as HN.
  pose proof (is_permutation_length _ _ Hperm) as Hlen. fold N in Hlen.
  rewrite (restore_entries_recorded stores blank (4 * v + k)
             (byte_at (Pix src) (4 * Z.of_nat n + k))).
  - symmetry. apply list_lookup_lookup_total_lt.
    apply lookup_lt_Some in Hn. destruct Hwf as (_ & _ & Hsrc). fold N in Hsrc. lia.
  - rewrite pass_offsets. apply NoDup_seqZ.
  - apply pass_in_bounds.
  - unfold stores.
    replace (4 * Z.of_nat n + k) with (4 * (0 + Z.of_nat n) + k) by lia.
    apply shuffle_stores_elem; try done.
    + rewrite Hlen. lia.
    + by apply is_permutation_Forall.
Qed.
End pass.

(** ** The reverse mapping *)

Lemma reverse_fill_spec idx shuffled reverse :
  NoDup shuffled →
  Forall (λ v, 0 ≤ v < Z.of_nat (length reverse)) shuffled →
  ∃ r, reverse_fill idx shuffled reverse = Some r
       ∧ length r = length reverse
       ∧ (∀ (n : nat) v, shuffled !! n = Some v →
                         r !! Z.to_nat v = Some (idx + Z.of_nat n))
       ∧ (∀ m : nat, Z.of_nat m ∉ shuffled → r !! m = reverse !! m).
Proof.
  revert idx reverse.
  induction shuffled as [|v rest IH]; intros idx reverse Hnd Hall.
  { exists reverse. split; [done|]. split; [done|]. split; [|done].
    intros n v Hn. by rewrite lookup_nil in Hn. }
  apply NoDup_cons in Hnd as [Hfresh Hnd]. apply Forall_cons in Hall as [Hv Hall].
  cbn [reverse_fill].
  assert ((v <? 0) || (v >=? Z.of_nat (length reverse)) = false) as ->.
  { apply orb_false_iff. lia. }
  destruct (IH (idx + 1) (<[Z.to_nat v := idx]> reverse)) as (r & Hrun & Hlen & Hset & Hkeep).
  { done. } { by rewrite length_insert. }
  exists r. split; [done|]. rewrite length_insert in Hlen. split; [done|]. split.
  - intros [|n] v' Hn; simpl in Hn.
    + injection Hn as <-. rewrite Hkeep by (by rewrite Z2Nat.id by lia).
      rewrite Z.add_0_r. apply list_lookup_insert_eq. lia.
    + rewrite (Hset n v' Hn). f_equal. lia.
  - intros m Hm. apply not_elem_of_cons in Hm as [Hne Hm].
    rewrite Hkeep by done. apply list_lookup_insert_ne. lia.
Qed.

(** [reverseShuffle] of a permutation is its inverse, itself a permutation. *)
Lemma reverseShuffle_inverse N shuffled :
  0 ≤ N →
  is_permutation N shuffled →
  ∃ reverse, reverseShuffle N shuffled = Some reverse
             ∧ is_permutation N reverse
             ∧ (∀ (n : nat) v, shuffled !! n = Some v →
                               reverse !! Z.to_nat v = Some (Z.of_nat n)).
Proof.
  intros HN Hp.
  unfold reverseShuffle. assert ((N <? 0) = false) as -> by lia.
  destruct (reverse_fill_spec 0 shuffled (replicate (Z.to_nat N) 0))
    as (r & Hrun & Hlen & Hset & _).
  { by eapply is_permutation_NoDup. }
  { rewrite length_replicate, Z2Nat.id by lia. by apply is_permutation_Forall. }
  rewrite length_replicate in Hlen.
  assert (∀ n v, shuffled !! n = Some v → r !! Z.to_nat v = Some (Z.of_nat n)) as Hinv.
  { intros n v Hn. by rewrite (Hset n v Hn). }
  assert (∀ (m : nat) x, r !! m = Some x →
            ∃ n : nat, x = Z.of_nat n ∧ shuffled !! n = Some (Z.of_nat m)) as Hback.
  { intros m x Hm. apply lookup_lt_Some in Hm as Hlt.
    destruct (is_permutation_onto N shuffled (Z.of_nat m) Hp) as [n Hn]; [lia|].
    exists n. split; [|done]. apply Hinv in Hn. rewrite Nat2Z.id in Hn. congruence. }
  exists r. split; [done|]. split; [|done].
  unfold is_permutation. apply NoDup_Permutation.
  - apply NoDup_alt. intros i j x Hi Hj.
    destruct (Hback i x Hi) as (n & -> & Hn). destruct (Hback j _ Hj) as (n' & Heq & Hn').
    apply Nat2Z.inj in Heq. subst n'. rewrite Hn in Hn'. injection Hn' as Hij. lia.
  - apply NoDup_seqZ.
  - intros x. rewrite elem_of_seqZ. split.
    + intros [m Hm]%list_elem_of_lookup. destruct (Hback m x Hm) as (n & -> & Hn).
      apply lookup_lt_Some in Hn. rewrite (is_permutation_length N shuffled) in Hn by done. lia.
    + intros Hx. destruct (is_permutation_lookup N shuffled (Z.to_nat x) Hp) as (v & Hv & _); [lia|].
      apply Hinv in Hv. rewrite Z2Nat.id in Hv by lia.
      by eapply list_elem_of_lookup_2.
Qed.

(** ** Properties of the pixel shuffle *)

(** C2: for every well-formed image [B] of [N] pixels and every permutation
    [P] of [0, N), scattering [B] along [P] (pixel [i] to slot [P[i]]) and
    then scattering the result along [reverseShuffle], the inverse of [P],
    gives [B] back byte for byte. *)
Theorem shuffle_roundtrip originalImg shuffled :
  well_formed originalImg →
  is_permutation (Dx originalImg * Dy originalImg) shuffled →
  ∃ reverse,
    reverseShuffle (Dx originalImg * Dy originalImg) shuffled = Some reverse
    ∧ (∀ (i : nat) v, shuffled !! i = Some v →
                      reverse !! Z.to_nat v = Some (Z.of_nat i))
    ∧ (apply_shuffle (apply_shuffle originalImg shuffled).2 reverse).2 = originalImg.
Proof.
  intros Hwf Hperm.
  set (N := Dx originalImg * Dy originalImg) in *.
  assert (0 ≤ N) as HN by (by apply pass_N_nonneg).
  destruct (reverseShuffle_inverse N shuffled HN Hperm) as (reverse & Hrev & Hrperm & Hinv).
  exists reverse. split; [done|]. split; [done|].
  set (scrambledImg := (apply_shuffle originalImg shuffled).2).
  pose proof (pass_well_formed originalImg Hwf shuffled Hperm) as Hwf1.
  destruct (pass_dims originalImg Hwf shuffled Hperm) as [Hdx Hdy].
  fold scrambledImg in Hwf1, Hdx, Hdy.
  assert (is_permutation (Dx scrambledImg * Dy scrambledImg) reverse) as Hrperm'.
  { by rewrite Hdx, Hdy. }
  pose proof (pass_well_formed scrambledImg Hwf1 reverse Hrperm') as Hwf2.
  destruct (pass_dims scrambledImg Hwf1 reverse Hrperm') as [Hdx2 Hdy2].
  set (restoredImg := (apply_shuffle scrambledImg reverse).2) in *.
  assert (Pix restoredImg = Pix originalImg) as Hpix.
  { pose proof Hwf as (_ & _ & Hlen0). destruct Hwf2 as (_ & _ & Hlen2).
    rewrite Hdx2, Hdy2, Hdx, Hdy in Hlen2. fold N in Hlen0, Hlen2.
    apply (list_eq_same_length _ _ (Z.to_nat (4 * N))); [lia..|].
    intros j x y Hj Hx Hy.
    set (i := (j / 4)%nat). set (k := (j `mod` 4)%nat).
    assert (j = 4 * i + k)%nat as Hjk by apply Nat.div_mod_eq.
    assert (k < 4)%nat as Hk by (apply Nat.mod_upper_bound; lia).
    destruct (is_permutation_lookup N shuffled i Hperm) as (v & Hv & Hvb); [lia|].
    pose proof (pass_lookup originalImg Hwf shuffled Hperm i v (Z.of_nat k) Hv
                  ltac:(lia)) as H1.
    pose proof (pass_lookup scrambledImg Hwf1 reverse Hrperm' (Z.to_nat v) (Z.of_nat i)
                  (Z.of_nat k) (Hinv i v Hv) ltac:(lia)) as H2.
    fold scrambledImg in H1. fold restoredImg in H2.
    rewrite Z2Nat.id in H2 by lia. rewrite H1 in H2.
    replace (Z.to_nat (4 * Z.of_nat i + Z.of_nat k)) with j in H2 by lia.
    congruence. }
  destruct restoredImg as [pix dx dy], originalImg as [pix0 dx0 dy0]. simpl in *.
  congruence.
Qed.

Lemma shuffle_roundtrip_witness :
  ∃ reverse,
    reverseShuffle (Dx demo_image * Dy demo_image) [2; 0; 3; 1] = Some reverse
    ∧ (∀ (i : nat) v, [2; 0; 3; 1] !! i = Some v →
                      reverse !! Z.to_nat v = Some (Z.of_nat i))
    ∧ (apply_shuffle (apply_shuffle demo_image [2; 0; 3; 1]).2 reverse).2 = demo_image.
Proof.
  apply (shuffle_roundtrip demo_image [2; 0; 3; 1]).
  - unfold well_formed. simpl. lia.
  - unfold is_permutation. vm_compute. solve_Permutation.
Defined.

(** The output of the loop holds the bytes of the source, moved. *)
Lemma pass_multiset src mapping :
  well_formed src →
  is_permutation (Dx src * Dy src) mapping →
  Pix (apply_shuffle src mapping).2 ≡ₚ Pix src.
Proof.
  intros Hwf Hperm. set (N := Dx src * Dy src) in *.
  pose proof (pass_N_nonneg src Hwf) as HN. fold N in HN.
  pose proof (pass_well_formed src Hwf mapping Hperm) as (_ & _ & Hlen1).
  destruct (pass_dims src Hwf mapping Hperm) as [Hdx Hdy].
  rewrite Hdx, Hdy in Hlen1. pose proof Hwf as (_ & _ & Hlen0). fold N in Hlen0, Hlen1.
  symmetry. apply Permutation_inj. split; [lia|].
  set (target := λ j : nat,
         Z.to_nat (4 * (mapping !!! (j / 4)%nat) + Z.of_nat (j `mod` 4)%nat)).
  exists (λ j, if decide (Z.of_nat j < 4 * N) then target j else j).
  assert (∀ j : nat, Z.of_nat j < 4 * N →
            ∃ v, mapping !! (j / 4)%nat = Some v ∧ 0 ≤ v < N
                 ∧ target j = Z.to_nat (4 * v + Z.of_nat (j `mod` 4)%nat)
                 ∧ (j `mod` 4 < 4)%nat
                 ∧ j = (4 * (j / 4) + j `mod` 4)%nat) as Htarget.
  { intros j Hj.
    pose proof (Nat.div_mod_eq j 4) as Hjk.
    pose proof (Nat.mod_upper_bound j 4 ltac:(lia)) as Hk.
    destruct (is_permutation_lookup N mapping (j / 4)%nat Hperm) as (v & Hv & Hvb); [lia|].
    exists v. unfold target. by rewrite (list_lookup_total_correct _ _ _ Hv). }
  split.
  - intros j1 j2. repeat case_decide; intros Heq.
    + destruct (Htarget j1) as (v1 & Hv1 & Hb1 & Ht1 & Hk1 & Hj1); [done|].
      destruct (Htarget j2) as (v2 & Hv2 & Hb2 & Ht2 & Hk2 & Hj2); [done|].
      rewrite Ht1, Ht2 in Heq.
      assert (v1 = v2) as Hv by lia. subst v2.
      assert ((j1 / 4)%nat = (j2 / 4)%nat) as Hdiv.
      { eapply NoDup_lookup; [by eapply is_permutation_NoDup|done..]. }
      lia.
    + destruct (Htarget j1) as (v1 & Hv1 & Hb1 & Ht1 & Hk1 & Hj1); [done|]. lia.
    + destruct (Htarget j2) as (v2 & Hv2 & Hb2 & Ht2 & Hk2 & Hj2); [done|]. lia.
    + done.
  - intros j. case_decide as Hj.
    + destruct (Htarget j) as (v & Hv & Hb & Ht & Hk & Hjk); [done|].
      rewrite Ht.
      rewrite (pass_lookup src Hwf mapping Hperm (j / 4)%nat v _ Hv) by lia.
      f_equal. lia.
    + rewrite !(proj2 (lookup_ge_None _ _)) by lia. done.
Qed.

(** C5: for every well-formed image [B] of [N] pixels and every permutation
    [P] of [0, N), the loop that applies [P] is the run of its [modifyBytes]
    calls on a blank image; every call succeeds; the offsets written are
    each byte offset of the output exactly once, so the output is fully
    populated; and the output holds the same multiset of bytes as [B]. *)
Theorem shuffle_rearranges originalImg shuffled :
  well_formed originalImg →
  is_permutation (Dx originalImg * Dy originalImg) shuffled →
  let stores := shuffle_stores_from originalImg (Dx originalImg) 0 shuffled in
  let blank := Pix (NewRGBA (Dx originalImg) (Dy originalImg)) in
  let scrambledImg := (apply_shuffle originalImg shuffled).2 in
  (modifyBytes_all newTracker blank stores).1
  = ((apply_shuffle originalImg shuffled).1, Pix scrambledImg)
  ∧ Forall (λ e, e = None) (modifyBytes_all newTracker blank stores).2
  ∧ stores.*1 ≡ₚ seqZ 0 (Z.of_nat (length (Pix scrambledImg)))
  ∧ length (Pix scrambledImg) = length (Pix originalImg)
  ∧ Pix scrambledImg ≡ₚ Pix originalImg.
Proof.
  intros Hwf Hperm stores blank scrambledImg.
  pose proof (pass_in_bounds originalImg Hwf shuffled Hperm) as Hin.
  destruct (modifyBytes_all_in_bounds newTracker blank stores Hin) as [Hbuf Hok].
  pose proof (pass_multiset originalImg shuffled Hwf Hperm) as Hmulti.
  fold scrambledImg in Hmulti.
  assert (Pix scrambledImg = (restore_entries stores blank).1) as Hpix.
  { unfold scrambledImg. by rewrite pass_run. }
  split.
  { unfold scrambledImg, apply_shuffle. rewrite move_pixels_from_stores.
    fold stores blank. by destruct (modifyBytes_all newTracker blank stores) as [[t pix] es]. }
  split; [done|]. split; [|split].
  - rewrite Hpix, restore_entries_length. unfold blank.
    rewrite (pass_blank_length originalImg Hwf).
    by apply pass_offsets.
  - by apply Permutation_length.
  - done.
Qed.

Lemma shuffle_rearranges_witness :
  let stores := shuffle_stores_from demo_image (Dx demo_image) 0 [2; 0; 3; 1] in
  let blank := Pix (NewRGBA (Dx demo_image) (Dy demo_image)) in
  let scrambledImg := (apply_shuffle demo_image [2; 0; 3; 1]).2 in
  (modifyBytes_all newTracker blank stores).1
  = ((apply_shuffle demo_image [2; 0; 3; 1]).1, Pix scrambledImg)
  ∧ Forall (λ e, e = None) (modifyBytes_all newTracker blank stores).2
  ∧ stores.*1 ≡ₚ seqZ 0 (Z.of_nat (length (Pix scrambledImg)))
  ∧ length (Pix scrambledImg) = length (Pix demo_image)
  ∧ Pix scrambledImg ≡ₚ Pix demo_image.
Proof.
  apply (shuffle_rearranges demo_image [2; 0; 3; 1]).
  - unfold well_formed. simpl. lia.
  - unfold is_permutation. vm_compute. solve_Permutation.
Defined.

(** ** Further properties of the tracker *)

Lemma modifyBytes_all_errors o mem ws :
  (modifyBytes_all o mem ws).2
  = (λ w : Z * byte,
       if out_of_bounds w.1 mem then Some (OffsetOutOfBounds w.1) else None) <$> ws.
Proof.
  revert o mem. induction ws as [|[k v] ws IH]; intros o mem; simpl; [done|].
  pose proof (modifyBytes_length o mem k v) as Hlen.
  assert ((modifyBytes o mem k v).2
          = if out_of_bounds k mem then Some (OffsetOutOfBounds k) else None) as He.
  { unfold modifyBytes. by destruct (out_of_bounds k mem). }
  destruct (modifyBytes o mem k v) as [[o1 mem1] e]. simpl in Hlen, He.
  specialize (IH o1 mem1).
  destruct (modifyBytes_all o1 mem1 ws) as [[o2 mem2] es]. simpl in *.
  rewrite He, IH. f_equal. apply list_fmap_ext. intros _ [k' v'] _. simpl.
  unfold out_of_bounds. by rewrite Hlen.
Qed.

(** X1: failed writes are harmless.  Whatever mix of in-bounds and
    out-of-bounds [modifyBytes] calls is made on a non-empty buffer through a
    fresh tracker, exactly the out-of-bounds calls report an error, and
    [removeMemoryAddress] still returns the buffer to its first state and
    empties the record. *)
Theorem undo_ignores_failed_writes mem0 ws order :
  mem0 ≠ [] →
  range_order (modifyBytes_all newTracker mem0 ws).1.1 order →
  (modifyBytes_all newTracker mem0 ws).2
  = (λ w : Z * byte,
       if out_of_bounds w.1 mem0 then Some (OffsetOutOfBounds w.1) else None) <$> ws
  ∧ removeMemoryAddress_in order (modifyBytes_all newTracker mem0 ws).1.1
      (modifyBytes_all newTracker mem0 ws).1.2
    = (newTracker, mem0, None).
Proof.
  intros Hne Hord. split; [apply modifyBytes_all_errors|].
  pose proof (tracks_modifyBytes_all mem0 newTracker mem0 ws (tracks_new mem0)) as Htr.
  rewrite removeMemoryAddress_in_success.
  - by rewrite (tracks_restore mem0 _ _ order Htr Hord).
  - destruct Htr as (Hlen & _). intros Heq. rewrite Heq in Hlen. by destruct mem0.
  - eapply range_order_in_bounds; [|done]. by eapply tracks_record_in_bounds.
Qed.

Lemma undo_ignores_failed_writes_witness :
  (modifyBytes_all newTracker demo_data [(7, xff); (1, x99); (-1, xff)]).2
  = (λ w : Z * byte,
       if out_of_bounds w.1 demo_data then Some (OffsetOutOfBounds w.1) else None)
      <$> [(7, xff); (1, x99); (-1, xff)]
  ∧ removeMemoryAddress_in
      (map_to_list (offsets (modifyBytes_all newTracker demo_data
                               [(7, xff); (1, x99); (-1, xff)]).1.1))
      (modifyBytes_all newTracker demo_data [(7, xff); (1, x99); (-1, xff)]).1.1
      (modifyBytes_all newTracker demo_data [(7, xff); (1, x99); (-1, xff)]).1.2
    = (newTracker, demo_data, None).
Proof.
  apply undo_ignores_failed_writes.
  - discriminate.
  - unfold range_order. reflexivity.
Defined.

(** X2: the buffer holds the last value written.  After any sequence of
    calls, an in-bounds offset holds the value of the last call made on it,
    whatever the tracker recorded. *)
Theorem last_write_wins o mem pre p v post :
  0 ≤ p < Z.of_nat (length mem) →
  p ∉ post.*1 →
  (modifyBytes_all o mem (pre ++ (p, v) :: post)).1.2 !! Z.to_nat p = Some v.
Proof.
  intros Hp Hpost. rewrite modifyBytes_all_app.
  pose proof (modifyBytes_all_length o mem pre) as Hlen.
  destruct (modifyBytes_all o mem pre) as [[oa mema] esa]. simpl in Hlen.
  cbn [modifyBytes_all].
  assert ((modifyBytes oa mema p v).1.2 !! Z.to_nat p = Some v) as Hw.
  { unfold modifyBytes.
    assert (out_of_bounds p mema = false) as -> by (apply out_of_bounds_false; lia).
    simpl. apply list_lookup_insert_eq. lia. }
  destruct (modifyBytes oa mema p v) as [[ob memb] eb]. simpl in Hw.
  pose proof (modifyBytes_all_other ob memb post (Z.to_nat p)) as Hkeep.
  rewrite Z2Nat.id in Hkeep by lia. specialize (Hkeep Hpost).
  destruct (modifyBytes_all ob memb post) as [[oc memc] esc]. simpl in *. congruence.
Qed.

Lemma last_write_wins_witness :
  (modifyBytes_all newTracker demo_data ([(1, x99)] ++ (1, x77) :: [(3, x01)])).1.2
    !! Z.to_nat 1 = Some x77.
Proof.
  apply last_write_wins.
  - simpl. lia.
  - simpl. rewrite list_elem_of_singleton. discriminate.
Defined.

Lemma modifyBytes_dom o mem offset v :
  dom (offsets (modifyBytes o mem offset v).1.1)
  = if out_of_bounds offset mem then dom (offsets o) else {[offset]} ∪ dom (offsets o).
Proof.
  unfold modifyBytes. destruct (out_of_bounds offset mem); simpl; [done|].
  destruct (offsets o !! offset) as [b|] eqn:Ho; simpl.
  - apply elem_of_dom_2 in Ho. set_solver.
  - by rewrite dom_insert_L.
Qed.

Lemma modifyBytes_all_dom o mem ws :
  dom (offsets (modifyBytes_all o mem ws).1.1)
  = dom (offsets o)
    ∪ list_to_set (filter (λ k, 0 ≤ k < Z.of_nat (length mem)) ws.*1).
Proof.
  revert o mem. induction ws as [|[k v] ws IH]; intros o mem; simpl.
  { set_solver. }
  pose proof (modifyBytes_dom o mem k v) as Hdom.
  pose proof (modifyBytes_length o mem k v) as Hlen.
  destruct (modifyBytes o mem k v) as [[o1 mem1] e]. simpl in Hdom, Hlen.
  specialize (IH o1 mem1).
  destruct (modifyBytes_all o1 mem1 ws) as [[o2 mem2] es]. simpl in *.
  rewrite IH, Hdom, Hlen. rewrite filter_cons.
  destruct (out_of_bounds k mem) eqn:Hb.
  - apply out_of_bounds_true in Hb. rewrite decide_False by lia. done.
  - apply out_of_bounds_false in Hb. rewrite decide_True by lia.
    rewrite list_to_set_cons. set_solver.
Qed.

(** X3: the record holds exactly the offsets written.  After a sequence of
    calls the recorded offsets are those recorded before together with every
    in-bounds offset that was written; out-of-bounds calls add nothing and
    no entry is ever dropped. *)
Theorem record_domain o mem ws :
  dom (offsets (modifyBytes_all o mem ws).1.1)
  = dom (offsets o)
    ∪ list_to_set (filter (λ k, 0 ≤ k < Z.of_nat (length mem)) ws.*1).
Proof. apply modifyBytes_all_dom. Qed.

Lemma restore_entries_error entries mem e :
  (restore_entries entries mem).2 = Some e →
  ∃ k, e = OffsetOutOfBounds k ∧ k ∈ entries.*1
       ∧ (k < 0 ∨ Z.of_nat (length mem) ≤ k).
Proof.
  revert mem. induction entries as [|[k b] rest IH]; intros mem; simpl; [done|].
  destruct (out_of_bounds k mem) eqn:Hb; simpl.
  - intros [= <-]. exists k. apply out_of_bounds_true in Hb.
    split; [done|]. split; [|done]. apply list_elem_of_here.
  - intros He. destruct (IH _ He) as (k' & -> & Hin & Hout).
    rewrite length_insert in Hout.
    exists k'. split; [done|]. split; [|done]. by apply list_elem_of_further.
Qed.

(** X4: on a non-empty buffer [removeMemoryAddress] succeeds exactly when
    every recorded offset is within the buffer, in every iteration order;
    when it fails, the error names a recorded offset that is outside the
    buffer, and is never the empty-buffer error. *)
Theorem restore_fails_iff order o mem :
  mem ≠ [] →
  range_order o order →
  ((removeMemoryAddress_in order o mem).2 = None
   ↔ record_in_bounds (length mem) o)
  ∧ (∀ e, (removeMemoryAddress_in order o mem).2 = Some e →
          ∃ k, e = OffsetOutOfBounds k ∧ is_Some (offsets o !! k)
               ∧ (k < 0 ∨ Z.of_nat (length mem) ≤ k)).
Proof.
  intros Hne Hord.
  assert ((removeMemoryAddress_in order o mem).2 = (restore_entries order mem).2) as Heq.
  { unfold removeMemoryAddress_in. destruct mem as [|x mem]; [done|]. simpl.
    by destruct (restore_entries order (x :: mem)) as [m [e|]]. }
  rewrite Heq. split.
  - split.
    + intros Hok k [b Hk]. apply restore_entries_succeeds_inv in Hok.
      rewrite Forall_forall in Hok.
      apply (Hok (k, b)). by apply (range_order_elem o order).
    + intros Hrec. apply restore_entries_succeeds. by eapply range_order_in_bounds.
  - intros e He. destruct (restore_entries_error _ _ _ He) as (k & -> & Hin & Hout).
    exists k. split; [done|]. split; [|done]. by apply (range_order_key o order).
Qed.

Lemma restore_fails_iff_witness :
  ((removeMemoryAddress_in (map_to_list (<[4 := x50]> (<[1 := x20]> (∅ : gmap Z byte))))
      (mkTracker (<[4 := x50]> (<[1 := x20]> ∅))) [xaa; xbb; xcc]).2 = None
   ↔ record_in_bounds (length [xaa; xbb; xcc]) (mkTracker (<[4 := x50]> (<[1 := x20]> ∅))))
  ∧ (∀ e, (removeMemoryAddress_in (map_to_list (<[4 := x50]> (<[1 := x20]> (∅ : gmap Z byte))))
             (mkTracker (<[4 := x50]> (<[1 := x20]> ∅))) [xaa; xbb; xcc]).2 = Some e →
          ∃ k, e = OffsetOutOfBounds k
               ∧ is_Some (offsets (mkTracker (<[4 := x50]> (<[1 := x20]> ∅))) !! k)
               ∧ (k < 0 ∨ Z.of_nat (length [xaa; xbb; xcc]) ≤ k)).
Proof.
  apply restore_fails_iff.
  - discriminate.
  - unfold range_order. reflexivity.
Defined.

(** X5: whatever [removeMemoryAddress] returns, error or not, the buffer
    keeps its length and every position holds either the byte it held before
    the call or the byte recorded for that position; positions without a
    record are never touched. *)
Theorem restore_touches_only_recorded order o mem :
  range_order o order →
  length (removeMemoryAddress_in order o mem).1.2 = length mem
  ∧ ∀ i : nat,
      (removeMemoryAddress_in order o mem).1.2 !! i = mem !! i
      ∨ ∃ b, offsets o !! Z.of_nat i = Some b
             ∧ (removeMemoryAddress_in order o mem).1.2 !! i = Some b.
Proof.
  intros Hord.
  assert ((removeMemoryAddress_in order o mem).1.2 = (restore_entries order mem).1
          ∨ (removeMemoryAddress_in order o mem).1.2 = mem) as [Heq|Heq].
  { unfold removeMemoryAddress_in. destruct (length mem =? 0)%nat; [by right|].
    left. by destruct (restore_entries order mem) as [m [e|]]. }
  - rewrite Heq. split; [apply restore_entries_length|]. intros i.
    destruct (restore_entries_each order mem i) as [Hsame|(b & Hin & Hb)]; [by left|].
    right. exists b. split; [|done]. by apply (range_order_elem o order).
  - rewrite Heq. split; [done|]. intros i. by left.
Qed.

Lemma restore_touches_only_recorded_witness :
  length (removeMemoryAddress_in (map_to_list (<[4 := x50]> (<[1 := x20]> (∅ : gmap Z byte))))
            (mkTracker (<[4 := x50]> (<[1 := x20]> ∅))) [xaa; xbb; xcc]).1.2
  = length [xaa; xbb; xcc]
  ∧ ∀ i : nat,
      (removeMemoryAddress_in (map_to_list (<[4 := x50]> (<[1 := x20]> (∅ : gmap Z byte))))
         (mkTracker (<[4 := x50]> (<[1 := x20]> ∅))) [xaa; xbb; xcc]).1.2 !! i
      = [xaa; xbb; xcc] !! i
      ∨ ∃ b, offsets (mkTracker (<[4 := x50]> (<[1 := x20]> ∅))) !! Z.of_nat i = Some b
             ∧ (removeMemoryAddress_in
                  (map_to_list (<[4 := x50]> (<[1 := x20]> (∅ : gmap Z byte))))
                  (mkTracker (<[4 := x50]> (<[1 := x20]> ∅))) [xaa; xbb; xcc]).1.2 !! i
               = Some b.
Proof.
  apply restore_touches_only_recorded. unfold range_order. reflexivity.
Defined.

Lemma range_order_empty order : range_order newTracker order → order = [].
Proof.
  unfold range_order. simpl. rewrite map_to_list_empty.
  intros H. by apply Permutation_nil_r.
Qed.

(** X6: a second restore is a no-op.  Once [removeMemoryAddress] has
    succeeded, calling it again on the buffer it left succeeds again and
    changes neither the buffer nor the (empty) record. *)
Theorem restore_twice order o mem o1 mem1 order1 :
  removeMemoryAddress_in order o mem = (o1, mem1, None) →
  range_order o1 order1 →
  removeMemoryAddress_in order1 o1 mem1 = (o1, mem1, None).
Proof.
  unfold removeMemoryAddress_in at 1. intros Hrun Hord.
  destruct (length mem =? 0)%nat eqn:Hlen; [done|].
  pose proof (restore_entries_length order mem) as Hl.
  destruct (restore_entries order mem) as [m [e|]]; [done|].
  injection Hrun as <- <-. simpl in Hl.
  apply range_order_empty in Hord as ->.
  unfold removeMemoryAddress_in. rewrite Hl, Hlen. done.
Qed.

Lemma restore_twice_witness :
  removeMemoryAddress_in [] newTracker demo_data = (newTracker, demo_data, None).
Proof.
  apply (restore_twice [(3, x40); (1, x20)]
           (mkTracker (<[3 := x40]> (<[1 := x20]> ∅))) [x10; x99; x30; x77; x50]).
  - reflexivity.
  - unfold range_order. simpl. by rewrite map_to_list_empty.
Defined.

(** ** Further properties of the pixel shuffle *)

(** Pixel [i] of a well-formed image, addressed as [main] addresses it. *)
Lemma At_index img i :
  well_formed img →
  0 ≤ i < Dx img * Dy img →
  Dx img ≠ 0
  ∧ At img (Z.rem i (Dx img)) (Z.quot i (Dx img))
    = (byte_at (Pix img) (4 * i), byte_at (Pix img) (4 * i + 1),
       byte_at (Pix img) (4 * i + 2), byte_at (Pix img) (4 * i + 3)).
Proof.
  intros (Hw & Hh & Hlen) Hi.
  set (w := Dx img) in *. set (h := Dy img) in *.
  assert (0 < w) as Hwpos by nia. split; [lia|].
  rewrite Z.rem_mod_nonneg, Z.quot_div_nonneg by lia.
  pose proof (Z.mod_pos_bound i w Hwpos) as Hx.
  pose proof (Z.div_mod i w ltac:(lia)) as Hdm.
  assert (0 ≤ i / w < h) as Hy.
  { split; [apply Z.div_pos; lia|]. apply Z.div_lt_upper_bound; lia. }
  unfold At. fold w h.
  assert ((0 <=? i `mod` w) && (i `mod` w <? w) && (0 <=? i / w) && (i / w <? h) = true) as ->.
  { rewrite !andb_true_iff. lia. }
  unfold byte_at.
  replace (i / w * (4 * w) + i `mod` w * 4) with (4 * i) by lia.
  reflexivity.
Qed.

Lemma pass_tracks src mapping :
  tracks (Pix (NewRGBA (Dx src) (Dy src)))
    (apply_shuffle src mapping).1 (Pix (apply_shuffle src mapping).2).
Proof.
  unfold apply_shuffle. rewrite move_pixels_from_stores.
  set (blank := Pix (NewRGBA (Dx src) (Dy src))).
  pose proof (tracks_modifyBytes_all blank newTracker blank
                (shuffle_stores_from src (Dx src) 0 mapping) (tracks_new blank)) as Htr.
  by destruct (modifyBytes_all newTracker blank _) as [[t pix] es].
Qed.

Lemma pass_tracker_dom src mapping :
  well_formed src →
  is_permutation (Dx src * Dy src) mapping →
  dom (offsets (apply_shuffle src mapping).1)
  = list_to_set (seqZ 0 (4 * (Dx src * Dy src))).
Proof.
  intros Hwf Hperm.
  pose proof (pass_in_bounds src Hwf mapping Hperm) as Hin.
  pose proof (pass_offsets src Hwf mapping Hperm) as Hoff.
  unfold apply_shuffle. rewrite move_pixels_from_stores.
  set (blank := Pix (NewRGBA (Dx src) (Dy src))) in *.
  set (stores := shuffle_stores_from src (Dx src) 0 mapping) in *.
  pose proof (modifyBytes_all_dom newTracker blank stores) as Hdom.
  destruct (modifyBytes_all newTracker blank stores) as [[t pix] es]. simpl in *.
  rewrite Hdom, dom_empty_L, (left_id_L ∅ (∪)).
  apply set_eq. intros k. rewrite !elem_of_list_to_set, list_elem_of_filter, <- Hoff.
  split; [tauto|]. intros Hk. split; [|done].
  apply list_elem_of_fmap in Hk as [[k' b] [-> Hkb]].
  rewrite Forall_forall in Hin. apply (Hin _ Hkb).
Qed.

(** X7: after the forward loop ("Tracked %d byte modifications") the
    tracker holds one entry for every byte offset of the scrambled image and
    no other, [4 * totalPixels] entries in all, and every entry records the
    zero byte of the blank image. *)
Theorem shuffle_tracker src mapping :
  well_formed src →
  is_permutation (Dx src * Dy src) mapping →
  size (offsets (apply_shuffle src mapping).1) = Z.to_nat (4 * (Dx src * Dy src))
  ∧ ∀ k, offsets (apply_shuffle src mapping).1 !! k
         = if bool_decide (0 ≤ k < 4 * (Dx src * Dy src)) then Some x00 else None.
Proof.
  intros Hwf Hperm.
  pose proof (pass_tracker_dom src mapping Hwf Hperm) as Hdom.
  pose proof (pass_tracks src mapping) as (_ & Hrec & _).
  split.
  - rewrite <- size_dom, Hdom, size_list_to_set by apply NoDup_seqZ.
    apply length_seqZ.
  - intros k. case_bool_decide as Hk.
    + assert (k ∈ dom (offsets (apply_shuffle src mapping).1)) as Hin.
      { rewrite Hdom, elem_of_list_to_set, elem_of_seqZ. lia. }
      apply elem_of_dom in Hin as [b Hb]. rewrite Hb. f_equal.
      destruct (Hrec k b Hb) as [_ Hblank]. simpl in Hblank.
      by apply lookup_replicate in Hblank as [-> _].
    + apply not_elem_of_dom. rewrite Hdom, elem_of_list_to_set, elem_of_seqZ. lia.
Qed.

Lemma shuffle_tracker_witness :
  size (offsets (apply_shuffle demo_image [2; 0; 3; 1]).1)
  = Z.to_nat (4 * (Dx demo_image * Dy demo_image))
  ∧ ∀ k, offsets (apply_shuffle demo_image [2; 0; 3; 1]).1 !! k
         = if bool_decide (0 ≤ k < 4 * (Dx demo_image * Dy demo_image))
           then Some x00 else None.
Proof.
  apply shuffle_tracker.
  - unfold well_formed. simpl. lia.
  - unfold is_permutation. vm_compute. solve_Permutation.
Defined.

(** X8: the closing demonstration of [main] (main.go:253).  Replaying the
    tracker of the forward loop on the scrambled image succeeds in every
    iteration order when the image has a pixel, sets every byte of the
    scrambled image back to zero and empties the tracker; on an image
    without pixels it returns the empty-buffer error instead. *)
Theorem shuffle_undo src mapping order :
  well_formed src →
  is_permutation (Dx src * Dy src) mapping →
  range_order (apply_shuffle src mapping).1 order →
  (0 < Dx src * Dy src →
   removeMemoryAddress_in order (apply_shuffle src mapping).1
     (Pix (apply_shuffle src mapping).2)
   = (newTracker, Pix (NewRGBA (Dx src) (Dy src)), None))
  ∧ (Dx src * Dy src = 0 →
     removeMemoryAddress_in order (apply_shuffle src mapping).1
       (Pix (apply_shuffle src mapping).2)
     = ((apply_shuffle src mapping).1, [], Some MemBlockEmpty)).
Proof.
  intros Hwf Hperm Hord.
  pose proof (pass_tracks src mapping) as Htr.
  pose proof (pass_well_formed src Hwf mapping Hperm) as (_ & _ & Hlen).
  destruct (pass_dims src Hwf mapping Hperm) as [Hdx Hdy]. rewrite Hdx, Hdy in Hlen.
  split.
  - intros HN. rewrite removeMemoryAddress_in_success.
    + by rewrite (tracks_restore _ _ _ order Htr Hord).
    + intros Heq. rewrite Heq in Hlen. simpl in Hlen. lia.
    + eapply range_order_in_bounds; [|done]. by eapply tracks_record_in_bounds.
  - intros HN.
    destruct (Pix (apply_shuffle src mapping).2) as [|x pix] eqn:Hpix; [done|].
    simpl in Hlen. lia.
Qed.

Lemma shuffle_undo_witness :
  (0 < Dx demo_image * Dy demo_image →
   removeMemoryAddress_in
     (map_to_list (offsets (apply_shuffle demo_image [2; 0; 3; 1]).1))
     (apply_shuffle demo_image [2; 0; 3; 1]).1
     (Pix (apply_shuffle demo_image [2; 0; 3; 1]).2)
   = (newTracker, Pix (NewRGBA (Dx demo_image) (Dy demo_image)), None))
  ∧ (Dx demo_image * Dy demo_image = 0 →
     removeMemoryAddress_in
       (map_to_list (offsets (apply_shuffle demo_image [2; 0; 3; 1]).1))
       (apply_shuffle demo_image [2; 0; 3; 1]).1
       (Pix (apply_shuffle demo_image [2; 0; 3; 1]).2)
     = ((apply_shuffle demo_image [2; 0; 3; 1]).1, [], Some MemBlockEmpty)).
Proof.
  apply shuffle_undo.
  - unfold well_formed. simpl. lia.
  - unfold is_permutation. vm_compute. solve_Permutation.
  - unfold range_order. reflexivity.
Defined.

(** Scattering along a permutation and then along its inverse gives the
    image back. *)
Lemma apply_shuffle_inverse src mapping reverse :
  well_formed src →
  is_permutation (Dx src * Dy src) mapping →
  is_permutation (Dx src * Dy src) reverse →
  (∀ (i : nat) v, mapping !! i = Some v → reverse !! Z.to_nat v = Some (Z.of_nat i)) →
  (apply_shuffle (apply_shuffle src mapping).2 reverse).2 = src.
Proof.
  intros Hwf Hperm Hrperm Hinv.
  set (N := Dx src * Dy src) in *.
  set (mid := (apply_shuffle src mapping).2).
  pose proof (pass_well_formed src Hwf mapping Hperm) as Hwf1.
  destruct (pass_dims src Hwf mapping Hperm) as [Hdx Hdy].
  fold mid in Hwf1, Hdx, Hdy.
  assert (is_permutation (Dx mid * Dy mid) reverse) as Hrperm' by (by rewrite Hdx, Hdy).
  pose proof (pass_well_formed mid Hwf1 reverse Hrperm') as (_ & _ & Hlen2).
  destruct (pass_dims mid Hwf1 reverse Hrperm') as [Hdx2 Hdy2].
  set (back := (apply_shuffle mid reverse).2) in *.
  assert (Pix back = Pix src) as Hpix.
  { pose proof Hwf as (_ & _ & Hlen0).
    rewrite Hdx2, Hdy2, Hdx, Hdy in Hlen2. fold N in Hlen0, Hlen2.
    apply (list_eq_same_length _ _ (Z.to_nat (4 * N))); [lia..|].
    intros j x y Hj Hx Hy.
    pose proof (Nat.div_mod_eq j 4) as Hjk.
    pose proof (Nat.mod_upper_bound j 4 ltac:(lia)) as Hk.
    destruct (is_permutation_lookup N mapping (j / 4)%nat Hperm) as (v & Hv & Hvb); [lia|].
    pose proof (pass_lookup src Hwf mapping Hperm _ v (Z.of_nat (j `mod` 4)%nat) Hv
                  ltac:(lia)) as H1.
    pose proof (pass_lookup mid Hwf1 reverse Hrperm' (Z.to_nat v) _
                  (Z.of_nat (j `mod` 4)%nat) (Hinv _ v Hv) ltac:(lia)) as H2.
    fold mid in H1. fold back in H2.
    rewrite Z2Nat.id in H2 by lia. rewrite H1 in H2.
    replace (Z.to_nat (4 * Z.of_nat (j / 4)%nat + Z.of_nat (j `mod` 4)%nat)) with j in H2 by lia.
    congruence. }
  destruct back as [pix dx dy], src as [pix0 dx0 dy0]. simpl in *. congruence.
Qed.

(** The inverse of the inverse: looking up [reverse] gives back the index. *)
Lemma inverse_lookup N shuffled reverse (n : nat) v :
  is_permutation N shuffled →
  is_permutation N reverse →
  (∀ (i : nat) w, shuffled !! i = Some w → reverse !! Z.to_nat w = Some (Z.of_nat i)) →
  reverse !! n = Some v →
  shuffled !! Z.to_nat v = Some (Z.of_nat n).
Proof.
  intros Hp Hr Hinv Hn.
  assert (0 ≤ v < N) as Hv.
  { apply (is_permutation_elem N reverse); [done|]. by eapply list_elem_of_lookup_2. }
  destruct (is_permutation_lookup N shuffled (Z.to_nat v) Hp) as (w & Hw & Hwb); [lia|].
  rewrite Hw. f_equal.
  pose proof (Hinv _ _ Hw) as Hback. rewrite Z2Nat.id in Hback by lia.
  assert (Z.to_nat w = n) as Heq.
  { eapply NoDup_lookup; [by eapply is_permutation_NoDup|done..]. }
  lia.
Qed.

(** X9: inverting twice.  [reverseShuffle] of the reverse mapping of a
    permutation is that permutation again. *)
Theorem reverseShuffle_involutive N shuffled reverse :
  is_permutation N shuffled →
  reverseShuffle N shuffled = Some reverse →
  reverseShuffle N reverse = Some shuffled.
Proof.
  intros Hp Hrev.
  assert (0 ≤ N) as HN.
  { unfold reverseShuffle in Hrev. destruct (N <? 0) eqn:E; [done|lia]. }
  destruct (reverseShuffle_inverse N shuffled HN Hp) as (r & Hr & Hrp & Hinv).
  assert (r = reverse) as -> by congruence.
  destruct (reverseShuffle_inverse N reverse HN Hrp) as (r2 & Hr2 & Hr2p & Hinv2).
  rewrite Hr2. f_equal.
  apply (list_eq_same_length _ _ (Z.to_nat N)).
  - by apply is_permutation_length.
  - by apply is_permutation_length.
  - intros i x y Hi Hx Hy.
    pose proof (Hinv _ _ Hy) as H1. pose proof (Hinv2 _ _ H1) as H2.
    assert (0 ≤ y < N) as Hyb.
    { apply (is_permutation_elem N shuffled); [done|]. by eapply list_elem_of_lookup_2. }
    rewrite Nat2Z.id, Z2Nat.id in H2 by lia. congruence.
Qed.

Lemma reverseShuffle_involutive_witness :
  reverseShuffle 4 [1; 3; 0; 2] = Some [2; 0; 3; 1].
Proof.
  apply reverseShuffle_involutive.
  - unfold is_permutation. vm_compute. solve_Permutation.
  - reflexivity.
Defined.

(** X10: the two passes in the other order.  Scattering an image along the
    reverse mapping first and along the permutation afterwards also gives
    the image back. *)
Theorem shuffle_roundtrip_reversed originalImg shuffled reverse :
  well_formed originalImg →
  is_permutation (Dx originalImg * Dy originalImg) shuffled →
  reverseShuffle (Dx originalImg * Dy originalImg) shuffled = Some reverse →
  (apply_shuffle (apply_shuffle originalImg reverse).2 shuffled).2 = originalImg.
Proof.
  intros Hwf Hp Hrev.
  pose proof (pass_N_nonneg originalImg Hwf) as HN.
  destruct (reverseShuffle_inverse _ shuffled HN Hp) as (r & Hr & Hrp & Hinv).
  assert (r = reverse) as -> by congruence.
  apply apply_shuffle_inverse; [done..|].
  intros i v Hi. by apply (inverse_lookup (Dx originalImg * Dy originalImg) shuffled reverse).
Qed.

Lemma shuffle_roundtrip_reversed_witness :
  (apply_shuffle (apply_shuffle demo_image [1; 3; 0; 2]).2 [2; 0; 3; 1]).2 = demo_image.
Proof.
  apply shuffle_roundtrip_reversed.
  - unfold well_formed. simpl. lia.
  - unfold is_permutation. vm_compute. solve_Permutation.
  - reflexivity.
Defined.




(** ** The reports of [main] *)

Lemma pixel_matches_same img width i :
  width ≠ 0 → pixel_matches img img width i = Some true.
Proof.
  intros Hw. unfold pixel_matches, go_rem, go_quot.
  assert ((width =? 0) = false) as -> by lia. simpl.
  destruct (RGBA _) as [[[r g] b] a]. by rewrite !Z.eqb_refl.
Qed.

Lemma count_matches_over_same img width idxs matches :
  width ≠ 0 →
  count_matches_over img img width idxs matches
  = Some (matches + Z.of_nat (length idxs)).
Proof.
  intros Hw. revert matches. induction idxs as [|i rest IH]; intros matches; simpl.
  { f_equal. lia. }
  rewrite pixel_matches_same by done. rewrite IH. f_equal. lia.
Qed.

(** X12: the verdict of "Verifying restoration" (main.go:229-249).  After
    the two passes the loop counts [min(totalPixels, 100)] matching pixels,
    so "Perfect restoration achieved!" is printed exactly when the image has
    at least 100 pixels; for a smaller image the program reports "Some
    pixels don't match" although the restored image equals the original. *)
Theorem restoration_verdict originalImg shuffled reverse :
  well_formed originalImg →
  is_permutation (Dx originalImg * Dy originalImg) shuffled →
  reverseShuffle (Dx originalImg * Dy originalImg) shuffled = Some reverse →
  let restoredImg := (apply_shuffle (apply_shuffle originalImg shuffled).2 reverse).2 in
  let totalPixels := Dx originalImg * Dy originalImg in
  restoredImg = originalImg
  ∧ count_matches originalImg restoredImg (Dx originalImg) totalPixels
    = Some (Z.min totalPixels 100)
  ∧ perfect_restoration originalImg restoredImg (Dx originalImg) totalPixels
    = Some (100 <=? totalPixels).
Proof.
  intros Hwf Hp Hrev restoredImg totalPixels.
  pose proof (pass_N_nonneg originalImg Hwf) as HN. fold totalPixels in HN.
  destruct (reverseShuffle_inverse _ shuffled HN Hp) as (r & Hr & Hrp & Hinv).
  assert (r = reverse) as -> by (unfold totalPixels in *; congruence).
  assert (restoredImg = originalImg) as Heq by (by apply apply_shuffle_inverse).
  split; [done|]. rewrite Heq.
  assert (count_matches originalImg originalImg (Dx originalImg) totalPixels
          = Some (Z.min totalPixels 100)) as Hcount.
  { unfold count_matches. destruct (decide (totalPixels = 0)) as [->|Hpos].
    - done.
    - rewrite count_matches_over_same by (unfold totalPixels in *; nia).
      rewrite length_seqZ. f_equal. lia. }
  split; [done|]. unfold perfect_restoration. rewrite Hcount. simpl. f_equal. lia.
Qed.

Lemma restoration_verdict_witness :
  let restoredImg := (apply_shuffle (apply_shuffle demo_image [2; 0; 3; 1]).2 [1; 3; 0; 2]).2 in
  let totalPixels := Dx demo_image * Dy demo_image in
  restoredImg = demo_image
  ∧ count_matches demo_image restoredImg (Dx demo_image) totalPixels
    = Some (Z.min totalPixels 100)
  ∧ perfect_restoration demo_image restoredImg (Dx demo_image) totalPixels
    = Some (100 <=? totalPixels).
Proof.
  apply (restoration_verdict demo_image [2; 0; 3; 1] [1; 3; 0; 2]).
  - unfold well_formed. simpl. lia.
  - unfold is_permutation. vm_compute. solve_Permutation.
  - reflexivity.
Defined.

Lemma shuffle_example_is_Some originalImg width shuffled i :
  is_Some (shuffle_example originalImg width shuffled i)
  ↔ width ≠ 0 ∧ 0 ≤ i < Z.of_nat (length shuffled).
Proof.
  unfold shuffle_example, go_rem, go_quot.
  destruct (decide (width = 0)) as [->|Hw].
  { simpl. split; [by intros [? ?]|]. by intros [? _]. }
  assert ((width =? 0) = false) as -> by lia. simpl.
  destruct (at_index shuffled i) as [v|] eqn:Hv; simpl.
  - apply at_index_Some in Hv as [Hi _].
    destruct (RGBA _) as [[[r g] b] a]. split; [done|]. by eexists.
  - split; [by intros [? ?]|]. intros [_ Hi].
    destruct (lookup_lt_is_Some_2 shuffled (Z.to_nat i)) as [v Hv']; [lia|].
    assert (at_index shuffled i = Some v) as Hsome by (by apply at_index_Some).
    congruence.
Qed.

(** X13: "Shuffle examples" (main.go:97-107) indexes the first five entries
    of the permutation, so on an image with fewer than five pixels [main]
    panics there, before anything is scrambled, and on every larger image
    the loop completes with five lines. *)
Theorem shuffle_examples_panics_iff originalImg shuffled :
  well_formed originalImg →
  is_permutation (Dx originalImg * Dy originalImg) shuffled →
  (shuffle_examples originalImg (Dx originalImg) shuffled = None
   ↔ Dx originalImg * Dy originalImg < 5)
  ∧ (5 ≤ Dx originalImg * Dy originalImg →
     ∃ lines, shuffle_examples originalImg (Dx originalImg) shuffled = Some lines
              ∧ length lines = 5%nat).
Proof.
  intros Hwf Hp. set (N := Dx originalImg * Dy originalImg) in *.
  pose proof (pass_N_nonneg originalImg Hwf) as HN. fold N in HN.
  pose proof (is_permutation_length N shuffled Hp) as Hlen.
  assert (is_Some (shuffle_examples originalImg (Dx originalImg) shuffled) ↔ 5 ≤ N) as Hiff.
  { unfold shuffle_examples. rewrite mapM_is_Some, Forall_forall. split.
    - intros Hall. specialize (Hall 4). simpl in Hall.
      rewrite shuffle_example_is_Some in Hall.
      destruct Hall as [_ H4]; [|lia]. rewrite elem_of_seqZ. lia.
    - intros H5 i Hi. rewrite elem_of_seqZ in Hi. simpl.
      rewrite shuffle_example_is_Some. split; [unfold N in *; nia|lia]. }
  split.
  - rewrite eq_None_not_Some, Hiff. lia.
  - intros H5. apply Hiff in H5 as [lines Hlines]. exists lines. split; [done|].
    unfold shuffle_examples in Hlines. apply mapM_Some_1, Forall2_length in Hlines.
    rewrite <- Hlines. by rewrite length_seqZ.
Qed.

Lemma shuffle_examples_panics_iff_witness :
  (shuffle_examples demo_image (Dx demo_image) [2; 0; 3; 1] = None
   ↔ Dx demo_image * Dy demo_image < 5)
  ∧ (5 ≤ Dx demo_image * Dy demo_image →
     ∃ lines, shuffle_examples demo_image (Dx demo_image) [2; 0; 3; 1] = Some lines
              ∧ length lines = 5%nat).
Proof.
  apply shuffle_examples_panics_iff.
  - unfold well_formed. simpl. lia.
  - unfold is_permutation. vm_compute. solve_Permutation.
Defined.

Lemma byte_at_lookup (l1 l2 : list byte) i j :
  l1 !! Z.to_nat i = l2 !! Z.to_nat j → byte_at l1 i = byte_at l2 j.
Proof. unfold byte_at. rewrite !list_lookup_total_alt. by intros ->. Qed.

(** X14: "Verifying pixel values after shuffling" (main.go:154-169).  On an
    image of at least three pixels the loop completes and every line reports
    [valuesMatch = true]: the pixel found at the shuffled position of the
    scrambled image has the red, green and blue values of the original. *)
Theorem values_checks_match originalImg shuffled :
  well_formed originalImg →
  is_permutation (Dx originalImg * Dy originalImg) shuffled →
  3 ≤ Dx originalImg * Dy originalImg →
  ∃ lines,
    values_checks originalImg (apply_shuffle originalImg shuffled).2
      (Dx originalImg) shuffled = Some lines
    ∧ length lines = 3%nat
    ∧ Forall (λ line, line.2 = true) lines.
Proof.
  intros Hwf Hp H3. set (N := Dx originalImg * Dy originalImg) in *.
  set (scrambledImg := (apply_shuffle originalImg shuffled).2).
  pose proof (pass_well_formed originalImg Hwf shuffled Hp) as Hwf1.
  destruct (pass_dims originalImg Hwf shuffled Hp) as [Hdx Hdy].
  fold scrambledImg in Hwf1, Hdx, Hdy.
  assert (∀ i, 0 ≤ i < 3 →
            ∃ line, values_check originalImg scrambledImg (Dx originalImg) shuffled i
                    = Some line ∧ line.2 = true) as Hline.
  { intros i Hi.
    destruct (is_permutation_lookup N shuffled (Z.to_nat i) Hp) as (v & Hv & Hvb); [lia|].
    destruct (At_index originalImg i Hwf ltac:(unfold N in *; lia)) as [Hw Horig].
    destruct (At_index scrambledImg v Hwf1 ltac:(rewrite Hdx, Hdy; unfold N in *; lia))
      as [_ Hscr].
    rewrite Hdx in Hscr.
    unfold values_check, go_rem, go_quot.
    assert ((Dx originalImg =? 0) = false) as -> by lia. simpl.
    assert (at_index shuffled i = Some v) as ->.
    { apply at_index_Some. split; [|done].
      rewrite (is_permutation_length N shuffled Hp). lia. }
    simpl. rewrite Horig, Hscr.
    assert (∀ k, 0 ≤ k < 4 →
              byte_at (Pix scrambledImg) (4 * v + k) = byte_at (Pix originalImg) (4 * i + k))
      as Hbytes.
    { intros k Hk. apply byte_at_lookup. unfold scrambledImg.
      rewrite (pass_lookup originalImg Hwf shuffled Hp (Z.to_nat i) v k Hv Hk).
      by rewrite Z2Nat.id by lia. }
    pose proof (Hbytes 0 ltac:(lia)) as Hb0. rewrite !Z.add_0_r in Hb0.
    rewrite Hb0, (Hbytes 1), (Hbytes 2), (Hbytes 3) by lia. cbn [RGBA].
    eexists. split; [reflexivity|]. simpl. by rewrite !Z.eqb_refl. }
  destruct (Hline 0 ltac:(lia)) as (l0 & H0 & Hm0).
  destruct (Hline 1 ltac:(lia)) as (l1 & H1 & Hm1).
  destruct (Hline 2 ltac:(lia)) as (l2 & H2 & Hm2).
  exists [l0; l1; l2]. split; [|split; [done|by repeat constructor]].
  unfold values_checks. change (seqZ 0 3) with [0; 1; 2]. simpl.
  by rewrite H0, H1, H2.
Qed.

Lemma values_checks_match_witness :
  ∃ lines,
    values_checks demo_image (apply_shuffle demo_image [2; 0; 3; 1]).2
      (Dx demo_image) [2; 0; 3; 1] = Some lines
    ∧ length lines = 3%nat
    ∧ Forall (λ line, line.2 = true) lines.
Proof.
  apply values_checks_match.
  - unfold well_formed. simpl. lia.
  - unfold is_permutation. vm_compute. solve_Permutation.
  - simpl. lia.
Defined.

(** ** What the shuffle can produce *)

Lemma shuffle_from_reaches i l t :
  NoDup l → t ≡ₚ l →
  (i = 0 ∨ i < length l)%nat →
  (∀ k, (i < k)%nat → t !! k = l !! k) →
  ∃ draws, valid_draws i draws
           ∧ shuffle_from scripted_Intn i l draws = Some (t, []).
Proof.
  revert l. induction i as [|i IH]; intros l Hnd Hperm Hi Hrest.
  - exists []. split; [done|]. simpl. do 2 f_equal.
    assert (NoDup t) as Hndt by (by rewrite Hperm).
    destruct l as [|b l'].
    { by apply Permutation_nil_r in Hperm. }
    destruct t as [|a t'].
    { symmetry in Hperm. by apply Permutation_nil_r in Hperm. }
    assert (t' = l') as ->.
    { apply list_eq. intros k. apply (Hrest (S k)). lia. }
    f_equal. apply NoDup_cons in Hndt as [Ha _].
    assert (b ∈ a :: l') as Hb by (rewrite Hperm; apply list_elem_of_here).
    apply elem_of_cons in Hb as [->|Hb]; [done|].
    assert (a ∈ b :: l') as Ha' by (rewrite <- Hperm; apply list_elem_of_here).
    apply elem_of_cons in Ha' as [->|Ha']; done.
  - destruct Hi as [Hi|Hi]; [done|].
    assert (NoDup t) as Hndt by (by rewrite Hperm).
    pose proof (Permutation_length Hperm) as Hlen.
    destruct (lookup_lt_is_Some_2 t (S i)) as [x Hx]; [lia|].
    destruct (lookup_lt_is_Some_2 l (S i)) as [vi Hvi]; [lia|].
    assert (x ∈ l) as Hxl by (rewrite <- Hperm; by eapply list_elem_of_lookup_2).
    apply list_elem_of_lookup in Hxl as [j Hj].
    assert (j ≤ S i)%nat as Hji.
    { destruct (decide (j ≤ S i)%nat) as [|Hgt]; [done|].
      rewrite <- Hrest in Hj by lia.
      pose proof (NoDup_lookup _ _ _ _ Hndt Hx Hj). lia. }
    set (l' := <[j := vi]> (<[S i := x]> l)).
    assert (swap l (Z.of_nat (S i)) (Z.of_nat j) = Some l') as Hswap.
    { unfold swap.
      assert (at_index l (Z.of_nat j) = Some x) as ->.
      { apply at_index_Some. rewrite Nat2Z.id. split; [|done].
        apply lookup_lt_Some in Hj. lia. }
      assert (at_index l (Z.of_nat (S i)) = Some vi) as ->.
      { apply at_index_Some. rewrite Nat2Z.id. split; [lia|done]. }
      simpl. by rewrite !Nat2Z.id. }
    pose proof (swap_Permutation _ _ _ _ Hswap) as Hl'.
    destruct (IH l') as (draws & Hvalid & Hrun).
    + by rewrite Hl'.
    + by rewrite Hl'.
    + right. rewrite (Permutation_length Hl'). lia.
    + intros k Hk. unfold l'.
      destruct (decide (k = S i)) as [->|Hne].
      * rewrite Hx. symmetry.
        destruct (decide (j = S i)) as [->|Hneq].
        -- rewrite list_lookup_insert_eq by (rewrite length_insert; lia). congruence.
        -- rewrite list_lookup_insert_ne by done.
           apply list_lookup_insert_eq. lia.
      * rewrite !list_lookup_insert_ne by lia. apply Hrest. lia.
    + exists (Z.of_nat j :: draws). split.
      * cbn [valid_draws]. split; [lia|done].
      * cbn [shuffle_from scripted_Intn hd tl]. rewrite Hswap. simpl. exact Hrun.
Qed.

(** X15: the shuffle misses no permutation.  For every [N ≥ 0] and every
    permutation of [0, N) there is a sequence of draws, the draw of each
    iteration [i] within [0, i] as [rand.Intn(i + 1)] delivers it, on which
    the Fisher-Yates loop produces exactly that permutation, using up all
    the draws. *)
Theorem shuffle_reaches_every_permutation N p :
  0 ≤ N →
  is_permutation N p →
  ∃ draws, valid_draws (Z.to_nat (N - 1)) draws
           ∧ shuffledIndices scripted_Intn N draws = Some (p, []).
Proof.
  intros HN Hp. unfold shuffledIndices.
  assert ((N <? 0) = false) as -> by lia.
  apply shuffle_from_reaches.
  - apply NoDup_seqZ.
  - done.
  - rewrite length_seqZ. lia.
  - intros k Hk.
    rewrite !(proj2 (lookup_ge_None _ _)); [done| |].
    + rewrite length_seqZ. lia.
    + rewrite (is_permutation_length N p Hp). lia.
Qed.

Lemma shuffle_reaches_every_permutation_witness :
  ∃ draws, valid_draws (Z.to_nat (4 - 1)) draws
           ∧ shuffledIndices scripted_Intn 4 draws = Some ([2; 0; 3; 1], []).
Proof.
  apply shuffle_reaches_every_permutation.
  - lia.
  - unfold is_permutation. vm_compute. solve_Permutation.
Defined.

(** ** Loops over the pixels of a rectangle *)

Lemma for_each_pixel_app {St : Type} (body : St → Z → Z → option St) c1 c2 st :
  for_each_pixel body (c1 ++ c2) st
  = for_each_pixel body c1 st ≫= for_each_pixel body c2.
Proof.
  revert st. induction c1 as [|[x y] c1 IH]; intros st; simpl; [done|].
  destruct (body st x y) as [st'|]; simpl; [apply IH|done].
Qed.

Lemma for_each_x_flat {St : Type} (body : St → Z → Z → option St) y xs st :
  for_each_x body y xs st = for_each_pixel body ((λ x, (x, y)) <$> xs) st.
Proof.
  revert st. induction xs as [|x xs IH]; intros st; simpl; [done|].
  destruct (body st x y) as [st'|]; simpl; [apply IH|done].
Qed.

Lemma for_each_y_flat {St : Type} (body : St → Z → Z → option St) xs ys st :
  for_each_y body xs ys st = for_each_pixel body (pixel_coords xs ys) st.
Proof.
  revert st. induction ys as [|y ys IH]; intros st; [done|].
  unfold pixel_coords in *. cbn [for_each_y mbind list_bind].
  rewrite for_each_pixel_app, for_each_x_flat.
  destruct (for_each_pixel body _ st) as [st'|]; simpl; [apply IH|done].
Qed.

Lemma pixel_coords_length x0 y0 (w h : nat) :
  length (pixel_coords (seqZ x0 (Z.of_nat w)) (seqZ y0 (Z.of_nat h))) = (w * h)%nat.
Proof.
  revert y0. induction h as [|h IH]; intros y0.
  { rewrite Nat.mul_0_r. done. }
  rewrite Nat2Z.inj_succ, (seqZ_cons y0) by lia. rewrite Z.pred_succ.
  unfold pixel_coords in *. cbn [mbind list_bind].
  rewrite length_app, length_fmap, length_seqZ, IH. lia.
Qed.

Lemma pixel_coords_lookup_rc x0 y0 (w h r c : nat) :
  (r < h)%nat → (c < w)%nat →
  pixel_coords (seqZ x0 (Z.of_nat w)) (seqZ y0 (Z.of_nat h)) !! (r * w + c)%nat
  = Some (x0 + Z.of_nat c, y0 + Z.of_nat r).
Proof.
  revert y0 r. induction h as [|h IH]; intros y0 r Hr Hc; [lia|].
  rewrite Nat2Z.inj_succ, (seqZ_cons y0) by lia. rewrite Z.pred_succ.
  unfold pixel_coords in *. cbn [mbind list_bind].
  destruct r as [|r].
  - rewrite lookup_app_l by (rewrite length_fmap, length_seqZ; lia).
    rewrite list_lookup_fmap, lookup_seqZ_lt by lia. simpl.
    by rewrite Z.add_0_r.
  - rewrite lookup_app_r by (rewrite length_fmap, length_seqZ; lia).
    rewrite length_fmap, length_seqZ.
    replace (S r * w + c - Z.to_nat (Z.of_nat w))%nat with (r * w + c)%nat by lia.
    rewrite IH by lia. do 2 f_equal. lia.
Qed.

Lemma pixel_coords_lookup x0 y0 (w h n : nat) :
  (n < w * h)%nat →
  pixel_coords (seqZ x0 (Z.of_nat w)) (seqZ y0 (Z.of_nat h)) !! n
  = Some (x0 + Z.of_nat (n `mod` w), y0 + Z.of_nat (n / w)).
Proof.
  intros Hn. assert (w ≠ 0)%nat as Hw by lia.
  pose proof (Nat.div_mod_eq n w) as Hdm.
  pose proof (Nat.mod_upper_bound n w Hw) as Hc.
  assert (n / w < h)%nat as Hr by (apply Nat.Div0.div_lt_upper_bound; lia).
  rewrite Hdm at 1. rewrite (Nat.mul_comm w).
  by apply pixel_coords_lookup_rc.
Qed.

Lemma for_each_pixel_ind {St : Type} (body : St → Z → Z → option St)
    (Inv : nat → St → Prop) coords st :
  Inv 0%nat st →
  (∀ (n : nat) x y st, coords !! n = Some (x, y) → Inv n st →
     ∃ st', body st x y = Some st' ∧ Inv (S n) st') →
  ∃ st', for_each_pixel body coords st = Some st' ∧ Inv (length coords) st'.
Proof.
  revert Inv st. induction coords as [|[x y] coords IH]; intros Inv st H0 Hstep.
  { exists st. done. }
  destruct (Hstep 0%nat x y st eq_refl H0) as (st1 & Hb & H1).
  destruct (IH (λ n, Inv (S n)) st1 H1) as (st' & Hrun & Hfin).
  { intros n x' y' st2 Hn. apply (Hstep (S n)). done. }
  exists st'. simpl. rewrite Hb. done.
Qed.

Lemma for_each_pixel_fails {St : Type} (body : St → Z → Z → option St)
    (Inv : nat → St → Prop) coords st (m : nat) :
  Inv 0%nat st →
  (m < length coords)%nat →
  (∀ (n : nat) x y st, (n < m)%nat → coords !! n = Some (x, y) → Inv n st →
     ∃ st', body st x y = Some st' ∧ Inv (S n) st') →
  (∀ x y st, coords !! m = Some (x, y) → Inv m st → body st x y = None) →
  for_each_pixel body coords st = None.
Proof.
  revert Inv st m. induction coords as [|[x y] coords IH]; intros Inv st m H0 Hm Hstep Hfail.
  { simpl in Hm. lia. }
  simpl. destruct m as [|m].
  - by rewrite (Hfail x y st eq_refl H0).
  - destruct (Hstep 0%nat x y st ltac:(lia) eq_refl H0) as (st1 & -> & H1). simpl.
    apply (IH (λ n, Inv (S n)) st1 m H1).
    + simpl in Hm. lia.
    + intros n x' y' st2 Hn Hc. apply (Hstep (S n)); [lia|done].
    + intros x' y' st2 Hc. by apply Hfail.
Qed.

(** ** The range of [int], and allocation *)

Lemma wrap_int_id z : - 2 ^ 63 ≤ z < 2 ^ 63 → wrap_int z = z.
Proof. intros Hz. unfold wrap_int. rewrite Z.mod_small; lia. Qed.

Lemma wrap_int_range z : - 2 ^ 63 ≤ wrap_int z < 2 ^ 63.
Proof.
  unfold wrap_int. pose proof (Z.mod_pos_bound (z + 2 ^ 63) (2 ^ 64) ltac:(lia)). lia.
Qed.

Lemma wrap_int_congr a b : a mod 2 ^ 64 = b mod 2 ^ 64 → wrap_int a = wrap_int b.
Proof.
  intros Hab. unfold wrap_int.
  by rewrite <- (Zplus_mod_idemp_l a), Hab, Zplus_mod_idemp_l.
Qed.

Lemma wrap_int_mod a : wrap_int a mod 2 ^ 64 = a mod 2 ^ 64.
Proof. unfold wrap_int. rewrite Zminus_mod_idemp_l. f_equal. lia. Qed.

Lemma wrap_int_mul_mod a b : (wrap_int a * b) mod 2 ^ 64 = (a * b) mod 2 ^ 64.
Proof. by rewrite <- Zmult_mod_idemp_l, wrap_int_mod, Zmult_mod_idemp_l. Qed.

(** The length that [imageToBytes] asks [make] for is [4 * Dx * Dy] of the
    spans of the bounds, wrapped once. *)
Lemma imageToBytes_len r :
  wrap_int (wrap_int (rect_Dx r * rect_Dy r) * 4)
  = wrap_int (4 * (MaxX r - MinX r) * (MaxY r - MinY r)).
Proof.
  apply wrap_int_congr. rewrite wrap_int_mul_mod. unfold rect_Dx, rect_Dy.
  rewrite <- Z.mul_assoc, wrap_int_mul_mod.
  rewrite (Z.mul_comm (MaxX r - MinX r)), <- Z.mul_assoc, wrap_int_mul_mod.
  f_equal. lia.
Qed.

Lemma rect_Dx_span r : 0 ≤ MaxX r - MinX r < 2 ^ 63 → rect_Dx r = MaxX r - MinX r.
Proof. intros Hs. unfold rect_Dx. apply wrap_int_id. lia. Qed.

Lemma rect_Dy_span r : 0 ≤ MaxY r - MinY r < 2 ^ 63 → rect_Dy r = MaxY r - MinY r.
Proof. intros Hs. unfold rect_Dy. apply wrap_int_id. lia. Qed.

Lemma rect_Dx_origin w h : 0 ≤ w < 2 ^ 63 → rect_Dx (mkRectangle 0 0 w h) = w.
Proof. intros Hw. rewrite rect_Dx_span; simpl; lia. Qed.

Lemma rect_Dy_origin w h : 0 ≤ h < 2 ^ 63 → rect_Dy (mkRectangle 0 0 w h) = h.
Proof. intros Hh. rewrite rect_Dy_span; simpl; lia. Qed.

Lemma make_bytes_Some maxAlloc n :
  0 ≤ n < 2 ^ 64 → n ≤ maxAlloc →
  make_bytes maxAlloc n = Some (replicate (Z.to_nat n) x00).
Proof.
  intros Hn Hmax. unfold make_bytes, make_panics.
  assert ((n <? 0) = false) as -> by lia.
  assert ((2 ^ 64 <=? 1 * n) = false) as -> by lia.
  assert ((maxAlloc <? 1 * n) = false) as -> by lia. done.
Qed.

Lemma make_bytes_None maxAlloc n :
  n < 0 ∨ maxAlloc < n → make_bytes maxAlloc n = None.
Proof.
  intros Hn. unfold make_bytes, make_panics.
  destruct (n <? 0) eqn:Hneg; [done|].
  destruct (2 ^ 64 <=? 1 * n); [done|].
  assert ((maxAlloc <? 1 * n) = true) as -> by lia. done.
Qed.

Lemma mul3NonNeg_fits y z :
  0 ≤ y < 2 ^ 62 → 0 ≤ z → 4 * y * z < 2 ^ 63 → mul3NonNeg 4 y z = 4 * y * z.
Proof.
  intros Hy Hz Hp. unfold mul3NonNeg.
  assert ((4 <? 0) = false) as -> by lia.
  assert ((y <? 0) = false) as -> by lia.
  assert ((z <? 0) = false) as -> by lia.
  assert ((2 ^ 64 <=? 4 * y) = false) as -> by lia.
  assert ((2 ^ 64 <=? 4 * y * z) = false) as -> by lia.
  assert ((2 ^ 63 <=? 4 * y * z) = false) as -> by lia.
  done.
Qed.

Lemma mul3NonNeg_huge y z :
  0 ≤ y → 0 ≤ z → 2 ^ 62 ≤ y ∨ 2 ^ 63 ≤ 4 * y * z → mul3NonNeg 4 y z = -1.
Proof.
  intros Hy Hz Hhuge. unfold mul3NonNeg.
  assert ((4 <? 0) = false) as -> by lia.
  assert ((y <? 0) = false) as -> by lia.
  assert ((z <? 0) = false) as -> by lia.
  cbn [orb].
  destruct (2 ^ 64 <=? 4 * y) eqn:H1; [done|].
  destruct (2 ^ 64 <=? 4 * y * z) eqn:H2; [done|].
  assert ((2 ^ 63 <=? 4 * y * z) = true) as -> by lia. done.
Qed.

(** [image.NewRGBA(image.Rect(0, 0, w, h))] for [int]s that are not
    negative: where it returns, and where it panics. *)
Lemma NewRGBA_Pix_origin maxAlloc w h :
  0 ≤ w < 2 ^ 62 → 0 ≤ h < 2 ^ 63 →
  4 * w * h < 2 ^ 63 → 4 * w * h ≤ maxAlloc →
  NewRGBA_Pix maxAlloc (mkRectangle 0 0 w h)
  = Some (replicate (Z.to_nat (4 * w * h)) x00).
Proof.
  intros Hw Hh Hp Hmax. unfold NewRGBA_Pix.
  rewrite rect_Dx_origin, rect_Dy_origin, mul3NonNeg_fits by lia.
  assert ((4 * w * h <? 0) = false) as -> by nia.
  apply make_bytes_Some; [nia|done].
Qed.

Lemma NewRGBA_Pix_panics maxAlloc w h :
  0 ≤ w < 2 ^ 63 → 0 ≤ h < 2 ^ 63 →
  2 ^ 62 ≤ w ∨ 2 ^ 63 ≤ 4 * w * h ∨ maxAlloc < 4 * w * h →
  NewRGBA_Pix maxAlloc (mkRectangle 0 0 w h) = None.
Proof.
  intros Hw Hh Hbad. unfold NewRGBA_Pix.
  rewrite rect_Dx_origin, rect_Dy_origin by lia.
  destruct (decide (2 ^ 62 ≤ w ∨ 2 ^ 63 ≤ 4 * w * h)) as [Hhuge|Hfits].
  - by rewrite mul3NonNeg_huge by (done || lia).
  - rewrite mul3NonNeg_fits by lia.
    assert ((4 * w * h <? 0) = false) as -> by nia.
    apply make_bytes_None. lia.
Qed.

(** ** Bytes of an image and back *)

Lemma lookup_store4 (pix : list byte) (i : Z) a b c d (j : nat) :
  0 ≤ i → i + 3 < Z.of_nat (length pix) →
  <[Z.to_nat (i + 3) := d]>
    (<[Z.to_nat (i + 2) := c]> (<[Z.to_nat (i + 1) := b]> (<[Z.to_nat i := a]> pix))) !! j
  = if decide (Z.of_nat j = i) then Some a
    else if decide (Z.of_nat j = i + 1) then Some b
    else if decide (Z.of_nat j = i + 2) then Some c
    else if decide (Z.of_nat j = i + 3) then Some d
    else pix !! j.
Proof.
  intros Hi Hlen. rewrite !list_lookup_insert, !length_insert.
  repeat case_decide; (done || lia).
Qed.

Lemma store_byte_Some data i b :
  0 ≤ i < Z.of_nat (length data) →
  store_byte data i b = Some (<[Z.to_nat i := b]> data).
Proof.
  intros Hi. unfold store_byte. by apply out_of_bounds_false in Hi as ->.
Qed.

Lemma load_byte_Some data i :
  0 ≤ i < Z.of_nat (length data) →
  load_byte data i = Some (byte_at data i).
Proof.
  intros Hi. unfold load_byte, byte_at. apply out_of_bounds_false in Hi as Hb. rewrite Hb.
  apply list_lookup_lookup_total_lt. lia.
Qed.

Lemma load_byte_None data i :
  Z.of_nat (length data) ≤ i → load_byte data i = None.
Proof.
  intros Hi. unfold load_byte.
  assert (out_of_bounds i data = true) as -> by (apply out_of_bounds_true; lia). done.
Qed.

Lemma imageToBytes_pixel_run img data index x y :
  0 ≤ index → index + 3 < Z.of_nat (length data) →
  imageToBytes_pixel img (data, index) x y
  = Some (<[Z.to_nat (index + 3) := channel_byte (ColorAt img x y) 3]>
            (<[Z.to_nat (index + 2) := channel_byte (ColorAt img x y) 2]>
               (<[Z.to_nat (index + 1) := channel_byte (ColorAt img x y) 1]>
                  (<[Z.to_nat index := channel_byte (ColorAt img x y) 0]> data))),
          index + 4).
Proof.
  intros Hi Hlen. unfold imageToBytes_pixel, channel_byte.
  destruct (ColorAt img x y) as [[[r g] b] a]. simpl.
  rewrite store_byte_Some by lia. simpl.
  rewrite store_byte_Some by (rewrite length_insert; lia). simpl.
  rewrite store_byte_Some by (rewrite !length_insert; lia). simpl.
  rewrite store_byte_Some by (rewrite !length_insert; lia). simpl.
  reflexivity.
Qed.

Section imageToBytes_facts.
Context (maxAlloc : Z) (img : Image) (Hwf : rect_well_formed (Bounds img)).
Context (Hfit : 4 * (MaxX (Bounds img) - MinX (Bounds img))
                  * (MaxY (Bounds img) - MinY (Bounds img)) < 2 ^ 63).
Context (Halloc : 4 * (MaxX (Bounds img) - MinX (Bounds img))
                    * (MaxY (Bounds img) - MinY (Bounds img)) ≤ maxAlloc).
Let w := Z.to_nat (MaxX (Bounds img) - MinX (Bounds img)).
Let h := Z.to_nat (MaxY (Bounds img) - MinY (Bounds img)).
Let coord (n : nat) : Z * Z :=
  (MinX (Bounds img) + Z.of_nat (n `mod` w), MinY (Bounds img) + Z.of_nat (n / w)).

(** The state of the loops of [imageToBytes] after [n] pixels. *)
Let filled (n : nat) (st : list byte * Z) : Prop :=
  st.2 = 4 * Z.of_nat n
  ∧ length st.1 = (4 * (w * h))%nat
  ∧ ∀ (m : nat) k, (m < n)%nat → 0 ≤ k < 4 →
      st.1 !! Z.to_nat (4 * Z.of_nat m + k)
      = Some (channel_byte (ColorAt img (coord m).1 (coord m).2) k).

Lemma imageToBytes_layout :
  ∃ data, imageToBytes maxAlloc img = Some data
          ∧ length data = (4 * (w * h))%nat
          ∧ ∀ (m : nat) k, (m < w * h)%nat → 0 ≤ k < 4 →
              data !! Z.to_nat (4 * Z.of_nat m + k)
              = Some (channel_byte (ColorAt img (coord m).1 (coord m).2) k).
Proof.
  destruct Hwf as [Hx Hy]. unfold imageToBytes.
  rewrite imageToBytes_len, wrap_int_id by nia.
  rewrite make_bytes_Some by (done || nia). cbn [mbind option_bind].
  rewrite for_each_y_flat.
  set (coords := pixel_coords (seqZ (MinX (Bounds img)) (Z.of_nat w))
                   (seqZ (MinY (Bounds img)) (Z.of_nat h))).
  replace (pixel_coords _ _) with coords
    by (unfold coords, w, h; by rewrite !Z2Nat.id by lia).
  set (st0 := (replicate _ x00, 0)).
  destruct (for_each_pixel_ind (imageToBytes_pixel img) filled coords st0)
    as ([data index] & Hrun & Hfin).
  - split; [done|]. split; [|intros m k Hm; lia].
    unfold st0. simpl. rewrite length_replicate. unfold w, h. nia.
  - intros n x y [data index] Hn (Hidx & Hlen & Hdone). simpl in Hidx, Hlen, Hdone.
    assert (n < w * h)%nat as Hnlt.
    { apply lookup_lt_Some in Hn. unfold coords in Hn.
      by rewrite pixel_coords_length in Hn. }
    unfold coords in Hn. rewrite pixel_coords_lookup in Hn by done.
    injection Hn as <- <-. subst index.
    rewrite imageToBytes_pixel_run by lia.
    eexists. split; [reflexivity|]. split; [simpl; lia|]. split.
    { simpl. by rewrite !length_insert. }
    intros m k Hm Hk. simpl.
    rewrite lookup_store4 by lia.
    destruct (decide (m = n)) as [->|Hne].
    + assert (k = 0 ∨ k = 1 ∨ k = 2 ∨ k = 3) as Hcase by lia.
      destruct Hcase as [-> | [-> | [-> | ->]]]; repeat case_decide; (done || lia).
    + repeat case_decide; try lia. apply Hdone; lia.
  - exists data. rewrite Hrun. simpl. split; [done|].
    destruct Hfin as (_ & Hlen & Hdone). simpl in *.
    unfold coords in Hdone. rewrite pixel_coords_length in Hdone. done.
Qed.
End imageToBytes_facts.

Lemma Rect_origin w h : 0 ≤ w → 0 ≤ h → Rect 0 0 w h = mkRectangle 0 0 w h.
Proof.
  intros Hw Hh. unfold Rect.
  assert ((w <? 0) = false) as -> by lia. assert ((h <? 0) = false) as -> by lia. done.
Qed.

Lemma div_mod_offset (n W : nat) :
  (W ≠ 0)%nat →
  Z.of_nat (n / W) * (4 * Z.of_nat W) + Z.of_nat (n `mod` W) * 4 = 4 * Z.of_nat n.
Proof. intros HW. pose proof (Nat.div_mod_eq n W). nia. Qed.

Lemma coord_in_rect (n W H : nat) :
  (n < W * H)%nat →
  in_rect (mkRectangle 0 0 (Z.of_nat W) (Z.of_nat H))
    (0 + Z.of_nat (n `mod` W)) (0 + Z.of_nat (n / W)) = true.
Proof.
  intros Hn. assert (W ≠ 0)%nat as HW by lia.
  pose proof (Nat.mod_upper_bound n W HW).
  assert (n / W < H)%nat by (apply Nat.Div0.div_lt_upper_bound; lia).
  unfold in_rect. simpl. rewrite !andb_true_iff. lia.
Qed.

Lemma bytesToImage_pixel_run (n W H : nat) data pix :
  (n < W * H)%nat →
  Z.of_nat W < 2 ^ 63 →
  length pix = (4 * (W * H))%nat →
  4 * Z.of_nat n + 3 < Z.of_nat (length data) →
  bytesToImage_pixel (mkRectangle 0 0 (Z.of_nat W) (Z.of_nat H)) data
    (pix, 4 * Z.of_nat n) (0 + Z.of_nat (n `mod` W)) (0 + Z.of_nat (n / W))
  = Some (<[Z.to_nat (4 * Z.of_nat n + 3) := byte_at data (4 * Z.of_nat n + 3)]>
            (<[Z.to_nat (4 * Z.of_nat n + 2) := byte_at data (4 * Z.of_nat n + 2)]>
               (<[Z.to_nat (4 * Z.of_nat n + 1) := byte_at data (4 * Z.of_nat n + 1)]>
                  (<[Z.to_nat (4 * Z.of_nat n) := byte_at data (4 * Z.of_nat n)]> pix))),
          4 * Z.of_nat n + 4).
Proof.
  intros Hn HW Hpix Hdata. unfold bytesToImage_pixel.
  rewrite !load_byte_Some by lia. simpl.
  unfold RGBA_Set. rewrite coord_in_rect by done.
  unfold PixOffset. rewrite rect_Dx_origin by lia. simpl.
  replace ((0 + Z.of_nat (n / W) - 0) * (4 * Z.of_nat W)
           + (0 + Z.of_nat (n `mod` W) - 0) * 4) with (4 * Z.of_nat n).
  - done.
  - rewrite <- (div_mod_offset n W) by lia. lia.
Qed.

Lemma bytesToImage_Pix_take maxAlloc data w h :
  0 ≤ w < 2 ^ 62 → 0 ≤ h < 2 ^ 63 →
  4 * w * h < 2 ^ 63 → 4 * w * h ≤ maxAlloc →
  4 * w * h ≤ Z.of_nat (length data) →
  bytesToImage_Pix maxAlloc data w h = Some (take (Z.to_nat (4 * w * h)) data).
Proof.
  intros Hw Hh Hp Hmax Hlen. unfold bytesToImage_Pix.
  rewrite Rect_origin, NewRGBA_Pix_origin by (done || lia). cbn [mbind option_bind].
  rewrite for_each_y_flat.
  assert (∃ W : nat, w = Z.of_nat W) as [W ->] by (exists (Z.to_nat w); lia).
  assert (∃ H : nat, h = Z.of_nat H) as [H ->] by (exists (Z.to_nat h); lia).
  set (rect := mkRectangle 0 0 (Z.of_nat W) (Z.of_nat H)).
  set (Inv := λ (n : nat) (st : list byte * Z),
         st.2 = 4 * Z.of_nat n ∧ length st.1 = (4 * (W * H))%nat
         ∧ ∀ j : nat, (j < 4 * n)%nat → st.1 !! j = data !! j).
  destruct (for_each_pixel_ind (bytesToImage_pixel rect data) Inv
              (pixel_coords (seqZ 0 (Z.of_nat W)) (seqZ 0 (Z.of_nat H)))
              (replicate (Z.to_nat (4 * Z.of_nat W * Z.of_nat H)) x00, 0))
    as ([pix index] & Hrun & Hfin).
  - split; [done|]. split; [|intros j Hj; lia].
    simpl. rewrite length_replicate. lia.
  - intros n x y [pix index] Hn (Hidx & Hpix & Hdone). simpl in Hidx, Hpix, Hdone.
    assert (n < W * H)%nat as Hnlt.
    { apply lookup_lt_Some in Hn. by rewrite pixel_coords_length in Hn. }
    rewrite pixel_coords_lookup in Hn by done. injection Hn as <- <-. subst index.
    unfold rect. rewrite bytesToImage_pixel_run by (done || lia).
    eexists. split; [reflexivity|]. split; [simpl; lia|]. split.
    { simpl. by rewrite !length_insert. }
    intros j Hj. simpl. rewrite lookup_store4 by lia.
    repeat case_decide.
    + symmetry. replace j with (Z.to_nat (4 * Z.of_nat n)) by lia.
      apply list_lookup_lookup_total_lt. lia.
    + symmetry. replace j with (Z.to_nat (4 * Z.of_nat n + 1)) by lia.
      apply list_lookup_lookup_total_lt. lia.
    + symmetry. replace j with (Z.to_nat (4 * Z.of_nat n + 2)) by lia.
      apply list_lookup_lookup_total_lt. lia.
    + symmetry. replace j with (Z.to_nat (4 * Z.of_nat n + 3)) by lia.
      apply list_lookup_lookup_total_lt. lia.
    + apply Hdone. lia.
  - rewrite Hrun. simpl. f_equal.
    destruct Hfin as (_ & Hpix & Hdone). simpl in Hpix, Hdone.
    rewrite pixel_coords_length in Hdone.
    apply list_eq. intros j. rewrite lookup_take.
    case_decide as Hj.
    + apply Hdone. lia.
    + apply lookup_ge_None. lia.
Qed.

Lemma bytesToImage_Pix_short maxAlloc data w h :
  0 ≤ w < 2 ^ 62 → 0 ≤ h < 2 ^ 63 →
  4 * w * h < 2 ^ 63 → 4 * w * h ≤ maxAlloc →
  Z.of_nat (length data) < 4 * w * h →
  bytesToImage_Pix maxAlloc data w h = None.
Proof.
  intros Hw Hh Hp Hmax Hlen. unfold bytesToImage_Pix.
  rewrite Rect_origin, NewRGBA_Pix_origin by (done || lia). cbn [mbind option_bind].
  rewrite for_each_y_flat.
  assert (∃ W : nat, w = Z.of_nat W) as [W ->] by (exists (Z.to_nat w); lia).
  assert (∃ H : nat, h = Z.of_nat H) as [H ->] by (exists (Z.to_nat h); lia).
  set (rect := mkRectangle 0 0 (Z.of_nat W) (Z.of_nat H)).
  set (Inv := λ (n : nat) (st : list byte * Z),
         st.2 = 4 * Z.of_nat n ∧ length st.1 = (4 * (W * H))%nat).
  set (m := (length data / 4)%nat).
  pose proof (Nat.div_mod_eq (length data) 4) as Hdm.
  pose proof (Nat.mod_upper_bound (length data) 4 ltac:(lia)) as Hmod. fold m in Hdm.
  rewrite (for_each_pixel_fails (bytesToImage_pixel rect data) Inv _ _ m); [done|..].
  - split; [done|]. simpl. rewrite length_replicate. lia.
  - rewrite pixel_coords_length. lia.
  - intros n x y [pix index] Hnm Hn (Hidx & Hpix). simpl in Hidx, Hpix.
    assert (n < W * H)%nat as Hnlt.
    { apply lookup_lt_Some in Hn. by rewrite pixel_coords_length in Hn. }
    rewrite pixel_coords_lookup in Hn by done. injection Hn as <- <-. subst index.
    unfold rect. rewrite bytesToImage_pixel_run by (done || lia).
    eexists. split; [reflexivity|]. split; [simpl; lia|].
    simpl. by rewrite !length_insert.
  - intros x y [pix index] _ (Hidx & _). simpl in Hidx. subst index.
    unfold bytesToImage_pixel.
    rewrite (load_byte_None data (4 * Z.of_nat m + 3)) by lia.
    by destruct (load_byte data _), (load_byte data _), (load_byte data _).
Qed.

Lemma channel_byte_RGBA c k :
  0 ≤ k < 4 →
  channel_byte (RGBA c) k
  = if k =? 0 then c.1.1.1 else if k =? 1 then c.1.1.2 else if k =? 2 then c.1.2 else c.2.
Proof.
  intros Hk. destruct c as [[[cr cg] cb] ca]. unfold channel_byte, RGBA. simpl.
  assert (k = 0 ∨ k = 1 ∨ k = 2 ∨ k = 3) as Hcase by lia.
  destruct Hcase as [-> | [-> | [-> | ->]]]; simpl; apply byte_of_widen.
Qed.

Lemma imageToBytes_RGBA_Image maxAlloc w h pix :
  0 ≤ w → 0 ≤ h →
  Z.of_nat (length pix) = 4 * w * h →
  4 * w * h < 2 ^ 63 → 4 * w * h ≤ maxAlloc →
  imageToBytes maxAlloc (RGBA_Image (mkRectangle 0 0 w h) pix) = Some pix.
Proof.
  intros Hw Hh Hlen Hp Hmax.
  set (img := RGBA_Image (mkRectangle 0 0 w h) pix).
  assert (rect_well_formed (Bounds img)) as Hwf by (split; simpl; lia).
  destruct (imageToBytes_layout maxAlloc img Hwf) as (data & -> & Hdlen & Hdata);
    [simpl; lia..|].
  f_equal. simpl in Hdlen, Hdata.
  rewrite !Z.sub_0_r in Hdlen, Hdata.
  set (W := Z.to_nat w) in *. set (H := Z.to_nat h) in *.
  apply (list_eq_same_length _ _ (4 * (W * H))%nat); [lia|done|].
  intros j x y Hj Hx Hy.
  pose proof (Nat.div_mod_eq j 4) as Hjk.
  pose proof (Nat.mod_upper_bound j 4 ltac:(lia)) as Hk.
  set (n := (j / 4)%nat) in *. set (k := (j `mod` 4)%nat) in *.
  assert (n < W * H)%nat as Hn by lia.
  specialize (Hdata n (Z.of_nat k) Hn ltac:(lia)).
  replace (Z.to_nat (4 * Z.of_nat n + Z.of_nat k)) with j in Hdata by lia.
  rewrite channel_byte_RGBA in Hdata by lia.
  unfold RGBA_At in Hdata.
  assert (w = Z.of_nat W) as Hwz by lia. assert (h = Z.of_nat H) as Hhz by lia.
  rewrite Hwz, Hhz, coord_in_rect in Hdata by done.
  unfold PixOffset in Hdata. rewrite rect_Dx_origin in Hdata by nia. simpl in Hdata.
  assert ((0 + Z.of_nat (n / W) - 0) * (4 * Z.of_nat W)
          + (0 + Z.of_nat (n `mod` W) - 0) * 4 = 4 * Z.of_nat n) as Hoff.
  { rewrite <- (div_mod_offset n W) by lia. lia. }
  rewrite Hoff in Hdata.
  assert (Some x = pix !! j) as Hgoal; [|congruence].
  rewrite <- Hx, Hdata.
  assert (Z.of_nat k = 0 ∨ Z.of_nat k = 1 ∨ Z.of_nat k = 2 ∨ Z.of_nat k = 3) as Hcase by lia.
  unfold byte_at.
  destruct Hcase as [Hc | [Hc | [Hc | Hc]]]; rewrite Hc; simpl;
    rewrite <- list_lookup_lookup_total_lt by lia; f_equal; lia.
Qed.

Lemma store_byte_length data i b data' :
  store_byte data i b = Some data' → length data' = length data.
Proof.
  unfold store_byte. destruct (out_of_bounds i data); [done|].
  intros [= <-]. apply length_insert.
Qed.

Lemma store_byte_None data i b :
  Z.of_nat (length data) ≤ i → store_byte data i b = None.
Proof.
  intros Hi. unfold store_byte.
  assert (out_of_bounds i data = true) as -> by (apply out_of_bounds_true; lia). done.
Qed.

(** A pixel for which fewer than four bytes are left panics. *)
Lemma imageToBytes_pixel_fails img data index x y :
  Z.of_nat (length data) < index + 4 →
  imageToBytes_pixel img (data, index) x y = None.
Proof.
  intros Hlen. unfold imageToBytes_pixel.
  destruct (ColorAt img x y) as [[[r g] b] a].
  destruct (store_byte data index _) as [d1|] eqn:H1; [|done].
  apply store_byte_length in H1. cbn [mbind option_bind].
  destruct (store_byte d1 (index + 1) _) as [d2|] eqn:H2; [|done].
  apply store_byte_length in H2. cbn [mbind option_bind].
  destruct (store_byte d2 (index + 2) _) as [d3|] eqn:H3; [|done].
  apply store_byte_length in H3. cbn [mbind option_bind].
  rewrite store_byte_None by lia. done.
Qed.

(** The loops of [imageToBytes] on a slice shorter than the bytes of the
    pixels they visit. *)
Lemma imageToBytes_loops_short img (n : Z) :
  rect_well_formed (Bounds img) →
  0 ≤ n < 4 * (MaxX (Bounds img) - MinX (Bounds img))
            * (MaxY (Bounds img) - MinY (Bounds img)) →
  for_each_y (imageToBytes_pixel img)
    (seqZ (MinX (Bounds img)) (MaxX (Bounds img) - MinX (Bounds img)))
    (seqZ (MinY (Bounds img)) (MaxY (Bounds img) - MinY (Bounds img)))
    (replicate (Z.to_nat n) x00, 0) = None.
Proof.
  intros [Hx Hy] Hn. rewrite for_each_y_flat.
  set (W := Z.to_nat (MaxX (Bounds img) - MinX (Bounds img))).
  set (H := Z.to_nat (MaxY (Bounds img) - MinY (Bounds img))).
  replace (MaxX (Bounds img) - MinX (Bounds img)) with (Z.of_nat W) in * by (unfold W; lia).
  replace (MaxY (Bounds img) - MinY (Bounds img)) with (Z.of_nat H) in * by (unfold H; lia).
  set (Inv := λ (k : nat) (st : list byte * Z),
         st.2 = 4 * Z.of_nat k ∧ Z.of_nat (length st.1) = n).
  set (m := Z.to_nat (n / 4)).
  pose proof (Z.div_mod n 4 ltac:(lia)) as Hdm.
  pose proof (Z.mod_pos_bound n 4 ltac:(lia)) as Hmod.
  assert (Z.of_nat m = n / 4) as Hm by (unfold m; lia).
  rewrite (for_each_pixel_fails (imageToBytes_pixel img) Inv _ _ m); [done|..].
  - split; [done|]. simpl. rewrite length_replicate. lia.
  - rewrite pixel_coords_length. nia.
  - intros k x y [data index] Hkm Hk (Hidx & Hlen). simpl in Hidx, Hlen. subst index.
    rewrite imageToBytes_pixel_run by lia.
    eexists. split; [reflexivity|]. split; [simpl; lia|].
    simpl. by rewrite !length_insert.
  - intros x y [data index] _ (Hidx & Hlen). simpl in Hidx, Hlen. subst index.
    apply imageToBytes_pixel_fails. lia.
Qed.

(** Where [imageToBytes] panics, on well-formed bounds: where the bytes
    of the pixels do not fit the range of [int] or the allocation. *)
Lemma imageToBytes_None_iff maxAlloc img :
  rect_well_formed (Bounds img) →
  imageToBytes maxAlloc img = None
  ↔ 2 ^ 63 ≤ 4 * (MaxX (Bounds img) - MinX (Bounds img))
                * (MaxY (Bounds img) - MinY (Bounds img))
    ∨ maxAlloc < 4 * (MaxX (Bounds img) - MinX (Bounds img))
                   * (MaxY (Bounds img) - MinY (Bounds img)).
Proof.
  intros Hwf. pose proof Hwf as [Hx Hy].
  set (total := 4 * (MaxX (Bounds img) - MinX (Bounds img))
                  * (MaxY (Bounds img) - MinY (Bounds img))).
  assert (0 ≤ total) as Htotal by (unfold total; nia).
  split.
  - intros Hnone.
    destruct (decide (total < 2 ^ 63 ∧ total ≤ maxAlloc)) as [[Hfit Halloc]|]; [|lia].
    destruct (imageToBytes_layout maxAlloc img Hwf Hfit Halloc) as (data & Hrun & _).
    congruence.
  - intros Hbad. unfold imageToBytes. rewrite imageToBytes_len. fold total.
    pose proof (wrap_int_range total) as Hrange.
    destruct (decide (wrap_int total < 0 ∨ maxAlloc < wrap_int total)) as [Hmake|Hmake].
    { by rewrite make_bytes_None. }
    rewrite make_bytes_Some by lia. cbn [mbind option_bind].
    assert (wrap_int total < total) as Hshort.
    { destruct (decide (total < 2 ^ 63)) as [Hsmall|]; [|lia].
      rewrite wrap_int_id in Hmake by lia. lia. }
    rewrite imageToBytes_loops_short; [done|done|]. fold total. lia.
Qed.

(** ** File names *)

Lemma string_app_cons c (s t : string) : String c s +:+ t = String c (s +:+ t).
Proof. reflexivity. Qed.

Lemma string_app_nil (t : string) : "" +:+ t = t.
Proof. reflexivity. Qed.

Lemma string_length_app (s t : string) :
  String.length (s +:+ t) = (String.length s + String.length t)%nat.
Proof.
  induction s as [|c s IH]; [done|]. rewrite string_app_cons. simpl. by rewrite IH.
Qed.

Lemma string_app_assoc (s t u : string) : (s +:+ t) +:+ u = s +:+ (t +:+ u).
Proof.
  induction s as [|c s IH]; [done|]. rewrite !string_app_cons. by rewrite IH.
Qed.

Lemma substring_all (t : string) : String.substring 0 (String.length t) t = t.
Proof. induction t as [|c t IH]; simpl; [done|]. by rewrite IH. Qed.

Lemma substring_app_r (s t : string) :
  String.substring (String.length s) (String.length t) (s +:+ t) = t.
Proof.
  induction s as [|c s IH]; [apply substring_all|].
  rewrite string_app_cons. simpl. exact IH.
Qed.

Lemma substring_split (n : nat) (s : string) :
  (n ≤ String.length s)%nat →
  s = String.substring 0 n s +:+ String.substring n (String.length s - n) s
  ∧ String.length (String.substring 0 n s) = n.
Proof.
  revert s. induction n as [|n IH]; intros s Hn.
  - rewrite Nat.sub_0_r, substring_all. by destruct s.
  - destruct s as [|c s]; simpl in *; [lia|].
    destruct (IH s ltac:(lia)) as [Heq Hlen].
    rewrite string_app_cons, <- Heq, Hlen. done.
Qed.

(** The extension seen by the [switch] of a name [stem ++ ext] with a
    four-byte [ext] is [ext]. *)
Lemma codec_of_app (stem ext : string) :
  String.length ext = 4%nat → stem ≠ "" →
  codec_of (stem +:+ ext)
  = if String.eqb ext ".jpg" || String.eqb ext ".jpeg" then Some JPEG
    else if String.eqb ext ".png" then Some PNG else None.
Proof.
  intros Hext Hstem. unfold codec_of.
  rewrite string_length_app, Hext.
  assert (String.length stem ≠ 0)%nat as Hlen by (by destruct stem).
  assert ((4 <? String.length stem + 4)%nat = true) as -> by (apply Nat.ltb_lt; lia).
  replace (String.length stem + 4 - 4)%nat with (String.length stem) by lia.
  pose proof (substring_app_r stem ext) as Hsub. rewrite Hext in Hsub.
  by rewrite !Hsub.
Qed.

Lemma codec_of_inv filename c :
  codec_of filename = Some c →
  ∃ stem ext, filename = stem +:+ ext ∧ stem ≠ "" ∧ String.length ext = 4%nat.
Proof.
  unfold codec_of. destruct (4 <? String.length filename)%nat eqn:Hlen; [|done].
  apply Nat.ltb_lt in Hlen. intros _.
  destruct (substring_split (String.length filename - 4) filename ltac:(lia)) as [Heq Hstem].
  replace (String.length filename - (String.length filename - 4))%nat with 4%nat in Heq by lia.
  eexists _, _. split; [exact Heq|]. split.
  - intros Hnil. rewrite Hnil in Hstem. simpl in Hstem. lia.
  - apply (f_equal String.length) in Heq.
    rewrite string_length_app, Hstem in Heq. lia.
Qed.

(** X16: which file names [loadImage] and [saveImage] accept.  A name is
    handled as JPEG exactly when it is a non-empty stem followed by ".jpg",
    as PNG exactly when it is a non-empty stem followed by ".png"; the case
    ".jpeg" of the [switch] can never be taken, so every name ending in
    ".jpeg" is reported as an unsupported format. *)
Theorem codec_of_spec filename :
  (codec_of filename = Some JPEG ↔ ∃ stem, stem ≠ "" ∧ filename = stem +:+ ".jpg")
  ∧ (codec_of filename = Some PNG ↔ ∃ stem, stem ≠ "" ∧ filename = stem +:+ ".png")
  ∧ (∀ stem, codec_of (stem +:+ ".jpeg") = None).
Proof.
  assert (∀ c, codec_of filename = Some c →
            ∃ stem, stem ≠ "" ∧ filename = stem +:+ (match c with JPEG => ".jpg" | PNG => ".png" end))
    as Hinv.
  { intros c Hc. destruct (codec_of_inv _ _ Hc) as (stem & ext & -> & Hstem & Hext).
    exists stem. split; [done|]. f_equal.
    rewrite codec_of_app in Hc by done.
    destruct (String.eqb ext ".jpg") eqn:Hj.
    { apply String.eqb_eq in Hj. simpl in Hc. by injection Hc as <-. }
    destruct (String.eqb ext ".jpeg") eqn:Hj'.
    { apply String.eqb_eq in Hj'. by subst ext. }
    simpl in Hc. destruct (String.eqb ext ".png") eqn:Hp; [|done].
    apply String.eqb_eq in Hp. by injection Hc as <-. }
  split; [|split].
  - split; [apply (Hinv JPEG)|]. intros (stem & Hstem & ->). by rewrite codec_of_app.
  - split; [apply (Hinv PNG)|]. intros (stem & Hstem & ->). by rewrite codec_of_app.
  - intros stem. change ".jpeg" with ("." +:+ "jpeg"). rewrite <- string_app_assoc.
    rewrite codec_of_app; [done|done|]. by destruct stem.
Qed.

(** ** Properties of the byte-level conversions *)

(** X17: the layout of [imageToBytes].  For an image whose bounds are well
    formed and whose [4 * Dx * Dy] bytes are within the range of [int] and
    within what [make] allocates, the function returns [4 * Dx * Dy] bytes,
    row by row from the [Min] corner, four bytes per pixel: byte [k] of the
    pixel at [(x, y)] is the high byte of channel [k] of
    [img.At(x, y).RGBA()]. *)
Theorem imageToBytes_row_major maxAlloc img :
  rect_well_formed (Bounds img) →
  4 * (MaxX (Bounds img) - MinX (Bounds img))
    * (MaxY (Bounds img) - MinY (Bounds img)) < 2 ^ 63 →
  4 * (MaxX (Bounds img) - MinX (Bounds img))
    * (MaxY (Bounds img) - MinY (Bounds img)) ≤ maxAlloc →
  ∃ data,
    imageToBytes maxAlloc img = Some data
    ∧ Z.of_nat (length data) = 4 * rect_Dx (Bounds img) * rect_Dy (Bounds img)
    ∧ ∀ x y k,
        MinX (Bounds img) ≤ x < MaxX (Bounds img) →
        MinY (Bounds img) ≤ y < MaxY (Bounds img) →
        0 ≤ k < 4 →
        data !! Z.to_nat (4 * ((y - MinY (Bounds img)) * rect_Dx (Bounds img)
                               + (x - MinX (Bounds img))) + k)
        = Some (channel_byte (ColorAt img x y) k).
Proof.
  intros Hwf Hfit Halloc.
  destruct (imageToBytes_layout maxAlloc img Hwf Hfit Halloc) as (data & Hrun & Hlen & Hdata).
  pose proof Hwf as [Hx Hy].
  set (sx := MaxX (Bounds img) - MinX (Bounds img)) in *.
  set (sy := MaxY (Bounds img) - MinY (Bounds img)) in *.
  exists data. split; [done|]. split.
  { rewrite Hlen.
    destruct (decide (sx = 0)) as [Hsx|Hsx].
    { rewrite rect_Dx_span by (fold sx; lia). fold sx. lia. }
    destruct (decide (sy = 0)) as [Hsy|Hsy].
    { rewrite rect_Dy_span by (fold sy; lia). fold sy. lia. }
    rewrite rect_Dx_span, rect_Dy_span by (fold sx sy; nia). fold sx sy. nia. }
  intros x y k Hxr Hyr Hk.
  rewrite rect_Dx_span by (fold sx; nia). fold sx.
  set (w := Z.to_nat sx) in *.
  set (c := Z.to_nat (x - MinX (Bounds img))).
  set (r := Z.to_nat (y - MinY (Bounds img))).
  assert (Z.of_nat w = sx) as Hw by (unfold w; lia).
  assert (c < w)%nat as Hc by (unfold c, w, sx; lia).
  assert (r < Z.to_nat sy)%nat as Hr by (unfold r, sy; lia).
  assert ((w * r + c) / w = r)%nat as Hdiv by (symmetry; by apply (Nat.div_unique _ _ r c)).
  assert ((w * r + c) `mod` w = c)%nat as Hmod by (symmetry; by apply (Nat.mod_unique _ _ r c)).
  specialize (Hdata (w * r + c)%nat k ltac:(nia) Hk).
  rewrite Hdiv, Hmod in Hdata. simpl in Hdata.
  replace (MinX (Bounds img) + Z.of_nat c) with x in Hdata by (unfold c; lia).
  replace (MinY (Bounds img) + Z.of_nat r) with y in Hdata by (unfold r; lia).
  rewrite <- Hdata. f_equal. rewrite <- Hw. unfold c, r. nia.
Qed.

Lemma imageToBytes_row_major_witness :
  ∃ data,
    imageToBytes (2 ^ 48) demo_checker = Some data
    ∧ Z.of_nat (length data)
      = 4 * rect_Dx (Bounds demo_checker) * rect_Dy (Bounds demo_checker)
    ∧ ∀ x y k,
        MinX (Bounds demo_checker) ≤ x < MaxX (Bounds demo_checker) →
        MinY (Bounds demo_checker) ≤ y < MaxY (Bounds demo_checker) →
        0 ≤ k < 4 →
        data !! Z.to_nat (4 * ((y - MinY (Bounds demo_checker)) * rect_Dx (Bounds demo_checker)
                               + (x - MinX (Bounds demo_checker))) + k)
        = Some (channel_byte (ColorAt demo_checker x y) k).
Proof.
  apply imageToBytes_row_major.
  - split; simpl; lia.
  - simpl. lia.
  - simpl. lia.
Defined.

Lemma bytesToImage_take maxAlloc data w h :
  0 ≤ w < 2 ^ 62 → 0 ≤ h < 2 ^ 63 →
  4 * w * h < 2 ^ 63 → 4 * w * h ≤ maxAlloc →
  4 * w * h ≤ Z.of_nat (length data) →
  bytesToImage maxAlloc data w h
  = Some (RGBA_Image (mkRectangle 0 0 w h) (take (Z.to_nat (4 * w * h)) data)).
Proof.
  intros Hw Hh Hp Hmax Hlen. unfold bytesToImage.
  rewrite bytesToImage_Pix_take by done. simpl. by rewrite Rect_origin by lia.
Qed.

(** [image.NewRGBA] refuses a width from [2^62] on even for a height of
    zero, where no byte is needed: [bytesToImage] panics there on any
    [data]. *)
Lemma bytesToImage_wide_empty maxAlloc data :
  bytesToImage maxAlloc data (2 ^ 62) 0 = None.
Proof.
  unfold bytesToImage, bytesToImage_Pix.
  rewrite Rect_origin, NewRGBA_Pix_panics by lia. done.
Qed.

(** X18: bytes to image and back.  For a width and a height that
    [image.NewRGBA] accepts, with [4 * width * height] bytes that [make]
    allocates: when [data] holds at least that many bytes, [bytesToImage]
    returns an image with bounds [(0,0)-(width,height)] from which
    [imageToBytes] reads back exactly the first [4 * width * height] bytes
    of [data]; bytes beyond are ignored. *)
Theorem bytes_image_roundtrip maxAlloc data width height :
  0 ≤ width < 2 ^ 62 → 0 ≤ height < 2 ^ 63 →
  4 * width * height < 2 ^ 63 → 4 * width * height ≤ maxAlloc →
  4 * width * height ≤ Z.of_nat (length data) →
  ∃ img,
    bytesToImage maxAlloc data width height = Some img
    ∧ Bounds img = mkRectangle 0 0 width height
    ∧ imageToBytes maxAlloc img = Some (take (Z.to_nat (4 * width * height)) data).
Proof.
  intros Hw Hh Hp Hmax Hlen. eexists. split; [by apply bytesToImage_take|]. split; [done|].
  apply imageToBytes_RGBA_Image; [lia|lia| |done|done].
  rewrite length_take. nia.
Qed.

Lemma bytes_image_roundtrip_witness :
  ∃ img,
    bytesToImage (2 ^ 48) [x01; x02; x03; x04; x05; x06; x07; x08; x09] 2 1 = Some img
    ∧ Bounds img = mkRectangle 0 0 2 1
    ∧ imageToBytes (2 ^ 48) img
      = Some (take (Z.to_nat (4 * 2 * 1)) [x01; x02; x03; x04; x05; x06; x07; x08; x09]).
Proof. apply bytes_image_roundtrip; simpl; lia. Defined.

(** X19: where [bytesToImage] panics.  For a width and a height, [int]s
    that are not negative, it panics exactly when [data] is shorter than the
    [4 * width * height] bytes the loops read (index out of range), or
    [image.NewRGBA] refuses the dimensions: a width from [2^62] on or a
    byte count from [2^63] on ("Rectangle has huge or negative
    dimensions"), or a byte count beyond what [make] allocates. *)
Theorem bytesToImage_panics_iff maxAlloc data width height :
  0 ≤ width < 2 ^ 63 → 0 ≤ height < 2 ^ 63 →
  bytesToImage maxAlloc data width height = None
  ↔ Z.of_nat (length data) < 4 * width * height
    ∨ 2 ^ 62 ≤ width ∨ 2 ^ 63 ≤ 4 * width * height
    ∨ maxAlloc < 4 * width * height.
Proof.
  intros Hw Hh.
  destruct (decide (2 ^ 62 ≤ width ∨ 2 ^ 63 ≤ 4 * width * height
                    ∨ maxAlloc < 4 * width * height)) as [Hbad|Hfits].
  { split; [tauto|]. intros _. unfold bytesToImage, bytesToImage_Pix.
    rewrite Rect_origin, NewRGBA_Pix_panics by (done || lia). done. }
  split.
  - intros Hnone.
    destruct (decide (Z.of_nat (length data) < 4 * width * height)) as [|Hge]; [tauto|].
    rewrite bytesToImage_take in Hnone by lia. done.
  - intros [Hshort|Hbad]; [|tauto].
    unfold bytesToImage. by rewrite bytesToImage_Pix_short by lia.
Qed.

Lemma bytesToImage_panics_iff_witness :
  bytesToImage (2 ^ 48) [x01; x02; x03; x04; x05; x06; x07] 2 1 = None
  ↔ Z.of_nat (length [x01; x02; x03; x04; x05; x06; x07]) < 4 * 2 * 1
    ∨ 2 ^ 62 ≤ 2 ∨ 2 ^ 63 ≤ 4 * 2 * 1 ∨ 2 ^ 48 < 4 * 2 * 1.
Proof. apply bytesToImage_panics_iff; lia. Defined.

(** X23: where [imageToBytes] panics.  On an image with well-formed
    bounds, [imageToBytes] panics exactly when the [4 * Dx * Dy] bytes of
    its pixels reach [2^63], where the [int] product [width*height*4] wraps
    around ([make] is given a negative length, or a slice too short for the
    loops, which run out of its range), or exceed what [make] allocates. *)
Theorem imageToBytes_panics_iff maxAlloc img :
  rect_well_formed (Bounds img) →
  imageToBytes maxAlloc img = None
  ↔ 2 ^ 63 ≤ 4 * (MaxX (Bounds img) - MinX (Bounds img))
                * (MaxY (Bounds img) - MinY (Bounds img))
    ∨ maxAlloc < 4 * (MaxX (Bounds img) - MinX (Bounds img))
                   * (MaxY (Bounds img) - MinY (Bounds img)).
Proof. apply imageToBytes_None_iff. Qed.

(** The bounds of [image.NewUniform], two thousand million pixels each
    way: the product wraps to a negative length. *)
Lemma imageToBytes_panics_iff_witness :
  let img := mkImage (mkRectangle (-10 ^ 9) (-10 ^ 9) (10 ^ 9) (10 ^ 9))
               (λ _ _, (0, 0, 0, 65535)) in
  imageToBytes (2 ^ 48) img = None
  ↔ 2 ^ 63 ≤ 4 * (MaxX (Bounds img) - MinX (Bounds img))
                * (MaxY (Bounds img) - MinY (Bounds img))
    ∨ 2 ^ 48 < 4 * (MaxX (Bounds img) - MinX (Bounds img))
                 * (MaxY (Bounds img) - MinY (Bounds img)).
Proof. apply imageToBytes_panics_iff. split; simpl; lia. Defined.

(** ** The byte-level scramble *)

Lemma shuffledIndices_is_permutation {rng : Type} (Intn : Z → rng → Z * rng) N s :
  (∀ n s, 0 < n → 0 ≤ (Intn n s).1 < n) →
  0 ≤ N →
  ∃ p s', shuffledIndices Intn N s = Some (p, s') ∧ is_permutation N p.
Proof.
  intros Hrange HN. unfold shuffledIndices.
  assert ((N <? 0) = false) as -> by lia.
  apply (shuffle_from_Permutation Intn Hrange). rewrite length_seqZ. lia.
Qed.

Lemma scramble_from_run (i : nat) pending indices tracker scrambledData :
  Forall (λ v, 0 ≤ v < Z.of_nat (length scrambledData)) indices →
  (i + length pending ≤ length indices)%nat →
  scramble_from (Z.of_nat i) pending indices tracker scrambledData
  = Some (inr (modifyBytes_all tracker scrambledData (zip (drop i indices) pending)).1).
Proof.
  revert i tracker scrambledData.
  induction pending as [|b rest IH]; intros i tracker sd Hall Hlen.
  { simpl. by rewrite zip_with_nil_r. }
  simpl in Hlen. cbn [scramble_from].
  destruct (lookup_lt_is_Some_2 indices i) as [v Hv]; [lia|].
  assert (at_index indices (Z.of_nat i) = Some v) as ->.
  { apply at_index_Some. rewrite Nat2Z.id. split; [lia|done]. }
  simpl. rewrite (drop_S _ _ _ Hv). cbn [zip_with modifyBytes_all].
  assert (0 ≤ v < Z.of_nat (length sd)) as Hvb.
  { rewrite Forall_forall in Hall. apply Hall. by eapply list_elem_of_lookup_2. }
  pose proof (modifyBytes_length tracker sd v b) as Hl.
  assert ((modifyBytes tracker sd v b).2 = None) as He.
  { unfold modifyBytes. by apply out_of_bounds_false in Hvb as ->. }
  destruct (modifyBytes tracker sd v b) as [[t1 sd1] e]. simpl in Hl, He. subst e.
  replace (Z.of_nat i + 1) with (Z.of_nat (S i)) by lia.
  rewrite IH by (rewrite ?Hl; (done || lia)).
  by destruct (modifyBytes_all t1 sd1 _) as [[t2 sd2] es].
Qed.

Section scramble_facts.
Context (data : list byte) (indices : list Z).
Context (Hperm : is_permutation (Z.of_nat (length data)) indices).
Let writes := zip indices data.
Let tracker := (modifyBytes_all newTracker data writes).1.1.
Let scrambledData := (modifyBytes_all newTracker data writes).1.2.

Lemma scramble_indices_length : length indices = length data.
Proof. rewrite (is_permutation_length _ _ Hperm). lia. Qed.

Lemma scramble_writes_fst : writes.*1 = indices.
Proof. unfold writes. apply fst_zip. rewrite scramble_indices_length. done. Qed.

Lemma scramble_writes_in_bounds : Forall (entry_in_bounds (length data)) writes.
Proof.
  apply Forall_forall. intros [k b] Hin. unfold entry_in_bounds. simpl.
  apply (is_permutation_elem _ indices); [done|].
  rewrite <- scramble_writes_fst. apply list_elem_of_fmap. by exists (k, b).
Qed.

Lemma scramble_tracks : tracks data tracker scrambledData.
Proof. apply tracks_modifyBytes_all, tracks_new. Qed.

Lemma scramble_length : length scrambledData = length data.
Proof. apply modifyBytes_all_length. Qed.

(** Byte [i] of the data is byte [indices[i]] of the scrambled data. *)
Lemma scramble_lookup (i : nat) v :
  indices !! i = Some v → scrambledData !! Z.to_nat v = data !! i.
Proof.
  intros Hv.
  destruct (lookup_lt_is_Some_2 data i) as [b Hb].
  { rewrite <- scramble_indices_length. by eapply lookup_lt_Some. }
  unfold scrambledData.
  destruct (modifyBytes_all_in_bounds newTracker data writes scramble_writes_in_bounds)
    as [-> _].
  rewrite Hb. apply restore_entries_recorded.
  - rewrite scramble_writes_fst. by eapply is_permutation_NoDup.
  - apply scramble_writes_in_bounds.
  - unfold writes. apply list_elem_of_lookup. exists i.
    rewrite lookup_zip_with, Hv, Hb. done.
Qed.

Lemma scramble_Permutation : scrambledData ≡ₚ data.
Proof.
  symmetry. apply Permutation_inj. split; [by rewrite scramble_length|].
  set (L := length data).
  exists (λ i, if decide (i < L)%nat then Z.to_nat (indices !!! i) else i).
  assert (∀ i, (i < L)%nat →
            ∃ v, indices !! i = Some v ∧ indices !!! i = v ∧ 0 ≤ v < Z.of_nat L) as Hidx.
  { intros i Hi.
    destruct (is_permutation_lookup _ indices i Hperm) as (v & Hv & Hvb); [lia|].
    exists v. split; [done|]. split; [by apply list_lookup_total_correct|done]. }
  split.
  - intros i j. repeat case_decide; intros Heq.
    + destruct (Hidx i) as (v & Hv & Hev & Hvb); [done|].
      destruct (Hidx j) as (u & Hu & Heu & Hub); [done|].
      rewrite Hev, Heu in Heq.
      assert (v = u) as -> by lia.
      eapply NoDup_lookup; [by eapply is_permutation_NoDup|done..].
    + destruct (Hidx i) as (v & Hv & Hev & Hvb); [done|]. rewrite Hev in Heq. lia.
    + destruct (Hidx j) as (u & Hu & Heu & Hub); [done|]. rewrite Heu in Heq. lia.
    + done.
  - intros i. case_decide as Hi.
    + destruct (Hidx i) as (v & Hv & Hev & Hvb); [done|].
      by rewrite Hev, (scramble_lookup i v).
    + rewrite !(proj2 (lookup_ge_None _ _)); [done|rewrite scramble_length; lia|lia].
Qed.

(** The record holds, for every offset, the byte of the data there. *)
Lemma scramble_record k :
  offsets tracker !! k
  = if bool_decide (0 ≤ k < Z.of_nat (length data)) then data !! Z.to_nat k else None.
Proof.
  pose proof scramble_tracks as (_ & Hrec & _).
  assert (dom (offsets tracker) = list_to_set indices) as Hdom.
  { unfold tracker. rewrite modifyBytes_all_dom. simpl.
    rewrite dom_empty_L, (left_id_L ∅ (∪)), scramble_writes_fst.
    apply set_eq. intros x. rewrite !elem_of_list_to_set, list_elem_of_filter.
    rewrite (is_permutation_elem _ indices x Hperm). tauto. }
  case_bool_decide as Hk.
  - assert (k ∈ dom (offsets tracker)) as Hin.
    { rewrite Hdom, elem_of_list_to_set.
      by apply (is_permutation_elem (Z.of_nat (length data)) indices). }
    apply elem_of_dom in Hin as [b Hb]. rewrite Hb.
    by destruct (Hrec k b Hb) as [_ ->].
  - apply not_elem_of_dom. rewrite Hdom, elem_of_list_to_set.
    by rewrite (is_permutation_elem _ indices k Hperm).
Qed.

Lemma scramble_from_all :
  scramble_from 0 data indices newTracker data = Some (inr (tracker, scrambledData)).
Proof.
  change 0 with (Z.of_nat 0).
  rewrite scramble_from_run.
  - unfold tracker, scrambledData, writes. rewrite drop_0.
    by destruct (modifyBytes_all newTracker data (zip indices data)) as [[t sd] es].
  - by apply is_permutation_Forall.
  - rewrite scramble_indices_length. lia.
Qed.
End scramble_facts.

Lemma rect_fits_dims maxAlloc r :
  rect_well_formed r → rect_fits maxAlloc r →
  rect_Dx r = MaxX r - MinX r ∧ rect_Dy r = MaxY r - MinY r
  ∧ 0 ≤ rect_Dx r < 2 ^ 62 ∧ 0 ≤ rect_Dy r < 2 ^ 63
  ∧ 4 * rect_Dx r * rect_Dy r < 2 ^ 61
  ∧ 8 * (4 * rect_Dx r * rect_Dy r) ≤ maxAlloc.
Proof.
  intros [Hx Hy] (Hsx & Hsy & Hint & Hmax).
  rewrite rect_Dx_span, rect_Dy_span by lia. repeat split; lia.
Qed.

(** The run of [scrambleImage] on an image with well-formed bounds that
    fit. *)
Lemma scrambleImage_run {rng : Type} maxAlloc (Intn : Z → rng → Z * rng) img s :
  (∀ n s, 0 < n → 0 ≤ (Intn n s).1 < n) →
  rect_well_formed (Bounds img) →
  rect_fits maxAlloc (Bounds img) →
  ∃ data indices,
    imageToBytes maxAlloc img = Some data
    ∧ Z.of_nat (length data) = 4 * rect_Dx (Bounds img) * rect_Dy (Bounds img)
    ∧ is_permutation (Z.of_nat (length data)) indices
    ∧ scrambleImage maxAlloc Intn img s
      = Some (inr (RGBA_Image (mkRectangle 0 0 (rect_Dx (Bounds img)) (rect_Dy (Bounds img)))
                     (modifyBytes_all newTracker data (zip indices data)).1.2,
                   (modifyBytes_all newTracker data (zip indices data)).1.1)).
Proof.
  intros Hrange Hwf Hfits.
  destruct (rect_fits_dims _ _ Hwf Hfits) as (HDx & HDy & Hw & Hh & Hint & Hmax).
  destruct (imageToBytes_layout maxAlloc img Hwf) as (data & Hdata & Hlen & _);
    [rewrite <- HDx, <- HDy; nia..|].
  rewrite <- HDx, <- HDy in Hlen.
  assert (Z.of_nat (length data) = 4 * rect_Dx (Bounds img) * rect_Dy (Bounds img)) as Hlen'.
  { rewrite Hlen. nia. }
  destruct (shuffledIndices_is_permutation Intn (Z.of_nat (length data)) s Hrange)
    as (indices & s' & Hshuffle & Hperm); [lia|].
  exists data, indices. split; [done|]. split; [done|]. split; [done|].
  unfold scrambleImage. rewrite Hdata. cbn [mbind option_bind].
  assert (make_panics maxAlloc 8 (Z.of_nat (length data)) = false) as ->.
  { unfold make_panics. rewrite !orb_false_iff. lia. }
  rewrite Hshuffle. cbn [mbind option_bind fst].
  assert (make_panics maxAlloc 1 (Z.of_nat (length data)) = false) as ->.
  { unfold make_panics. rewrite !orb_false_iff. lia. }
  rewrite (scramble_from_all data indices Hperm). cbn [mbind option_bind].
  pose proof (modifyBytes_all_length newTracker data (zip indices data)) as Hsd.
  rewrite bytesToImage_take by lia.
  rewrite take_ge by lia. done.
Qed.

(** X20: what [scrambleImage] returns.  On an image with well-formed
    bounds that fit (spans that [image.NewRGBA] accepts, bytes whose
    indices [make] allocates), with a generator that draws within range,
    [scrambleImage] never panics and never returns an error.  The scrambled
    image has the size of the input, its bytes are the bytes of the input
    rearranged, and the tracker records every byte offset of the image with
    the input's byte at that offset ("Number of modified bytes tracked" is
    the number of bytes of the image). *)
Theorem scrambleImage_spec {rng : Type} maxAlloc (Intn : Z → rng → Z * rng) img s :
  (∀ n s, 0 < n → 0 ≤ (Intn n s).1 < n) →
  rect_well_formed (Bounds img) →
  rect_fits maxAlloc (Bounds img) →
  ∃ data scrambledData scrambledImg tracker,
    imageToBytes maxAlloc img = Some data
    ∧ scrambleImage maxAlloc Intn img s = Some (inr (scrambledImg, tracker))
    ∧ Bounds scrambledImg
      = mkRectangle 0 0 (rect_Dx (Bounds img)) (rect_Dy (Bounds img))
    ∧ imageToBytes maxAlloc scrambledImg = Some scrambledData
    ∧ scrambledData ≡ₚ data
    ∧ size (offsets tracker) = length data
    ∧ ∀ k, offsets tracker !! k
           = if bool_decide (0 ≤ k < Z.of_nat (length data))
             then data !! Z.to_nat k else None.
Proof.
  intros Hrange Hwf Hfits.
  destruct (rect_fits_dims _ _ Hwf Hfits) as (_ & _ & Hw & Hh & Hint & Hmax).
  destruct (scrambleImage_run maxAlloc Intn img s Hrange Hwf Hfits)
    as (data & indices & Hdata & Hlen & Hperm & Hrun).
  eexists data, _, _, _. split; [done|]. split; [exact Hrun|]. split; [done|].
  split; [|split; [|split]].
  - apply imageToBytes_RGBA_Image; [lia|lia| |lia|lia].
    by rewrite modifyBytes_all_length.
  - by apply scramble_Permutation.
  - rewrite <- size_dom, modifyBytes_all_dom. simpl.
    rewrite dom_empty_L, (left_id_L ∅ (∪)), (scramble_writes_fst data indices Hperm).
    assert (filter (λ k, 0 ≤ k < Z.of_nat (length data)) indices ≡ₚ indices) as ->.
    { apply NoDup_Permutation.
      - apply NoDup_filter. by eapply is_permutation_NoDup.
      - by eapply is_permutation_NoDup.
      - intros x. rewrite list_elem_of_filter.
        rewrite (is_permutation_elem _ indices x Hperm). tauto. }
    rewrite size_list_to_set by (by eapply is_permutation_NoDup).
    by apply scramble_indices_length.
  - by apply scramble_record.
Qed.

Lemma scrambleImage_spec_witness :
  ∃ data scrambledData scrambledImg tracker,
    imageToBytes (2 ^ 48) demo_checker = Some data
    ∧ scrambleImage (2 ^ 48) lcg_Intn demo_checker 42 = Some (inr (scrambledImg, tracker))
    ∧ Bounds scrambledImg
      = mkRectangle 0 0 (rect_Dx (Bounds demo_checker)) (rect_Dy (Bounds demo_checker))
    ∧ imageToBytes (2 ^ 48) scrambledImg = Some scrambledData
    ∧ scrambledData ≡ₚ data
    ∧ size (offsets tracker) = length data
    ∧ ∀ k, offsets tracker !! k
           = if bool_decide (0 ≤ k < Z.of_nat (length data))
             then data !! Z.to_nat k else None.
Proof.
  apply (scrambleImage_spec (2 ^ 48) lcg_Intn demo_checker 42).
  - intros n s Hn. simpl. apply Z.mod_pos_bound. lia.
  - split; simpl; lia.
  - unfold rect_fits. simpl. lia.
Defined.

(** X21: scramble, then recover.  For an image with at least one pixel
    whose bounds fit, [recoverImage] applied to what [scrambleImage]
    returned succeeds in every iteration order of the tracker's map, leaves
    the tracker empty, and returns an image of the same size whose bytes are
    exactly the bytes of the input image. *)
Theorem scramble_recover {rng : Type} maxAlloc (Intn : Z → rng → Z * rng) img s :
  (∀ n s, 0 < n → 0 ≤ (Intn n s).1 < n) →
  rect_well_formed (Bounds img) →
  rect_fits maxAlloc (Bounds img) →
  0 < rect_Dx (Bounds img) * rect_Dy (Bounds img) →
  ∃ data scrambledImg tracker,
    imageToBytes maxAlloc img = Some data
    ∧ scrambleImage maxAlloc Intn img s = Some (inr (scrambledImg, tracker))
    ∧ ∀ order, range_order tracker order →
        ∃ recoveredImg,
          recoverImage maxAlloc order scrambledImg tracker
          = Some (newTracker, inr recoveredImg)
          ∧ Bounds recoveredImg
            = mkRectangle 0 0 (rect_Dx (Bounds img)) (rect_Dy (Bounds img))
          ∧ imageToBytes maxAlloc recoveredImg = Some data.
Proof.
  intros Hrange Hwf Hfits Hpos.
  destruct (rect_fits_dims _ _ Hwf Hfits) as (_ & _ & Hw & Hh & Hint & Hmax).
  destruct (scrambleImage_run maxAlloc Intn img s Hrange Hwf Hfits)
    as (data & indices & Hdata & Hlen & Hperm & Hrun).
  eexists data, _, _. split; [done|]. split; [exact Hrun|].
  intros order Hord.
  pose proof (scramble_tracks data indices) as Htr.
  set (tracker := (modifyBytes_all newTracker data (zip indices data)).1.1) in *.
  set (sd := (modifyBytes_all newTracker data (zip indices data)).1.2) in *.
  assert (length sd = length data) as Hsd by apply modifyBytes_all_length.
  unfold recoverImage. cbn [Bounds RGBA_Image].
  rewrite imageToBytes_RGBA_Image by lia. cbn [mbind option_bind].
  rewrite removeMemoryAddress_in_success.
  - rewrite (tracks_restore data tracker sd order Htr Hord).
    rewrite rect_Dx_origin, rect_Dy_origin by lia.
    rewrite bytesToImage_take by lia. simpl.
    rewrite take_ge by lia.
    eexists. split; [reflexivity|]. split; [done|].
    apply imageToBytes_RGBA_Image; lia.
  - intros Hnil. rewrite Hnil in Hsd. simpl in Hsd. nia.
  - eapply range_order_in_bounds; [|done]. by eapply tracks_record_in_bounds.
Qed.

Lemma scramble_recover_witness :
  ∃ data scrambledImg tracker,
    imageToBytes (2 ^ 48) demo_checker = Some data
    ∧ scrambleImage (2 ^ 48) lcg_Intn demo_checker 42 = Some (inr (scrambledImg, tracker))
    ∧ ∀ order, range_order tracker order →
        ∃ recoveredImg,
          recoverImage (2 ^ 48) order scrambledImg tracker
          = Some (newTracker, inr recoveredImg)
          ∧ Bounds recoveredImg
            = mkRectangle 0 0 (rect_Dx (Bounds demo_checker)) (rect_Dy (Bounds demo_checker))
          ∧ imageToBytes (2 ^ 48) recoveredImg = Some data.
Proof.
  apply (scramble_recover (2 ^ 48) lcg_Intn demo_checker 42).
  - intros n s Hn. simpl. apply Z.mod_pos_bound. lia.
  - split; simpl; lia.
  - unfold rect_fits. simpl. lia.
  - vm_compute. reflexivity.
Defined.

(** X22: an image without pixels cannot be recovered.  When the bounds of
    the image fit and are empty, [scrambleImage] still succeeds, with an
    empty tracker, but [recoverImage] fails with "mem block is empty" and
    returns no image. *)
Theorem scramble_recover_empty {rng : Type} maxAlloc (Intn : Z → rng → Z * rng)
    img s order :
  (∀ n s, 0 < n → 0 ≤ (Intn n s).1 < n) →
  rect_well_formed (Bounds img) →
  rect_fits maxAlloc (Bounds img) →
  rect_Dx (Bounds img) * rect_Dy (Bounds img) = 0 →
  ∃ scrambledImg,
    scrambleImage maxAlloc Intn img s = Some (inr (scrambledImg, newTracker))
    ∧ recoverImage maxAlloc order scrambledImg newTracker
      = Some (newTracker, inl MemBlockEmpty).
Proof.
  intros Hrange Hwf Hfits Hzero.
  destruct (rect_fits_dims _ _ Hwf Hfits) as (_ & _ & Hw & Hh & Hint & Hmax).
  destruct (scrambleImage_run maxAlloc Intn img s Hrange Hwf Hfits)
    as (data & indices & Hdata & Hlen & Hperm & Hrun).
  assert (data = []) as -> by (destruct data; [done|simpl in Hlen; lia]).
  rewrite zip_with_nil_r in Hrun. simpl in Hrun.
  eexists. split; [exact Hrun|].
  unfold recoverImage. cbn [Bounds RGBA_Image].
  rewrite imageToBytes_RGBA_Image by (simpl; lia). done.
Qed.

Lemma scramble_recover_empty_witness :
  ∃ scrambledImg,
    scrambleImage (2 ^ 48) lcg_Intn (mkImage (mkRectangle 3 3 3 5) (λ _ _, (0, 0, 0, 0))) 42
    = Some (inr (scrambledImg, newTracker))
    ∧ recoverImage (2 ^ 48) [] scrambledImg newTracker
      = Some (newTracker, inl MemBlockEmpty).
Proof.
  apply (scramble_recover_empty (2 ^ 48) lcg_Intn).
  - intros n s Hn. simpl. apply Z.mod_pos_bound. lia.
  - split; simpl; lia.
  - unfold rect_fits. simpl. lia.
  - vm_compute. reflexivity.
Defined.

(** [image.NewRGBA] on the rectangles that [image.Rect] makes of a width or
    a height of [-2^63], which is what [Dx()] and [Dy()] give on a span of
    [2^63]: their own [Dx()] or [Dy()] is [-2^63] again. *)
Lemma bytesToImage_min_int maxAlloc data width height :
  width = - 2 ^ 63 ∧ 0 ≤ height ∨ 0 ≤ width ∧ height = - 2 ^ 63 →
  bytesToImage maxAlloc data width height = None.
Proof.
  intros Hmin. unfold bytesToImage, bytesToImage_Pix, NewRGBA_Pix.
  assert (mul3NonNeg 4 (rect_Dx (Rect 0 0 width height))
            (rect_Dy (Rect 0 0 width height)) = -1) as ->; [|done].
  destruct Hmin as [[-> Hh]|[Hw ->]].
  - unfold Rect. assert ((height <? 0) = false) as -> by lia.
    unfold mul3NonNeg. by cbn.
  - unfold Rect. assert ((width <? 0) = false) as -> by lia.
    unfold mul3NonNeg.
    destruct (rect_Dx _ <? 0); by cbn.
Qed.

(** X24: where [scrambleImage] panics.  On an image with well-formed
    bounds of spans up to [2^63], with a generator that draws within range,
    [scrambleImage] panics exactly when the bounds do not fit: in
    [imageToBytes], in the [make] of the indices, or in [image.NewRGBA],
    which refuses a width from [2^62] on even where there is no pixel. *)
Theorem scrambleImage_panics_iff {rng : Type} maxAlloc (Intn : Z → rng → Z * rng) img s :
  (∀ n s, 0 < n → 0 ≤ (Intn n s).1 < n) →
  rect_well_formed (Bounds img) →
  MaxX (Bounds img) - MinX (Bounds img) ≤ 2 ^ 63 →
  MaxY (Bounds img) - MinY (Bounds img) ≤ 2 ^ 63 →
  scrambleImage maxAlloc Intn img s = None ↔ ¬ rect_fits maxAlloc (Bounds img).
Proof.
  intros Hrange Hwf Hsx Hsy. pose proof Hwf as [Hx Hy]. split.
  { intros Hnone Hfits.
    destruct (scrambleImage_run maxAlloc Intn img s Hrange Hwf Hfits)
      as (data & indices & _ & _ & _ & Hrun).
    congruence. }
  intros Hnot. unfold scrambleImage.
  destruct (imageToBytes maxAlloc img) as [data|] eqn:Hdata; [|done].
  cbn [mbind option_bind].
  set (sx := MaxX (Bounds img) - MinX (Bounds img)) in *.
  set (sy := MaxY (Bounds img) - MinY (Bounds img)) in *.
  assert (4 * sx * sy < 2 ^ 63 ∧ 4 * sx * sy ≤ maxAlloc) as [Hfit Halloc].
  { destruct (decide (2 ^ 63 ≤ 4 * sx * sy ∨ maxAlloc < 4 * sx * sy)) as [Hbad|]; [|lia].
    apply (imageToBytes_None_iff maxAlloc img Hwf) in Hbad. congruence. }
  assert (Z.of_nat (length data) = 4 * sx * sy) as Hlen.
  { destruct (imageToBytes_layout maxAlloc img Hwf Hfit Halloc) as (data' & Hrun & Hl & _).
    assert (data' = data) as -> by congruence. rewrite Hl. unfold sx, sy. nia. }
  destruct (make_panics maxAlloc 8 (Z.of_nat (length data))) eqn:Hmake; [done|].
  unfold make_panics in Hmake. rewrite !orb_false_iff in Hmake.
  destruct (shuffledIndices_is_permutation Intn (Z.of_nat (length data)) s Hrange)
    as (indices & s' & -> & Hperm); [lia|].
  cbn [mbind option_bind fst].
  destruct (make_panics maxAlloc 1 (Z.of_nat (length data))); [done|].
  rewrite (scramble_from_all data indices Hperm). cbn [mbind option_bind].
  assert (2 ^ 62 ≤ sx ∨ 2 ^ 63 ≤ sy) as Hwide.
  { destruct (decide (2 ^ 62 ≤ sx ∨ 2 ^ 63 ≤ sy)) as [|Hin]; [done|].
    exfalso. apply Hnot. unfold rect_fits. fold sx sy. lia. }
  assert (bytesToImage maxAlloc (modifyBytes_all newTracker data (zip indices data)).1.2
            (rect_Dx (Bounds img)) (rect_Dy (Bounds img)) = None) as ->; [|done].
  destruct (decide (sy = 2 ^ 63)) as [Hsy'|Hsy'].
  { assert (sx = 0) as Hsx' by nia.
    apply bytesToImage_min_int. right. unfold rect_Dx, rect_Dy. fold sx sy.
    rewrite Hsx', Hsy'. done. }
  assert (sy = 0) as Hsy0 by nia.
  destruct (decide (sx = 2 ^ 63)) as [Hsx'|Hsx'].
  { apply bytesToImage_min_int. left. unfold rect_Dx, rect_Dy. fold sx sy.
    rewrite Hsx', Hsy0. done. }
  rewrite rect_Dx_span, rect_Dy_span by (fold sx sy; lia). fold sx sy.
  unfold bytesToImage, bytesToImage_Pix.
  rewrite Rect_origin, NewRGBA_Pix_panics by lia. done.
Qed.

(** An empty rectangle across half the range of [int]: [Dx()] is [-2^63]. *)
Lemma scrambleImage_panics_iff_witness :
  let img := mkImage (mkRectangle (- 2 ^ 62) 0 (2 ^ 62) 0) (λ _ _, (0, 0, 0, 65535)) in
  scrambleImage (2 ^ 48) lcg_Intn img 42 = None ↔ ¬ rect_fits (2 ^ 48) (Bounds img).
Proof.
  apply (scrambleImage_panics_iff (2 ^ 48) lcg_Intn).
  - intros n s Hn. simpl. apply Z.mod_pos_bound. lia.
  - split; simpl; lia.
  - simpl. lia.
  - simpl. lia.
Defined.
